(** * BricKuber: the cube-handling library of the BrickPi3 Rubik's cube robot

    A shallow embedding of [Projects/BricKuber/brickuber_lib.py] and the
    properties of its orientation tracker, move dispatcher and motor layer.

    Conventions of the embedding.
    - Python [int] is [Z].  A Python [float] is the rational in [Q] that
      the double denotes.  With [from __future__ import division] the
      operator [/] on two [int]s is true division: the quotient rounded to
      the nearest double ([double]), or [OverflowError] when it is out of
      the range of the doubles ([huge]).  A [number] is an [int] or a
      [float]; in [float + int] the [int] is converted first, and the sum is
      rounded, or is an infinity.
    - A method of [BricKuberLib] is a function in the monad [M]: it takes the
      object (with the rig behind its driver) and gives an [outcome]: it
      returns, it raises, or it is still blocked in a polling loop when the
      poll budget [fuel] of that loop is used up.
    - The BrickPi3 driver and the clock are not part of this library: they
      are the interface [Rig]. *)

From Stdlib Require Import ZArith QArith Qround Qabs Lia Lqa Bool Ascii.
From Stdlib Require Import DecimalString.
From stdpp Require Import base list strings.

Local Open Scope Z_scope.

(** ** Python values used by the library *)

(** The exceptions the modelled code can raise. *)
Inductive exn : Type :=
  | ValueError (msg : string)
  | UnboundLocalError (name : string)
  | IndexError
  | ZeroDivisionError
  | OverflowError.

(** What a call does: return [a] in state [s], raise [e] in state [s], or
    keep polling after the budget of a loop is used up. *)
Inductive outcome (S A : Type) : Type :=
  | Done (a : A) (s : S)
  | Raise (e : exn) (s : S)
  | Blocked.
Arguments Done {S A} a s.
Arguments Raise {S A} e s.
Arguments Blocked {S A}.


(** [str.find(sub)]: the lowest index of [sub] in [s], or [-1]. *)
Definition find (s sub : string) : Z :=
  match String.index 0 sub s with
  | Some i => Z.of_nat i
  | None => -1
  end.

(** [x < y] on rationals, as a boolean. *)
Definition Qltb (x y : Q) : bool := negb (Qle_bool y x).

(** *** Numbers

    The doubles of IEEE 754 binary64: 53 bits of significand, the least
    exponent -1074, rounding to nearest, ties to the even significand. *)

(** 2 to the power [n], for any integer [n]. *)
Definition pow2 (n : Z) : Q :=
  if 0 <=? n then inject_Z (2 ^ n) else 1 # Z.to_pos (2 ^ (- n)).

(** For [q <> 0], the [n] with [2 ^ n <= |q| < 2 ^ (n + 1)]. *)
Definition floor_log2 (q : Q) : Z :=
  let n := Z.log2 (Z.abs (Qnum q)) - Z.log2 (Zpos (Qden q)) in
  if Qle_bool (pow2 n) (Qabs q) then n else n - 1.

(** The nearest integer, ties to the even one. *)
Definition round_half_even (q : Q) : Z :=
  let f := Qfloor q in
  match (q - inject_Z f ?= 1 # 2)%Q with
  | Lt => f
  | Eq => if Z.even f then f else f + 1
  | Gt => f + 1
  end.

(** The distance between the doubles around [q]. *)
Definition ulp (q : Q) : Q := pow2 (Z.max (floor_log2 q - 52) (-1074)).

(** The double nearest to [q]. *)
Definition double (q : Q) : Q :=
  if Qeq_bool q 0 then 0
  else Qred (inject_Z (round_half_even (q / ulp q)) * ulp q).

(** Half way between the largest double, [2 ^ 1024 - 2 ^ 971], and
    [2 ^ 1024]: from here on a number rounds out of the doubles. *)
Definition float_limit : Z := 2 ^ 1024 - 2 ^ 970.

Definition huge (q : Q) : bool :=
  Qle_bool (inject_Z float_limit) (Qabs q).

(** A Python number: an [int], or a [float] that is not an infinity. *)
Inductive number : Type :=
  | Int (n : Z)
  | Float (x : Q).

(** The rational a number denotes. *)
Definition value (v : number) : Q :=
  match v with
  | Int n => inject_Z n
  | Float x => x
  end.

(** What a sum of numbers can be: a number, or an infinity. *)
Inductive extended : Type :=
  | Finite (x : Q)
  | Infinity
  | NegInfinity.

(** [float(n)] of an [int], as the operators convert it; [None] is
    [OverflowError]. *)
Definition float_of_int (n : Z) : option Q :=
  if huge (inject_Z n) then None else Some (double (inject_Z n)).

(** [x + y] on floats: it never raises. *)
Definition float_add (x y : Q) : extended :=
  let sum := (x + y)%Q in
  if huge sum then (if Qle_bool 0 sum then Infinity else NegInfinity)
  else Finite (double sum).

(** [v + n] and [v - n] for an [int] [n]; [None] is [OverflowError]. *)
Definition add (v : number) (n : Z) : option extended :=
  match v with
  | Int m => Some (Finite (inject_Z (m + n)))
  | Float x =>
      match float_of_int n with
      | Some y => Some (float_add x y)
      | None => None
      end
  end.

Definition sub (v : number) (n : Z) : option extended :=
  match v with
  | Int m => Some (Finite (inject_Z (m - n)))
  | Float x =>
      match float_of_int n with
      | Some y => Some (float_add x (- y))
      | None => None
      end
  end.

(** [n > b] and [n < b] for an [int] [n]: Python compares an [int] and a
    [float] exactly. *)
Definition gt (n : Z) (b : extended) : bool :=
  match b with
  | Finite x => Qltb x (inject_Z n)
  | Infinity => false
  | NegInfinity => true
  end.

Definition lt (n : Z) (b : extended) : bool :=
  match b with
  | Finite x => Qltb (inject_Z n) x
  | Infinity => true
  | NegInfinity => false
  end.

(** The whitespace of [str.split()] on a byte string: tab, line feed,
    vertical tab, form feed, carriage return and space. *)
Definition isspace (c : ascii) : bool :=
  let n := N_of_ascii c in
  ((9 <=? n) && (n <=? 13) || (n =? 32))%N.

(** [str.split()] from the rest [s] of the string, with the word read so
    far: the words between runs of whitespace. *)
Fixpoint split_from (s : string) (word : string) : list string :=
  match s with
  | EmptyString => if String.eqb word "" then [] else [word]
  | String c s' =>
      if isspace c then
        if String.eqb word "" then split_from s' ""
        else word :: split_from s' ""
      else split_from s' (word +:+ String c "")
  end.

Definition split (s : string) : list string := split_from s "".

(** ** The driver interface *)

(** The four motor ports of the BrickPi3 driver. *)
Inductive Port : Type := PORT_A | PORT_B | PORT_C | PORT_D.

(** Modelled from the spec: the Actuator Interface of section 6 (the
    [brickpi3] driver module is not among the sources): per actuator
    setPower, setPositionTarget, setSpeedLimit, readEncoderPosition and
    offsetEncoderZero, named as the library calls them; [time_sleep] is
    [time.sleep], with its argument in seconds.  [W] is the state of the
    rig: driver, motors and clock.  Reading an encoder returns the reading
    and the rig after the read. *)
Class Rig (W : Type) : Type := {
  set_motor_power : Port -> Z -> W -> W;
  set_motor_position : Port -> Q -> W -> W;
  set_motor_limits : Port -> Z -> Q -> W -> W;
  get_motor_encoder : Port -> W -> Z * W;
  offset_motor_encoder : Port -> Z -> W -> W;
  time_sleep : Q -> W -> W
}.

(** ** The library *)

(** Return Opposite Face. *)
Definition OF (f : Z) : Z :=
  if f <? 3 then f + 3 else f - 3.

(** The class attribute [CCO = [0, 1, 2]]: side U, F, R. *)
Definition CCO_initial : list Z := [0; 1; 2].

(** define motor ports *)
Definition MOTOR_GRAB : nat := 0.
Definition MOTOR_TURN : nat := 1.
Definition MOTOR_PORTS : list Port := [PORT_D; PORT_A].

(** [Move], lines 139-144: the degrees of the face turn. *)
Definition DegreesToTurnFace (cmd : string) : Z :=
  if negb (find cmd "'" =? -1) then 90
  else if negb (find cmd "2" =? -1) then -180
  else -90.

(** [Move], lines 146-157: the face to turn; [None] when no branch assigns
    the local variable. *)
Definition FaceToTurn (cmd : string) : option Z :=
  if negb (find cmd "U" =? -1) then Some 0
  else if negb (find cmd "F" =? -1) then Some 1
  else if negb (find cmd "R" =? -1) then Some 2
  else if negb (find cmd "D" =? -1) then Some 3
  else if negb (find cmd "B" =? -1) then Some 4
  else if negb (find cmd "L" =? -1) then Some 5
  else None.

Section Library.
Context {W : Type} `{Rig W}.

(** An instance of [BricKuberLib].  [CCO] is a class attribute that [Move]
    updates in place, so there is one list for the whole process; [BP] is
    the driver object with the rig behind it. *)
Record BricKuberLib : Type := {
  debug : bool;
  TurnTablePinion : Z;
  TurnTableGear : Z;
  MOTOR_GRAB_POSITION_HOME : Z;
  MOTOR_GRAB_POSITION_REST : Z;
  MOTOR_GRAB_POSITION_FLIP_PUSH : Z;
  MOTOR_GRAB_POSITION_GRAB : Z;
  MOTOR_GRAB_POSITION_FLIP : Z;
  MOTOR_GRAB_SPEED_GRAB : Z;
  MOTOR_GRAB_SPEED_FLIP : Z;
  MOTOR_GRAB_SPEED_REST : Z;
  TurnTableTarget : Z;
  CCO : list Z;
  BP : W
}.

Definition with_TurnTableTarget (v : Z) (self : BricKuberLib) : BricKuberLib :=
  {| debug := debug self;
     TurnTablePinion := TurnTablePinion self;
     TurnTableGear := TurnTableGear self;
     MOTOR_GRAB_POSITION_HOME := MOTOR_GRAB_POSITION_HOME self;
     MOTOR_GRAB_POSITION_REST := MOTOR_GRAB_POSITION_REST self;
     MOTOR_GRAB_POSITION_FLIP_PUSH := MOTOR_GRAB_POSITION_FLIP_PUSH self;
     MOTOR_GRAB_POSITION_GRAB := MOTOR_GRAB_POSITION_GRAB self;
     MOTOR_GRAB_POSITION_FLIP := MOTOR_GRAB_POSITION_FLIP self;
     MOTOR_GRAB_SPEED_GRAB := MOTOR_GRAB_SPEED_GRAB self;
     MOTOR_GRAB_SPEED_FLIP := MOTOR_GRAB_SPEED_FLIP self;
     MOTOR_GRAB_SPEED_REST := MOTOR_GRAB_SPEED_REST self;
     TurnTableTarget := v;
     CCO := CCO self;
     BP := BP self |}.

Definition with_CCO (v : list Z) (self : BricKuberLib) : BricKuberLib :=
  {| debug := debug self;
     TurnTablePinion := TurnTablePinion self;
     TurnTableGear := TurnTableGear self;
     MOTOR_GRAB_POSITION_HOME := MOTOR_GRAB_POSITION_HOME self;
     MOTOR_GRAB_POSITION_REST := MOTOR_GRAB_POSITION_REST self;
     MOTOR_GRAB_POSITION_FLIP_PUSH := MOTOR_GRAB_POSITION_FLIP_PUSH self;
     MOTOR_GRAB_POSITION_GRAB := MOTOR_GRAB_POSITION_GRAB self;
     MOTOR_GRAB_POSITION_FLIP := MOTOR_GRAB_POSITION_FLIP self;
     MOTOR_GRAB_SPEED_GRAB := MOTOR_GRAB_SPEED_GRAB self;
     MOTOR_GRAB_SPEED_FLIP := MOTOR_GRAB_SPEED_FLIP self;
     MOTOR_GRAB_SPEED_REST := MOTOR_GRAB_SPEED_REST self;
     TurnTableTarget := TurnTableTarget self;
     CCO := v;
     BP := BP self |}.

Definition with_BP (v : W) (self : BricKuberLib) : BricKuberLib :=
  {| debug := debug self;
     TurnTablePinion := TurnTablePinion self;
     TurnTableGear := TurnTableGear self;
     MOTOR_GRAB_POSITION_HOME := MOTOR_GRAB_POSITION_HOME self;
     MOTOR_GRAB_POSITION_REST := MOTOR_GRAB_POSITION_REST self;
     MOTOR_GRAB_POSITION_FLIP_PUSH := MOTOR_GRAB_POSITION_FLIP_PUSH self;
     MOTOR_GRAB_POSITION_GRAB := MOTOR_GRAB_POSITION_GRAB self;
     MOTOR_GRAB_POSITION_FLIP := MOTOR_GRAB_POSITION_FLIP self;
     MOTOR_GRAB_SPEED_GRAB := MOTOR_GRAB_SPEED_GRAB self;
     MOTOR_GRAB_SPEED_FLIP := MOTOR_GRAB_SPEED_FLIP self;
     MOTOR_GRAB_SPEED_REST := MOTOR_GRAB_SPEED_REST self;
     TurnTableTarget := TurnTableTarget self;
     CCO := CCO self;
     BP := v |}.

(** *** The monad of methods *)

Definition M (A : Type) : Type := BricKuberLib -> outcome BricKuberLib A.

#[export] Instance M_ret : MRet M := fun A a self => Done a self.

#[export] Instance M_bind : MBind M := fun A B k m self =>
  match m self with
  | Done a self' => k a self'
  | Raise e self' => Raise e self'
  | Blocked => Blocked
  end.

Definition raise {A : Type} (e : exn) : M A := fun self => Raise e self.

(** The loop is still polling when its budget ends. *)
Definition blocked {A : Type} : M A := fun _ => Blocked.

(** Read an attribute of [self]. *)
Definition attr {A : Type} (f : BricKuberLib -> A) : M A :=
  fun self => Done (f self) self.

Definition assign_TurnTableTarget (v : Z) : M unit :=
  fun self => Done tt (with_TurnTableTarget v self).

(** [self.CCO[i]] as an expression. *)
Definition CCO_getitem (i : nat) : M Z := fun self =>
  match CCO self !! i with
  | Some v => Done v self
  | None => Raise IndexError self
  end.

(** [self.CCO[i] = v]. *)
Definition CCO_setitem (i : nat) (v : Z) : M unit := fun self =>
  if (i <? length (CCO self))%nat
  then Done tt (with_CCO (<[i:=v]> (CCO self)) self)
  else Raise IndexError self.

(** [self.MOTOR_PORTS[i]]. *)
Definition MOTOR_PORTS_getitem (i : nat) : M Port :=
  match MOTOR_PORTS !! i with
  | Some p => mret p
  | None => raise IndexError
  end.

(** [a / b] under true division: a [float]. *)
Definition truediv (a b : Z) : M Q :=
  if b =? 0 then raise ZeroDivisionError
  else if huge (inject_Z a / inject_Z b) then raise OverflowError
  else mret (double (inject_Z a / inject_Z b)).

(** The value of an expression that can raise [OverflowError]. *)
Definition arith {A : Type} (v : option A) : M A :=
  match v with
  | Some a => mret a
  | None => raise OverflowError
  end.

(** A driver call that returns nothing. *)
Definition call (f : W -> W) : M unit :=
  fun self => Done tt (with_BP (f (BP self)) self).

(** A driver call that returns a reading. *)
Definition call_read (f : W -> Z * W) : M Z :=
  fun self => let '(v, w) := f (BP self) in Done v (with_BP w self).

(** *** Motor layer *)

(** [encoder > position + tolerance or encoder < position - tolerance]:
    the right operand of [or] is evaluated only when the left one is
    false. *)
Definition out_of_tolerance (encoder : Z) (position : number)
    (tolerance : Z) : M bool :=
  high ← arith (add position tolerance) ;
  if gt encoder high then mret true
  else low ← arith (sub position tolerance) ;
       mret (lt encoder low).

(** The [while] loop of [run_to_position], entered with the last reading;
    [fuel] bounds the number of iterations. *)
Fixpoint run_to_position_loop (fuel : nat) (p : Port) (position : number)
    (tolerance : Z) (encoder : Z) : M unit :=
  out ← out_of_tolerance encoder position tolerance ;
  if out : bool then
    match fuel with
    | O => blocked
    | S fuel' =>
        call (time_sleep (1 # 100)) ;;
        encoder ← call_read (get_motor_encoder p) ;
        run_to_position_loop fuel' p position tolerance encoder
    end
  else mret tt.

(** run a motor to the specified position, and wait for it to get there.
    [MOTOR_PORTS] is never assigned to, so the subscript
    [self.MOTOR_PORTS[port]] is evaluated once here.  The driver is given
    the value of the position. *)
Definition run_to_position (fuel : nat) (port : nat) (position : number)
    (tolerance : Z) : M unit :=
  p ← MOTOR_PORTS_getitem port ;
  call (set_motor_position p (value position)) ;;
  encoder ← call_read (get_motor_encoder p) ;
  run_to_position_loop fuel p position tolerance encoder.

(** [(self.TurnTableTarget * self.TurnTableGear) / self.TurnTablePinion] *)
Definition TurnTablePosition : M Q :=
  target ← attr TurnTableTarget ;
  gear ← attr TurnTableGear ;
  pinion ← attr TurnTablePinion ;
  truediv (target * gear) pinion.

(** spin the cube the specified number of degrees.  Optionally overshoot
    and return. *)
Definition spin (fuel : nat) (deg : Z) (overshoot : Z) : M unit :=
  let overshoot := if deg <? 0 then - overshoot else overshoot in
  target ← attr TurnTableTarget ;
  assign_TurnTableTarget (target - (deg + overshoot)) ;;
  position ← TurnTablePosition ;
  run_to_position fuel MOTOR_TURN (Float position) 3 ;;
  if negb (overshoot =? 0) then
    target ← attr TurnTableTarget ;
    assign_TurnTableTarget (target + overshoot) ;;
    position ← TurnTablePosition ;
    run_to_position fuel MOTOR_TURN (Float position) 3
  else mret tt.

(** grab the cube *)
Definition grab (fuel : nat) : M unit :=
  p ← MOTOR_PORTS_getitem MOTOR_GRAB ;
  speed ← attr MOTOR_GRAB_SPEED_GRAB ;
  call (set_motor_limits p 0 (inject_Z speed)) ;;
  position ← attr MOTOR_GRAB_POSITION_GRAB ;
  run_to_position fuel MOTOR_GRAB (Int position) 3 ;;
  call (time_sleep (2 # 10)).

(** release the cube *)
Definition release (fuel : nat) : M unit :=
  p ← MOTOR_PORTS_getitem MOTOR_GRAB ;
  speed ← attr MOTOR_GRAB_SPEED_REST ;
  call (set_motor_limits p 0 (inject_Z speed)) ;;
  position ← attr MOTOR_GRAB_POSITION_REST ;
  run_to_position fuel MOTOR_GRAB (Int position) 3.

(** flip the cube, and optionally release it afterwards *)
Definition flip (fuel : nat) (release_after : bool) : M unit :=
  position ← attr MOTOR_GRAB_POSITION_FLIP_PUSH ;
  run_to_position fuel MOTOR_GRAB (Int position) 3 ;;
  call (time_sleep (5 # 100)) ;;
  grab fuel ;;
  call (time_sleep (2 # 10)) ;;
  p ← MOTOR_PORTS_getitem MOTOR_GRAB ;
  speed ← attr MOTOR_GRAB_SPEED_FLIP ;
  call (set_motor_limits p 0 (inject_Z speed)) ;;
  position ← attr MOTOR_GRAB_POSITION_FLIP ;
  run_to_position fuel MOTOR_GRAB (Int position) 3 ;;
  position ← attr MOTOR_GRAB_POSITION_FLIP_PUSH ;
  run_to_position fuel MOTOR_GRAB (Int position) 3 ;;
  if release_after then release fuel else mret tt.

(** The [while] loop of [home_all]: poll until two readings agree. *)
Fixpoint home_all_loop (fuel : nat) (p : Port) (EncoderNow EncoderLast : Z)
    : M Z :=
  if negb (EncoderNow =? EncoderLast) then
    match fuel with
    | O => blocked
    | S fuel' =>
        let EncoderLast := EncoderNow in
        call (time_sleep (1 # 10)) ;;
        EncoderNow ← call_read (get_motor_encoder p) ;
        home_all_loop fuel' p EncoderNow EncoderLast
    end
  else mret EncoderNow.

(** find motor home positions for all motors *)
Definition home_all (fuel : nat) : M unit :=
  p ← MOTOR_PORTS_getitem MOTOR_GRAB ;
  call (set_motor_power p 15) ;;
  EncoderLast ← call_read (get_motor_encoder p) ;
  call (time_sleep (1 # 10)) ;;
  EncoderNow ← call_read (get_motor_encoder p) ;
  EncoderNow ← home_all_loop fuel p EncoderNow EncoderLast ;
  call (offset_motor_encoder p (EncoderNow - 25)) ;;
  position ← attr MOTOR_GRAB_POSITION_REST ;
  call (set_motor_position p (inject_Z position)) ;;
  t ← MOTOR_PORTS_getitem MOTOR_TURN ;
  encoder ← call_read (get_motor_encoder t) ;
  call (offset_motor_encoder t encoder) ;;
  assign_TurnTableTarget 0 ;;
  spin fuel 0 0.

(** The attributes [__init__] assigns for a robot style, on the class
    attributes [cco] and [bp]; [TurnTableTarget] does not exist before
    [home_all] assigns it and is not read before that. *)
Definition style_attributes (robot_style : string) (debug : bool)
    (cco : list Z) (bp : W) : option BricKuberLib :=
  if String.eqb robot_style "NXT1" then
    Some {| debug := debug;
            TurnTablePinion := 24;
            TurnTableGear := 56;
            MOTOR_GRAB_POSITION_HOME := 0;
            MOTOR_GRAB_POSITION_REST := -35;
            MOTOR_GRAB_POSITION_FLIP_PUSH := -90;
            MOTOR_GRAB_POSITION_GRAB := -130;
            MOTOR_GRAB_POSITION_FLIP := -240;
            MOTOR_GRAB_SPEED_GRAB := 400;
            MOTOR_GRAB_SPEED_FLIP := 600;
            MOTOR_GRAB_SPEED_REST := 400;
            TurnTableTarget := 0;
            CCO := cco;
            BP := bp |}
  else if String.eqb robot_style "EV3" then
    Some {| debug := debug;
            TurnTablePinion := 12;
            TurnTableGear := 36;
            MOTOR_GRAB_POSITION_HOME := 0;
            MOTOR_GRAB_POSITION_REST := -35;
            MOTOR_GRAB_POSITION_FLIP_PUSH := -90;
            MOTOR_GRAB_POSITION_GRAB := -130;
            MOTOR_GRAB_POSITION_FLIP := -240;
            MOTOR_GRAB_SPEED_GRAB := 400;
            MOTOR_GRAB_SPEED_FLIP := 600;
            MOTOR_GRAB_SPEED_REST := 400;
            TurnTableTarget := 0;
            CCO := cco;
            BP := bp |}
  else None.

(** [BricKuberLib(robot_style, debug)]: the constructor, run on the class
    attributes [cco] and the rig [bp].  It returns the new object, or
    raises with the rig as it is then. *)
Definition __init__ (fuel : nat) (robot_style : string) (debug : bool)
    (cco : list Z) (bp : W) : outcome W BricKuberLib :=
  match style_attributes robot_style debug cco bp with
  | None => Raise (ValueError "Unsupported robot style") bp
  | Some self =>
      match (t ← MOTOR_PORTS_getitem MOTOR_TURN ;
             gear ← attr TurnTableGear ;
             pinion ← attr TurnTablePinion ;
             dps ← truediv (500 * gear) pinion ;
             call (set_motor_limits t 0 dps) ;;
             home_all fuel) self with
      | Done _ self' => Done self' (BP self')
      | Raise e self' => Raise e (BP self')
      | Blocked => Blocked
      end
  end.

(** Read a local variable: [UnboundLocalError] when no assignment to it
    has run. *)
Definition local {A : Type} (name : string) (v : option A) : M A :=
  match v with
  | Some a => mret a
  | None => raise (UnboundLocalError name)
  end.

(** Execute a move *)
Definition Move (fuel : nat) (cmd : string) : M unit :=
  let DegreesToTurnFace := DegreesToTurnFace cmd in
  let RecoverFace := 22 in
  let FaceToTurn := FaceToTurn cmd in
  FaceToTurn ← local "FaceToTurn" FaceToTurn ;
  (U ← CCO_getitem 0 ;
   if FaceToTurn =? U then
     (* target is top: flip twice *)
     flip fuel false ;;
     flip fuel false ;;
     c ← CCO_getitem 0 ; CCO_setitem 0 (OF c) ;;
     c ← CCO_getitem 1 ; CCO_setitem 1 (OF c)
   else
   F ← CCO_getitem 1 ;
   if FaceToTurn =? F then
     (* target is front: rotate 180 and flip *)
     release fuel ;;
     spin fuel 180 0 ;;
     c ← CCO_getitem 1 ; CCO_setitem 1 (OF c) ;;
     c ← CCO_getitem 2 ; CCO_setitem 2 (OF c) ;;
     flip fuel false ;;
     tmp ← CCO_getitem 0 ;
     c ← CCO_getitem 1 ; CCO_setitem 0 c ;;
     CCO_setitem 1 (OF tmp)
   else
   R ← CCO_getitem 2 ;
   if FaceToTurn =? R then
     (* target is right: rotate -90 and flip *)
     release fuel ;;
     spin fuel (-90) 0 ;;
     tmp ← CCO_getitem 2 ;
     c ← CCO_getitem 1 ; CCO_setitem 2 c ;;
     CCO_setitem 1 (OF tmp) ;;
     flip fuel false ;;
     tmp ← CCO_getitem 0 ;
     c ← CCO_getitem 1 ; CCO_setitem 0 c ;;
     CCO_setitem 1 (OF tmp)
   else
   U ← CCO_getitem 0 ;
   if FaceToTurn =? OF U then
     (* target is bottom: don't do anything *)
     mret tt
   else
   F ← CCO_getitem 1 ;
   if FaceToTurn =? OF F then
     (* target is back: flip *)
     flip fuel false ;;
     tmp ← CCO_getitem 0 ;
     c ← CCO_getitem 1 ; CCO_setitem 0 c ;;
     CCO_setitem 1 (OF tmp)
   else
   R ← CCO_getitem 2 ;
   if FaceToTurn =? OF R then
     (* target is left: rotate 90 and flip *)
     release fuel ;;
     spin fuel 90 0 ;;
     tmp ← CCO_getitem 1 ;
     c ← CCO_getitem 2 ; CCO_setitem 1 c ;;
     CCO_setitem 2 (OF tmp) ;;
     flip fuel false ;;
     tmp ← CCO_getitem 0 ;
     c ← CCO_getitem 1 ; CCO_setitem 0 c ;;
     CCO_setitem 1 (OF tmp)
   else mret tt) ;;
  grab fuel ;;
  spin fuel DegreesToTurnFace RecoverFace.

(** The loop of [Moves] over the tokens. *)
Fixpoint Moves_loop (fuel : nat) (cmds : list string) : M unit :=
  match cmds with
  | [] => mret tt
  | cmd :: rest => Move fuel cmd ;; Moves_loop fuel rest
  end.

(** Execute a string of moves *)
Definition Moves (fuel : nat) (cmds : string) : M unit :=
  Moves_loop fuel (split cmds) ;;
  position ← attr MOTOR_GRAB_POSITION_REST ;
  run_to_position fuel MOTOR_GRAB (Int position) 3.

End Library.

Arguments BricKuberLib W : clear implicits.
Arguments M W A : clear implicits.

(** ** Notions of the specification *)

(** A face value: one of 0..5. *)
Definition is_face (f : Z) : bool := (0 <=? f) && (f <? 6).

(** Two entries are distinct and neither is the opposite of the other. *)
Definition apart (a b : Z) : bool :=
  negb (a =? b) && negb (a =? OF b) && negb (b =? OF a).

(** The invariant of the orientation triple: three faces, pairwise distinct
    and pairwise non-opposite. *)
Definition well_oriented (cco : list Z) : bool :=
  match cco with
  | [U; F; R] =>
      is_face U && is_face F && is_face R
      && apart U F && apart U R && apart F R
  | _ => false
  end.

(** The six rows of the transition table of section 4.4, named as the
    comments of [Move] name them. *)
Inductive Target : Type := Top | Front | Right | Bottom | Back | Left.

(** The face a row compares the target face against. *)
Definition target_face (t : Target) (U F R : Z) : Z :=
  match t with
  | Top => U
  | Front => F
  | Right => R
  | Bottom => OF U
  | Back => OF F
  | Left => OF R
  end.

(** The guards of the [if]/[elif] chain of [Move] (lines 159-207), on the
    orientation the chain is entered with: the first guard that holds. *)
Definition branch (FaceToTurn U F R : Z) : option Target :=
  if FaceToTurn =? U then Some Top
  else if FaceToTurn =? F then Some Front
  else if FaceToTurn =? R then Some Right
  else if FaceToTurn =? OF U then Some Bottom
  else if FaceToTurn =? OF F then Some Back
  else if FaceToTurn =? OF R then Some Left
  else None.

(** The physical actions of the table. *)
Inductive Action : Type :=
  | Flip
  | Release
  | Spin (deg : Z).

(** Column "physical actions (in order)". *)
Definition reorientation (t : Target) : list Action :=
  match t with
  | Top => [Flip; Flip]
  | Front => [Release; Spin 180; Flip]
  | Right => [Release; Spin (-90); Flip]
  | Bottom => []
  | Back => [Flip]
  | Left => [Release; Spin 90; Flip]
  end.

(** The update "on the flip": [tmp = U; U = F; F = OF(tmp)]. *)
Definition on_the_flip (U F R : Z) : list Z := [F; OF U; R].

(** Column "orientation update". *)
Definition reoriented (t : Target) (U F R : Z) : list Z :=
  match t with
  | Top => [OF U; OF F; R]
  | Front => on_the_flip U (OF F) (OF R)
  | Right => on_the_flip U (OF R) F
  | Bottom => [U; F; R]
  | Back => on_the_flip U F R
  | Left => on_the_flip U R (OF F)
  end.

(** A token contains a character. *)
Definition contains (c : ascii) (cmd : string) : bool :=
  existsb (Ascii.eqb c) (String.list_ascii_of_string cmd).

(** The face letters in their priority order; the position is the face. *)
Definition face_letters : list ascii := ["U"; "F"; "R"; "D"; "B"; "L"]%char.

(** The first element of [l], from position [i] on, that satisfies [P]. *)
Fixpoint first_position {A : Type} (P : A -> bool) (l : list A) (i : Z)
    : option Z :=
  match l with
  | [] => None
  | x :: l' => if P x then Some i else first_position P l' (i + 1)
  end.

(** Section 6, move notation: the rotation of a token. *)
Definition token_degrees (cmd : string) : Z :=
  if contains "'" cmd then 90
  else if contains "2" cmd then -180
  else -90.

(** Section 6, move notation: the face of a token. *)
Definition token_face (cmd : string) : option Z :=
  first_position (fun c => contains c cmd) face_letters 0.

(** The sum of the [degrees] arguments of a list of [spin(degrees,
    overshoot)] calls. *)
Definition degrees_sum (calls : list (Z * Z)) : Z :=
  foldr (fun call acc => call.1 + acc) 0 calls.

(** The encoder lies within [[position - tolerance, position + tolerance]]. *)
Definition within (encoder : Z) (position : Q) (tolerance : Z) : Prop :=
  (position - inject_Z tolerance <= inject_Z encoder)%Q
  /\ (inject_Z encoder <= position + inject_Z tolerance)%Q.

(** An integer at or above, and at or below, a bound that can be an
    infinity. *)
Definition at_least (low : extended) (n : Z) : Prop :=
  match low with
  | Finite x => (x <= inject_Z n)%Q
  | Infinity => False
  | NegInfinity => True
  end.

Definition at_most (n : Z) (high : extended) : Prop :=
  match high with
  | Finite x => (inject_Z n <= x)%Q
  | Infinity => True
  | NegInfinity => False
  end.

(** The encoder lies between the bounds [position - tolerance] and
    [position + tolerance] as the interpreter computes them: exactly for
    an [int] position, rounded to doubles for a [float] position. *)
Definition settled (encoder : Z) (position : number) (tolerance : Z) : Prop :=
  exists low high,
    sub position tolerance = Some low /\ add position tolerance = Some high
    /\ at_least low encoder /\ at_most encoder high.

(** The bounds can be computed: the position is an [int], or the
    tolerance is in the range of the doubles. *)
Definition bounded (position : number) (tolerance : Z) : Prop :=
  match position with
  | Int _ => True
  | Float _ => huge (inject_Z tolerance) = false
  end.

Section Specification.
Context {W : Type} `{Rig W}.

(** The state in which a call left the object, if it came back. *)
Definition state_of {A : Type} (o : outcome (BricKuberLib W) A)
    : option (BricKuberLib W) :=
  match o with
  | Done _ self => Some self
  | Raise _ self => Some self
  | Blocked => None
  end.

(** Apply [f] to the state of an outcome. *)
Definition lift_state {A : Type} (f : BricKuberLib W -> BricKuberLib W)
    (o : outcome (BricKuberLib W) A) : outcome (BricKuberLib W) A :=
  match o with
  | Done a self => Done a (f self)
  | Raise e self => Raise e (f self)
  | Blocked => Blocked
  end.

(** [m] leaves the observation [get] of the object as it found it,
    whether it returns or raises. *)
Definition keeps {X A : Type} (get : BricKuberLib W -> X) (m : M W A) : Prop :=
  forall self self', state_of (m self) = Some self' -> get self' = get self.

(** [m] neither reads nor writes the orientation triple: run on another
    triple, it does the same and leaves that triple. *)
Definition ignores_CCO {A : Type} (m : M W A) : Prop :=
  forall v self, m (with_CCO v self) = lift_state (with_CCO v) (m self).

(** [m] never raises: it returns or it is blocked. *)
Definition never_raises {A : Type} (m : M W A) : Prop :=
  forall self e self', m self <> Raise e self'.

(** [m] returns from every state. *)
Definition returns {A : Type} (m : M W A) : Prop :=
  forall self, exists a self', m self = Done a self'.

(** The attributes of the turntable that only [__init__] assigns. *)
Definition gearing (self : BricKuberLib W) : Z * Z :=
  (TurnTablePinion self, TurnTableGear self).

(** The turntable position for a cumulative target, as [spin] computes
    it, and whether it is beyond the doubles. *)
Definition position_of (target : Z) (self : BricKuberLib W) : Q :=
  double (inject_Z (target * TurnTableGear self)
          / inject_Z (TurnTablePinion self)).

Definition overflows (target : Z) (self : BricKuberLib W) : bool :=
  huge (inject_Z (target * TurnTableGear self)
        / inject_Z (TurnTablePinion self)).

(** Replace the orientation triple as a whole. *)
Definition assign_CCO (v : list Z) : M W unit :=
  fun self => Done tt (with_CCO v self).

Definition perform (fuel : nat) (a : Action) : M W unit :=
  match a with
  | Flip => flip fuel false
  | Release => release fuel
  | Spin deg => spin fuel deg 0
  end.

Fixpoint perform_all (fuel : nat) (actions : list Action) : M W unit :=
  match actions with
  | [] => mret tt
  | a :: rest => perform fuel a ;; perform_all fuel rest
  end.

(** A row of the table followed by the face turn: the actions in order,
    the orientation update, then [grab()] and
    [spin(rotationDegrees, overshoot=22)]. *)
Definition table_row (fuel : nat) (t : Target) (rotationDegrees : Z)
    (U F R : Z) : M W unit :=
  perform_all fuel (reorientation t) ;;
  assign_CCO (reoriented t U F R) ;;
  grab fuel ;;
  spin fuel rotationDegrees 22.

(** The face turn alone, when no row applies. *)
Definition face_turn_only (fuel : nat) (rotationDegrees : Z) : M W unit :=
  grab fuel ;;
  spin fuel rotationDegrees 22.

(** The objects reachable from the initial orientation by dispatched
    moves. *)
Inductive reachable : BricKuberLib W -> Prop :=
  | reachable_initial self :
      CCO self = CCO_initial -> reachable self
  | reachable_Move fuel cmd self self' :
      reachable self ->
      state_of (Move fuel cmd self) = Some self' ->
      reachable self'.

(** A sequence of [spin(degrees, overshoot)] calls. *)
Fixpoint spins (fuel : nat) (calls : list (Z * Z)) : M W unit :=
  match calls with
  | [] => mret tt
  | (deg, overshoot) :: rest => spin fuel deg overshoot ;; spins fuel rest
  end.

(** The [k]-th encoder reading of [run_to_position], with the rig after
    it: the position is commanded and the encoder read, then each further
    reading follows a sleep of 10 ms. *)
Fixpoint poll (p : Port) (position : Q) (k : nat) (w : W) : Z * W :=
  match k with
  | O => get_motor_encoder p (set_motor_position p position w)
  | S k' => get_motor_encoder p (time_sleep (1 # 100) (poll p position k' w).2)
  end.

(** The [k]-th reading of [run_to_position(port, position)] called on
    [self], where [p] is the port, and the object after that reading. *)
Definition reading (p : Port) (position : Q) (self : BricKuberLib W)
    (k : nat) : Z :=
  (poll p position k (BP self)).1.

Definition polled (p : Port) (position : Q) (self : BricKuberLib W)
    (k : nat) : BricKuberLib W :=
  with_BP (poll p position k (BP self)).2 self.


Definition grip_positions (self : BricKuberLib W) : list Z :=
  [MOTOR_GRAB_POSITION_HOME self; MOTOR_GRAB_POSITION_REST self;
   MOTOR_GRAB_POSITION_FLIP_PUSH self; MOTOR_GRAB_POSITION_GRAB self;
   MOTOR_GRAB_POSITION_FLIP self].


End Specification.

(** ** A test bench

    A deterministic rig to run the library on: each encoder read lets the
    motor move once, by at most [slew] counts toward its position target, or
    by its power toward the mechanical stop. *)

Inductive Drive : Type :=
  | Idle
  | Power (power : Z)
  | Position (goal : Z).

Record Motor : Type := {
  raw : Z;        (* where the shaft is *)
  zero : Z;       (* the encoder offset *)
  drive : Drive;
  slew : Z;       (* counts per read under position control *)
  stop : Z        (* the mechanical limit under power *)
}.

Record Bench : Type := {
  motor_A : Motor;
  motor_B : Motor;
  motor_C : Motor;
  motor_D : Motor;
  clock : Q
}.

Definition motor (p : Port) (w : Bench) : Motor :=
  match p with
  | PORT_A => motor_A w
  | PORT_B => motor_B w
  | PORT_C => motor_C w
  | PORT_D => motor_D w
  end.

Definition with_motor (p : Port) (m : Motor) (w : Bench) : Bench :=
  match p with
  | PORT_A => {| motor_A := m; motor_B := motor_B w; motor_C := motor_C w;
                 motor_D := motor_D w; clock := clock w |}
  | PORT_B => {| motor_A := motor_A w; motor_B := m; motor_C := motor_C w;
                 motor_D := motor_D w; clock := clock w |}
  | PORT_C => {| motor_A := motor_A w; motor_B := motor_B w; motor_C := m;
                 motor_D := motor_D w; clock := clock w |}
  | PORT_D => {| motor_A := motor_A w; motor_B := motor_B w;
                 motor_C := motor_C w; motor_D := m; clock := clock w |}
  end.

Definition with_drive (d : Drive) (m : Motor) : Motor :=
  {| raw := raw m; zero := zero m; drive := d; slew := slew m;
     stop := stop m |}.

Definition with_raw (r : Z) (m : Motor) : Motor :=
  {| raw := r; zero := zero m; drive := drive m; slew := slew m;
     stop := stop m |}.

Definition with_zero (z : Z) (m : Motor) : Motor :=
  {| raw := raw m; zero := z; drive := drive m; slew := slew m;
     stop := stop m |}.

(** One movement of the shaft. *)
Definition advance (m : Motor) : Motor :=
  match drive m with
  | Idle => m
  | Power power => with_raw (Z.min (stop m) (raw m + power)) m
  | Position goal =>
      let want := goal + zero m in
      if raw m + slew m <? want then with_raw (raw m + slew m) m
      else if want <? raw m - slew m then with_raw (raw m - slew m) m
      else with_raw want m
  end.

(** The integer a rational position is sent as: toward zero. *)
Definition Qtrunc (q : Q) : Z :=
  if Qle_bool 0 q then Qfloor q else Qceiling q.

#[export] Instance Bench_Rig : Rig Bench := {|
  set_motor_power p power w :=
    with_motor p (with_drive (Power power) (motor p w)) w;
  set_motor_position p position w :=
    with_motor p (with_drive (Position (Qtrunc position)) (motor p w)) w;
  set_motor_limits p power dps w := w;
  get_motor_encoder p w :=
    let m := advance (motor p w) in (raw m - zero m, with_motor p m w);
  offset_motor_encoder p position w :=
    with_motor p (with_zero (zero (motor p w) + position) (motor p w)) w;
  time_sleep d w :=
    {| motor_A := motor_A w; motor_B := motor_B w; motor_C := motor_C w;
       motor_D := motor_D w; clock := Qred (clock w + d) |}
|}.

(** A motor at rest that moves [slew] counts per read. *)
Definition motor_at_rest (slew : Z) : Motor :=
  {| raw := 0; zero := 0; drive := Idle; slew := slew; stop := 60 |}.

(** The bench as switched on, and the same bench with the turntable jammed. *)
Definition bench : Bench :=
  {| motor_A := motor_at_rest 70; motor_B := motor_at_rest 70;
     motor_C := motor_at_rest 70; motor_D := motor_at_rest 50; clock := 0 |}.

Definition jammed_bench : Bench :=
  {| motor_A := motor_at_rest 0; motor_B := motor_at_rest 70;
     motor_C := motor_at_rest 70; motor_D := motor_at_rest 50; clock := 0 |}.

(** The bench after homing, and the object [BricKuberLib("NXT1")] on it. *)
Definition homed_bench : Bench :=
  {| motor_A := {| raw := 0; zero := 0; drive := Position 0; slew := 70;
                   stop := 60 |};
     motor_B := motor_at_rest 70;
     motor_C := motor_at_rest 70;
     motor_D := {| raw := 60; zero := 35; drive := Position (-35); slew := 50;
                   stop := 60 |};
     clock := 2 # 5 |}.

Definition robot_on (w : Bench) : BricKuberLib Bench :=
  {| debug := false;
     TurnTablePinion := 24;
     TurnTableGear := 56;
     MOTOR_GRAB_POSITION_HOME := 0;
     MOTOR_GRAB_POSITION_REST := -35;
     MOTOR_GRAB_POSITION_FLIP_PUSH := -90;
     MOTOR_GRAB_POSITION_GRAB := -130;
     MOTOR_GRAB_POSITION_FLIP := -240;
     MOTOR_GRAB_SPEED_GRAB := 400;
     MOTOR_GRAB_SPEED_FLIP := 600;
     MOTOR_GRAB_SPEED_REST := 400;
     TurnTableTarget := 0;
     CCO := CCO_initial;
     BP := w |}.

Definition bench_robot : BricKuberLib Bench := robot_on homed_bench.

(** The same object with the turntable jammed. *)
Definition jammed_robot : BricKuberLib Bench := robot_on jammed_bench.

(** The bench with the turntable far out, 74 counts beyond [2 ^ 53], and
    the object on it. *)
Definition far_bench : Bench :=
  {| motor_A := {| raw := 2 ^ 53 + 74; zero := 0; drive := Idle; slew := 70;
                   stop := 60 |};
     motor_B := motor_at_rest 70;
     motor_C := motor_at_rest 70;
     motor_D := motor_at_rest 50;
     clock := 0 |}.

Definition far_robot : BricKuberLib Bench := robot_on far_bench.

(** ** An ideal rig

    Every motor stands at its commanded position at the next read. *)

Record Ideal : Type := { shaft : Port -> Z }.

Definition Port_eqb (p q : Port) : bool :=
  match p, q with
  | PORT_A, PORT_A | PORT_B, PORT_B | PORT_C, PORT_C | PORT_D, PORT_D => true
  | _, _ => false
  end.

Definition turn_shaft (p : Port) (v : Z) (w : Ideal) : Ideal :=
  {| shaft := fun q => if Port_eqb p q then v else shaft w q |}.

#[export] Instance Ideal_Rig : Rig Ideal := {|
  set_motor_power p power w := w;
  set_motor_position p position w := turn_shaft p (Qtrunc position) w;
  set_motor_limits p power dps w := w;
  get_motor_encoder p w := (shaft w p, w);
  offset_motor_encoder p position w := turn_shaft p (shaft w p - position) w;
  time_sleep d w := w
|}.

Definition ideal_robot : BricKuberLib Ideal :=
  {| debug := false;
     TurnTablePinion := 12;
     TurnTableGear := 36;
     MOTOR_GRAB_POSITION_HOME := 0;
     MOTOR_GRAB_POSITION_REST := -35;
     MOTOR_GRAB_POSITION_FLIP_PUSH := -90;
     MOTOR_GRAB_POSITION_GRAB := -130;
     MOTOR_GRAB_POSITION_FLIP := -240;
     MOTOR_GRAB_SPEED_GRAB := 400;
     MOTOR_GRAB_SPEED_FLIP := 600;
     MOTOR_GRAB_SPEED_REST := 400;
     TurnTableTarget := 0;
     CCO := [5; 1; 0];
     BP := {| shaft := fun _ => 0 |} |}.

(** ** The bookkeeping of moves, and homing *)

(** The degrees by which a list of actions spins the turntable. *)
Definition spin_degrees (actions : list Action) : Z :=
  foldr (fun a acc => match a with Spin deg => deg + acc | _ => acc end)
    0 actions.

(** The bookkeeping of [Move] on its own: the orientation triple and the
    cumulative target a completed [Move(cmd)] leaves. *)
Definition plan_Move (cmd : string) (cco : list Z) (target : Z)
    : option (list Z * Z) :=
  match FaceToTurn cmd, cco with
  | Some f, [U; F; R] =>
      match branch f U F R with
      | Some t =>
          Some (reoriented t U F R,
                target - spin_degrees (reorientation t)
                - DegreesToTurnFace cmd)
      | None => Some (cco, target - DegreesToTurnFace cmd)
      end
  | _, _ => None
  end.

(** How far a list of actions can take the cumulative target. *)
Definition swing (actions : list Action) : Z :=
  foldr (fun a acc => match a with Spin deg => Z.abs deg + acc | _ => acc end)
    0 actions.

(** How far a move can take the cumulative target from where it was: by
    180 for the reorientation, 180 for the face turn and 22 of overshoot. *)
Definition reach : Z := 382.

(** The same for a list of tokens, in order. *)
Fixpoint plan_Moves (cmds : list string) (cco : list Z) (target : Z)
    : option (list Z * Z) :=
  match cmds with
  | [] => Some (cco, target)
  | cmd :: rest =>
      match plan_Move cmd cco target with
      | Some (cco', target') => plan_Moves rest cco' target'
      | None => None
      end
  end.

Section HomingNotions.
Context {W : Type} `{Rig W}.

(** The [k]-th reading of the encoder of port [p] during homing, with the
    rig after it: power 15 is applied and the encoder read, then each further
    reading follows a sleep of 100 ms. *)
Fixpoint homing_poll (p : Port) (k : nat) (w : W) : Z * W :=
  match k with
  | O => get_motor_encoder p (set_motor_power p 15 w)
  | S k' => get_motor_encoder p (time_sleep (1 # 10) (homing_poll p k' w).2)
  end.

Definition homing_reading (self : BricKuberLib W) (k : nat) : Z :=
  (homing_poll PORT_D k (BP self)).1.

(** The object when [home_all] has seen the grip stall at reading [k], has
    set the two encoder offsets and the cumulative target, and is about to
    call [spin(0)]. *)
Definition homed (self : BricKuberLib W) (k : nat) : BricKuberLib W :=
  let '(EncoderNow, w) := homing_poll PORT_D k (BP self) in
  let w := offset_motor_encoder PORT_D (EncoderNow - 25) w in
  let w := set_motor_position PORT_D
             (inject_Z (MOTOR_GRAB_POSITION_REST self)) w in
  let '(encoder, w) := get_motor_encoder PORT_A w in
  let w := offset_motor_encoder PORT_A encoder w in
  with_TurnTableTarget 0 (with_BP w self).

(** [m] raises only for want of a pinion, and leaves the pinion alone. *)
Definition needs_pinion {A : Type} (m : M W A) : Prop :=
  keeps TurnTablePinion m
  /\ forall self e self', m self = Raise e self' ->
       e = ZeroDivisionError /\ TurnTablePinion self = 0.

End HomingNotions.

(** ** Reading the cube *)

(** [s.split(sep)] for a separator that is not empty: the pieces of [s]
    between the occurrences of [sep], found from the left; [skip] counts the
    characters of a separator still to pass, [word] is the piece read so
    far. *)
Fixpoint split_at (sep : string) (skip : nat) (s word : string)
    : list string :=
  match s with
  | EmptyString => [word]
  | String c s' =>
      match skip with
      | S skip' => split_at sep skip' s' word
      | O =>
          if String.prefix sep s
          then word :: split_at sep (String.length sep - 1) s' ""
          else split_at sep 0 s' (word +:+ String c "")
      end
  end.

Definition str_split (s sep : string) : list string := split_at sep 0 s "".

(** [range(n)] *)
Definition range (n : nat) : list nat := seq 0 n.

(** The line feed and the double quote, as strings. *)
Definition LF : string := String "010" "".
Definition DQUOTE : string := String "034" "".

(** [CameraReadFaceColors], lines 243-254: the facelet numbers of a face;
    [None] when no branch assigns the local variable. *)
Definition numbers_of (face : string) : option (list Z) :=
  if String.eqb face "front" then Some [19; 20; 21; 22; 23; 24; 25; 26; 27]
  else if String.eqb face "right" then Some [36; 35; 34; 33; 32; 31; 30; 29; 28]
  else if String.eqb face "back" then Some [43; 40; 37; 44; 41; 38; 45; 42; 39]
  else if String.eqb face "left" then Some [16; 13; 10; 17; 14; 11; 18; 15; 12]
  else if String.eqb face "top" then Some [1; 2; 3; 4; 5; 6; 7; 8; 9]
  else if String.eqb face "bottom" then
    Some [46; 47; 48; 49; 50; 51; 52; 53; 54]
  else None.

(** The class attribute [rgb_values = [[0, 0, 0] for c in range(54)]]. *)
Definition rgb_values_initial : list (list Z) := replicate 54 [0; 0; 0].

(** The position in a list of [n] items that the subscript [i] means:
    negative subscripts count from the end. *)
Definition subscript (n : nat) (i : Z) : option nat :=
  if (0 <=? i) && (i <? Z.of_nat n) then Some (Z.to_nat i)
  else if (i <? 0) && (- Z.of_nat n <=? i) then Some (Z.to_nat (Z.of_nat n + i))
  else None.

(** Modelled from the spec: the external collaborators of section 6 and
    the conversions of the language, which the library calls and does not
    define: [commands.getstatusoutput] runs a shell command and gives its
    status and output, [print] writes a line, [int] reads an integer from a
    string ([None] for [ValueError]) and [percent_d] is ['%d' % n]. *)
Class Host (W : Type) : Type := {
  getstatusoutput : string -> W -> (Z * string) * W;
  print : string -> W -> W;
  int : string -> option Z;
  percent_d : Z -> string
}.

Section Scanning.
Context {W : Type} `{Rig W} `{Host W}.

(** The object together with the class attribute [rgb_values]. *)
Record Scanner : Type := {
  lib : BricKuberLib W;
  rgb_values : list (list Z)
}.

Definition with_lib (l : BricKuberLib W) (s : Scanner) : Scanner :=
  {| lib := l; rgb_values := rgb_values s |}.

Definition with_rgb_values (v : list (list Z)) (s : Scanner) : Scanner :=
  {| lib := lib s; rgb_values := v |}.

Definition MS (A : Type) : Type := Scanner -> outcome Scanner A.

#[export] Instance MS_ret : MRet MS := fun A a s => Done a s.

#[export] Instance MS_bind : MBind MS := fun A B k m s =>
  match m s with
  | Done a s' => k a s'
  | Raise e s' => Raise e s'
  | Blocked => Blocked
  end.

Definition raiseS {A : Type} (e : exn) : MS A := fun s => Raise e s.

(** A method of the motor layer, called on the object. *)
Definition on_lib {A : Type} (m : M W A) : MS A := fun s =>
  match m (lib s) with
  | Done a l => Done a (with_lib l s)
  | Raise e l => Raise e (with_lib l s)
  | Blocked => Blocked
  end.

(** [commands.getstatusoutput(cmd)] *)
Definition shell (cmd : string) : MS (Z * string) := fun s =>
  let '(r, w) := getstatusoutput cmd (BP (lib s)) in
  Done r (with_lib (with_BP w (lib s)) s).

(** [print(str)] *)
Definition print_line (str : string) : MS unit := fun s =>
  Done tt (with_lib (with_BP (print str (BP (lib s))) (lib s)) s).

(** [l[i]] for a position that is not negative. *)
Definition item {A : Type} (l : list A) (i : nat) : MS A :=
  match l !! i with
  | Some x => mret x
  | None => raiseS IndexError
  end.

(** [l[i]] for an integer subscript. *)
Definition item_at {A : Type} (l : list A) (i : Z) : MS (nat * A) :=
  match subscript (length l) i with
  | Some n => x ← item l n ; mret (n, x)
  | None => raiseS IndexError
  end.

(** [int(x)] *)
Definition int_of (x : string) : MS Z :=
  match int x with
  | Some n => mret n
  | None => raiseS (ValueError "invalid literal for int()")
  end.

(** Read a local variable of [CameraReadFaceColors]. *)
Definition localS {A : Type} (name : string) (v : option A) : MS A :=
  match v with
  | Some a => mret a
  | None => raiseS (UnboundLocalError name)
  end.

(** [self.rgb_values[i][v] = n], the value [n] being evaluated before. *)
Definition rgb_values_setitem (i : Z) (v : nat) (n : Z) : MS unit := fun s =>
  match subscript (length (rgb_values s)) i with
  | Some k =>
      match rgb_values s !! k with
      | Some row =>
          if (v <? length row)%nat
          then Done tt (with_rgb_values
                          (<[k := <[v := n]> row]> (rgb_values s)) s)
          else Raise IndexError s
      | None => Raise IndexError s
      end
  | None => Raise IndexError s
  end.

(** Lines 240-241: [raw_results[c] = raw_results[c].split("]")[0]] for [c]
    in [cs]. *)
Fixpoint strip_groups (cs : list nat) (raw_results : list string)
    : MS (list string) :=
  match cs with
  | [] => mret raw_results
  | c :: cs' =>
      x ← item raw_results c ;
      y ← item (str_split x "]") 0 ;
      strip_groups cs' (<[c := y]> raw_results)
  end.

(** Lines 258-259: the inner loop over [v]. *)
Fixpoint store_values (vs : list nat) (numbers : option (list Z)) (c : nat)
    (vals : list string) : MS unit :=
  match vs with
  | [] => mret tt
  | v :: vs' =>
      x ← item vals v ;
      n ← int_of x ;
      numbers' ← localS "numbers" numbers ;
      k ← item numbers' c ;
      rgb_values_setitem (k - 1) v n ;;
      store_values vs' numbers c vals
  end.

(** Lines 256-259: the loop over [c]. *)
Fixpoint store_groups (cs : list nat) (numbers : option (list Z))
    (raw_results : list string) : MS unit :=
  match cs with
  | [] => mret tt
  | c :: cs' =>
      x ← item raw_results c ;
      let vals := str_split x ", " in
      store_values (range 3) numbers c vals ;;
      store_groups cs' numbers raw_results
  end.

(** Use the camera to read the RGB colors for each of the 9 squares on the
    face *)
Definition CameraReadFaceColors (face : string) : MS unit :=
  shell ("raspistill -w 300 -h 300 -t 1 -o /tmp/BricKuber_" +:+ face
         +:+ "_face.jpg") ;;
  r ← shell ("rubiks-cube-tracker.py --filename /tmp/BricKuber_" +:+ face
             +:+ "_face.jpg") ;
  let raw_result := r.2 in
  raw_result ← item (str_split raw_result (LF +:+ "{")) 1 ;
  raw_result ← item (str_split raw_result "}") 0 ;
  let raw_results := drop 1 (str_split raw_result "[") in
  raw_results ← strip_groups (range 9) raw_results ;
  let numbers := numbers_of face in
  store_groups (range 9) numbers raw_results.

(** [self.rgb_values[c][v]] *)
Definition rgb_values_getitem (c v : nat) : MS Z := fun s =>
  (row ← item (rgb_values s) c ; item row v) s.

(** Lines 280-285: the entries of the request for the facelets [cs]. *)
Fixpoint request_entries (cs : list nat) (str : string) : MS string :=
  match cs with
  | [] => mret str
  | c :: cs' =>
      r ← rgb_values_getitem c 0 ;
      g ← rgb_values_getitem c 1 ;
      b ← rgb_values_getitem c 2 ;
      let str := str +:+ DQUOTE +:+ percent_d (Z.of_nat c + 1) +:+ DQUOTE
                 +:+ ": [" +:+ percent_d r +:+ ", " +:+ percent_d g +:+ ", "
                 +:+ percent_d b +:+ "]" in
      let str := if (c =? 53)%nat then str +:+ "}'" else str +:+ ", " in
      request_entries cs' str
  end.

(** [self.CCO = v] *)
Definition assign_CCO_S (v : list Z) : MS unit := fun s =>
  Done tt (with_lib (with_CCO v (lib s)) s).

(** [l[-1]] *)
Definition last_item {A : Type} (l : list A) : MS A :=
  x ← item_at l (-1) ; mret x.2.

(** Read the cube colors and return the solver's answer *)
Definition ReadCubeColors (fuel : nat) : MS string :=
  on_lib (release fuel) ;;
  CameraReadFaceColors "top" ;;
  on_lib (flip fuel true) ;;
  CameraReadFaceColors "front" ;;
  on_lib (flip fuel true) ;;
  CameraReadFaceColors "bottom" ;;
  on_lib (spin fuel 90 0) ;;
  on_lib (flip fuel true) ;;
  CameraReadFaceColors "right" ;;
  on_lib (spin fuel (-90) 0) ;;
  on_lib (flip fuel true) ;;
  CameraReadFaceColors "back" ;;
  on_lib (flip fuel true) ;;
  CameraReadFaceColors "left" ;;
  assign_CCO_S [5; 1; 0] ;;
  let str := "'{" in
  str ← request_entries (range 54) str ;
  let str := "rubiks-color-resolver.py --rgb " +:+ str in
  verbose ← on_lib (attr (fun self : BricKuberLib W => debug self)) ;
  (if verbose : bool then print_line str else mret tt) ;;
  r ← shell str ;
  let raw_result := r.2 in
  let raw_result := str_split raw_result LF in
  last_item raw_result.
End Scanning.

Arguments Scanner W : clear implicits.
Arguments MS W A : clear implicits.

(** The colour table has its 54 rows of three values. *)
Definition shaped (v : list (list Z)) : Prop :=
  length v = 54%nat /\ Forall (fun row => length row = 3%nat) v.

(** The value [v[k][j]], if there is one. *)
Definition cell (v : list (list Z)) (k j : nat) : option Z :=
  match v !! k with
  | Some row => row !! j
  | None => None
  end.

(** The state in which a call left the scanner, if it came back. *)
Definition state_after {S A : Type} (o : outcome S A) : option S :=
  match o with
  | Done _ s => Some s
  | Raise _ s => Some s
  | Blocked => None
  end.

(** The rows of the colour table that belong to the facelets [numbers]. *)
Definition rows_of (numbers : list Z) (k : nat) : Prop :=
  exists n, n ∈ numbers /\ subscript 54 (n - 1) = Some k.

(** The rows of the colour table that belong to a face. *)
Definition face_rows (face : string) (k : nat) : Prop :=
  match numbers_of face with
  | Some numbers => rows_of numbers k
  | None => False
  end.

Section ScanningNotions.
Context {W : Type} `{Rig W} `{Host W}.

(** From [s] to [s'] only the rig and the rows [E] of the colour table
    changed, and the table kept its shape. *)
Definition untouched (E : nat -> Prop) (s s' : Scanner W) : Prop :=
  (exists w, lib s' = with_BP w (lib s))
  /\ shaped (rgb_values s')
  /\ forall k, ~ E k -> rgb_values s' !! k = rgb_values s !! k.

(** [m] changes only the rig and the rows [E] of the colour table,
    whether it returns or raises. *)
Definition writes_only {A : Type} (E : nat -> Prop) (m : MS W A) : Prop :=
  forall s s', shaped (rgb_values s) ->
    state_after (m s) = Some s' -> untouched E s s'.
End ScanningNotions.

(** The faces that [ReadCubeColors] reads, in its order. *)
Definition scanned_faces : list string :=
  ["top"; "front"; "bottom"; "right"; "back"; "left"].

(** Row [k] of the colour table belongs to a facelet of [face]. *)
Definition covers (face : string) (k : nat) : bool :=
  match numbers_of face with
  | Some ns => bool_decide (Z.of_nat k + 1 ∈ ns)
  | None => false
  end.

(** The cells [v[k][j]] that reading [face] stores. *)
Definition face_cells (face : string) (k j : nat) : Prop :=
  exists ns n, numbers_of face = Some ns /\ n ∈ ns
    /\ subscript 54 (n - 1) = Some k /\ (j < 3)%nat.

(** The exceptions of a scan of known faces: a turntable without pinion
    teeth, a turntable position beyond the doubles for a cumulative target
    of at most [bound], or an answer of the tracker that does not have the
    expected groups of numbers.  [teeth] is the pinion and the gear. *)
Definition malformed (e : exn) : Prop :=
  e = IndexError \/ e = ValueError "invalid literal for int()".

Definition scan_failure (teeth : Z * Z) (bound : Z) (e : exn) : Prop :=
  (e = ZeroDivisionError /\ teeth.1 = 0)
  \/ (e = OverflowError /\ teeth.1 <> 0
      /\ float_limit * Z.abs teeth.1 <= bound * Z.abs teeth.2)
  \/ malformed e.

Section ScanningRelations.
Context {W : Type} `{Rig W} `{Host W}.

(** [m] raises only exceptions in [P]. *)
Definition raises_within {A : Type} (P : exn -> Prop) (m : MS W A) : Prop :=
  forall s e s', m s = Raise e s' -> P e.

(** Started where [P] holds, [m] returns where [Q] holds or raises where
    [R] holds; [B] holds if it is blocked. *)
Definition triple {A : Type} (P : Scanner W -> Prop) (m : MS W A)
    (Q : A -> Scanner W -> Prop) (R : exn -> Scanner W -> Prop) (B : Prop)
    : Prop :=
  forall s, P s ->
    match m s with
    | Done a s' => Q a s'
    | Raise e s' => R e s'
    | Blocked => B
    end.

(** During a scan: the orientation triple [c0], the pinion and the gear
    [p0], the turntable target [t], and a colour table of the right
    shape. *)
Definition scan_invariant (c0 : list Z) (p0 : Z * Z) (t : Z) (s : Scanner W)
    : Prop :=
  CCO (lib s) = c0 /\ gearing (lib s) = p0
  /\ TurnTableTarget (lib s) = t /\ shaped (rgb_values s).

Definition scan_failed (c0 : list Z) (p0 : Z * Z) (bound : Z) (e : exn)
    (s : Scanner W) : Prop :=
  CCO (lib s) = c0 /\ shaped (rgb_values s) /\ scan_failure p0 bound e.

(** Two scanners with the same object and colour tables of the right
    shape that agree on the cells [D]. *)
Definition agree (D : nat -> nat -> Prop) (s1 s2 : Scanner W) : Prop :=
  lib s1 = lib s2 /\ shaped (rgb_values s1) /\ shaped (rgb_values s2)
  /\ forall k j, D k j ->
       cell (rgb_values s1) k j = cell (rgb_values s2) k j.

Definition alike {A : Type} (D : nat -> nat -> Prop)
    (o1 o2 : outcome (Scanner W) A) : Prop :=
  match o1, o2 with
  | Done a1 s1, Done a2 s2 => a1 = a2 /\ agree D s1 s2
  | Raise e1 s1, Raise e2 s2 => e1 = e2 /\ agree (fun _ _ => False) s1 s2
  | Blocked, Blocked => True
  | _, _ => False
  end.

(** Run on scanners that agree on the cells [D], [m] does the same on
    both and leaves them agreeing on the cells [D']. *)
Definition blind {A : Type} (D D' : nat -> nat -> Prop) (m : MS W A)
    : Prop :=
  forall s1 s2, agree D s1 s2 -> alike D' (m s1) (m s2).
End ScanningRelations.

Section ScanningSteps.
Context {W : Type} `{Rig W} `{Host W}.

(** [m] leaves the scanner as it is: it returns, or raises within [P]. *)
Definition pure_step {A : Type} (P : exn -> Prop) (m : MS W A) : Prop :=
  forall s, (exists a, m s = Done a s) \/ (exists e, m s = Raise e s /\ P e).

(** [m] leaves the scanner as it is and raises within [P]. *)
Definition pure_failure {A : Type} (P : exn -> Prop) (m : MS W A) : Prop :=
  forall s, exists e, m s = Raise e s /\ P e.
End ScanningSteps.

(** The exceptions of reading a face that has no facelet numbers. *)
Definition unknown_face_failure (e : exn) : Prop :=
  malformed e \/ e = UnboundLocalError "numbers".

(** ** The answer of the tracker *)

(** [c in s] for a character. *)
Fixpoint has (c : ascii) (s : string) : bool :=
  match s with
  | EmptyString => false
  | String d s' => Ascii.eqb c d || has c s'
  end.

(** A piece of text free of the punctuation of the tracker's answer:
    no line feed, brace, bracket or comma. *)
Definition tidy (s : string) : bool :=
  negb (has "010" s) && negb (has "{" s) && negb (has "}" s)
  && negb (has "[" s) && negb (has "]" s) && negb (has "," s).

(** One entry of the answer, [key: [v, v, v]], and the entries in braces
    after some lines of log. *)
Definition entry_text (entry : string * list string) : string :=
  entry.1 +:+ ": [" +:+ String.concat ", " entry.2 +:+ "]".

Definition entries_text (entries : list (string * list string)) : string :=
  String.concat ", " (entry_text <$> entries).

Definition answer_text (log : string) (entries : list (string * list string))
    (rest : string) : string :=
  log +:+ LF +:+ "{" +:+ entries_text entries +:+ "}" +:+ rest.

Definition tidy_entry (entry : string * list string) : Prop :=
  tidy entry.1 = true /\ Forall (fun v => tidy v = true) entry.2.

Section TrackerNotions.
Context {W : Type} `{Host W}.

(** The numbers that the numerals of the entries stand for: three in each
    row. *)
Definition numerals_of (entries : list (string * list string))
    (colours : list (list Z)) : Prop :=
  Forall2 (fun entry row =>
             Forall2 (fun v x => int v = Some x) entry.2 row
             /\ length row = 3%nat) entries colours.

(** Whatever the rig, the tracker answers the picture of [face] with nine
    tidy entries of three numerals, after a log without brace. *)
Definition tracker_answers (face : string) : Prop :=
  forall w : W, exists log entries rest colours,
    (getstatusoutput
       ("rubiks-cube-tracker.py --filename /tmp/BricKuber_" +:+ face
        +:+ "_face.jpg")
       (getstatusoutput
          ("raspistill -w 300 -h 300 -t 1 -o /tmp/BricKuber_" +:+ face
           +:+ "_face.jpg") w).2).1.2
    = answer_text log entries rest
    /\ has "{" log = false
    /\ length entries = 9%nat
    /\ Forall tidy_entry entries
    /\ numerals_of entries colours.
End TrackerNotions.

(** ** A studio

    The ideal rig with a camera that always sees the same face, a tracker
    and a resolver that always give the same answers, and decimal numerals
    for [int] and [%d]. *)

Definition tracker_answer : string :=
  "Analyzing /tmp/BricKuber_face.jpg" +:+ LF
  +:+ "{1: [11, 12, 13], 2: [21, 22, 23], 3: [31, 32, 33], "
  +:+ "4: [41, 42, 43], 5: [51, 52, 53], 6: [61, 62, 63], "
  +:+ "7: [71, 72, 73], 8: [81, 82, 83], 9: [91, 92, 93]}".

Definition resolver_answer : string :=
  "resolving" +:+ LF
  +:+ "UUUUUUUUURRRRRRRRRFFFFFFFFFDDDDDDDDDLLLLLLLLLBBBBBBBBB".

Definition studio_host (W : Type) : Host W := {|
  getstatusoutput cmd w :=
    ((0, if String.prefix "rubiks-cube-tracker.py" cmd then tracker_answer
         else if String.prefix "rubiks-color-resolver.py" cmd
              then resolver_answer
              else ""), w);
  print str w := w;
  int x := option_map Z.of_int (NilZero.int_of_string x);
  percent_d n := NilZero.string_of_int (Z.to_int n)
|}.

#[export] Instance Studio_Host : Host Ideal := studio_host Ideal.

(** The same camera, tracker and resolver on the test bench. *)
#[export] Instance Bench_Host : Host Bench := studio_host Bench.


Definition studio : Scanner Ideal :=
  {| lib := ideal_robot; rgb_values := rgb_values_initial |}.

(** The studio with colours left in the table by an earlier scan. *)
Definition used_studio : Scanner Ideal :=
  {| lib := ideal_robot; rgb_values := replicate 54 [7; 7; 7] |}.

(** An object on the ideal rig whose pinion has no teeth. *)
Definition worn_robot : BricKuberLib Ideal :=
  {| debug := false;
     TurnTablePinion := 0;
     TurnTableGear := 36;
     MOTOR_GRAB_POSITION_HOME := 0;
     MOTOR_GRAB_POSITION_REST := -35;
     MOTOR_GRAB_POSITION_FLIP_PUSH := -90;
     MOTOR_GRAB_POSITION_GRAB := -130;
     MOTOR_GRAB_POSITION_FLIP := -240;
     MOTOR_GRAB_SPEED_GRAB := 400;
     MOTOR_GRAB_SPEED_FLIP := 600;
     MOTOR_GRAB_SPEED_REST := 400;
     TurnTableTarget := 0;
     CCO := [0; 1; 2];
     BP := {| shaft := fun _ => 0 |} |}.

(** The entries of the tracker's answer in the studio, and the colours
    they stand for. *)
Definition studio_entries : list (string * list string) :=
  [("1", ["11"; "12"; "13"]); ("2", ["21"; "22"; "23"]);
   ("3", ["31"; "32"; "33"]); ("4", ["41"; "42"; "43"]);
   ("5", ["51"; "52"; "53"]); ("6", ["61"; "62"; "63"]);
   ("7", ["71"; "72"; "73"]); ("8", ["81"; "82"; "83"]);
   ("9", ["91"; "92"; "93"])].

Definition studio_colours : list (list Z) :=
  [[11; 12; 13]; [21; 22; 23]; [31; 32; 33]; [41; 42; 43]; [51; 52; 53];
   [61; 62; 63]; [71; 72; 73]; [81; 82; 83]; [91; 92; 93]].

(** * Properties *)

(** ** The opposite-face function *)

(** C5: for every face value [f] in 0..5, [OF f = (f + 3) mod 6],
    [OF (OF f) = f] and [OF f <> f]. *)
Theorem OF_opposite (f : Z) :
  0 <= f < 6 ->
  OF f = (f + 3) mod 6 /\ OF (OF f) = f /\ OF f <> f.
Proof.
  intros Hf. unfold OF.
  assert (Hcases : f = 0 \/ f = 1 \/ f = 2 \/ f = 3 \/ f = 4 \/ f = 5) by lia.
  destruct Hcases as [-> | [-> | [-> | [-> | [-> | ->]]]]]; cbn;
    repeat split; lia.
Qed.

Lemma OF_opposite_witness :
  OF 4 = (4 + 3) mod 6 /\ OF (OF 4) = 4 /\ OF 4 <> 4.
Proof. apply (OF_opposite 4). lia. Defined.

(** ** Parsing a move token *)

Lemma prefix_char (c : ascii) (b : ascii) (s : string) :
  String.prefix (String c EmptyString) (String b s) = Ascii.eqb c b.
Proof.
  cbn. destruct (ascii_dec c b) as [-> | Hne].
  - rewrite Ascii.eqb_refl. now destruct s.
  - symmetry. now apply Ascii.eqb_neq.
Qed.

Lemma index_char (c : ascii) (s : string) :
  String.index 0 (String c EmptyString) s = None <-> contains c s = false.
Proof.
  unfold contains. induction s as [| b s IH].
  - cbn. tauto.
  - cbn [String.index String.list_ascii_of_string existsb].
    rewrite prefix_char. destruct (Ascii.eqb c b); cbn [orb].
    + split; discriminate.
    + destruct (String.index 0 (String c EmptyString) s).
      * split; [discriminate |]. intros Hc. apply IH in Hc. discriminate.
      * split; [| reflexivity]. intros _. now apply IH.
Qed.

(** [cmd.find(c) != -1] says that [cmd] contains the character [c]. *)
Lemma find_char (c : ascii) (cmd : string) :
  negb (find cmd (String c EmptyString) =? -1) = contains c cmd.
Proof.
  unfold find. destruct (contains c cmd) eqn:Hc.
  - destruct (String.index 0 (String c EmptyString) cmd) as [i |] eqn:Hi.
    + apply negb_true_iff, Z.eqb_neq. lia.
    + apply index_char in Hi. congruence.
  - apply index_char in Hc. now rewrite Hc.
Qed.

(** C4: the degrees of a token are 90 when it contains ['], otherwise -180
    when it contains [2], otherwise -90; the face is the position in
    U, F, R, D, B, L of the first of these letters, in that order, that the
    token contains. *)
Theorem Move_parses_token (cmd : string) :
  DegreesToTurnFace cmd = token_degrees cmd
  /\ FaceToTurn cmd = token_face cmd
  /\ (contains "'" cmd = true -> contains "2" cmd = true ->
      DegreesToTurnFace cmd = 90).
Proof.
  unfold DegreesToTurnFace, FaceToTurn, token_degrees, token_face, face_letters.
  rewrite !find_char. cbn [first_position]. split; [reflexivity |]. split.
  - repeat match goal with
           | |- context [if contains ?c cmd then _ else _] =>
               destruct (contains c cmd)
           end; reflexivity.
  - intros -> _. reflexivity.
Qed.

Lemma Move_parses_token_witness :
  DegreesToTurnFace "U2'" = token_degrees "U2'"
  /\ FaceToTurn "U2'" = Some 0
  /\ DegreesToTurnFace "U2'" = 90.
Proof.
  pose proof (Move_parses_token "U2'") as (Hd & Hf & Hboth).
  split; [exact Hd |]. split; [rewrite Hf; reflexivity |].
  apply Hboth; reflexivity.
Defined.

(** ** Numbers *)

Lemma bounded_bounds position tolerance :
  bounded position tolerance <->
  exists low high,
    sub position tolerance = Some low /\ add position tolerance = Some high.
Proof.
  destruct position as [n | x]; cbn [bounded sub add].
  - split; [intros _; eauto | trivial].
  - unfold float_of_int. destruct (huge (inject_Z tolerance)).
    + split; [discriminate | intros (low & high & [=] & _)].
    + split; [intros _; eauto | reflexivity].
Qed.

Lemma settled_bounded encoder position tolerance :
  settled encoder position tolerance -> bounded position tolerance.
Proof.
  intros (low & high & Hlow & Hhigh & _). apply bounded_bounds. eauto.
Qed.

Lemma gt_at_most n b : gt n b = false <-> at_most n b.
Proof.
  destruct b as [x | |]; cbn [gt at_most]; unfold Qltb;
    rewrite ?negb_false_iff, ?Qle_bool_iff; intuition discriminate.
Qed.

Lemma lt_at_least n b : lt n b = false <-> at_least b n.
Proof.
  destruct b as [x | |]; cbn [lt at_least]; unfold Qltb;
    rewrite ?negb_false_iff, ?Qle_bool_iff; intuition discriminate.
Qed.

(** For an [int] position the bounds are exact. *)
Lemma settled_Int encoder n tolerance :
  settled encoder (Int n) tolerance <-> within encoder (inject_Z n) tolerance.
Proof.
  unfold settled, within. cbn [sub add]. split.
  - intros (low & high & [= <-] & [= <-] & Hlow & Hhigh).
    cbn [at_least at_most] in Hlow, Hhigh. revert Hlow Hhigh.
    unfold Z.sub. rewrite !inject_Z_plus, inject_Z_opp. intros. split; lra.
  - intros [Hlow Hhigh]. eexists _, _. do 2 (split; [reflexivity |]).
    cbn [at_least at_most]. unfold Z.sub.
    rewrite !inject_Z_plus, inject_Z_opp. split; lra.
Qed.

(** *** Overflow *)

Lemma Qabs_inject_Z a : Qabs (inject_Z a) = inject_Z (Z.abs a).
Proof. reflexivity. Qed.

Lemma Qle_quotient (l a b : Z) :
  0 < b -> (inject_Z l <= inject_Z a / inject_Z b)%Q <-> l * b <= a.
Proof.
  intros Hb. unfold Qle, Qdiv, Qmult, Qinv, inject_Z. cbn [Qnum Qden].
  destruct b as [| b | b]; try lia. cbn [Qnum Qden]. lia.
Qed.

Lemma huge_quotient a b :
  b <> 0 ->
  huge (inject_Z a / inject_Z b) = true <-> float_limit * Z.abs b <= Z.abs a.
Proof.
  intros Hb. unfold huge. rewrite Qle_bool_iff.
  unfold Qdiv. rewrite Qabs_Qmult, Qabs_Qinv, !Qabs_inject_Z.
  apply Qle_quotient. lia.
Qed.

(** *** Rounding *)

Lemma round_half_even_error q :
  (Qabs (inject_Z (round_half_even q) - q) <= 1 # 2)%Q.
Proof.
  unfold round_half_even.
  pose proof (Qfloor_le q) as Hlow. pose proof (Qlt_floor q) as Hhigh.
  rewrite inject_Z_plus in Hhigh. change (inject_Z 1) with 1%Q in Hhigh.
  apply Qabs_Qle_condition.
  destruct (q - inject_Z (Qfloor q) ?= 1 # 2)%Q eqn:E.
  - apply Qeq_alt in E.
    destruct (Z.even (Qfloor q)); rewrite ?inject_Z_plus;
      change (inject_Z 1) with 1%Q; split; lra.
  - apply Qlt_alt in E. split; lra.
  - apply Qgt_alt in E. rewrite inject_Z_plus.
    change (inject_Z 1) with 1%Q. split; lra.
Qed.

Lemma pow2_pos n : (0 < pow2 n)%Q.
Proof.
  unfold pow2. destruct (0 <=? n) eqn:E.
  - change 0%Q with (inject_Z 0). rewrite <- Zlt_Qlt.
    apply Z.pow_pos_nonneg; lia.
  - reflexivity.
Qed.

Lemma ulp_pos q : (0 < ulp q)%Q.
Proof. apply pow2_pos. Qed.

Lemma double_error q : (Qabs (double q - q) <= ulp q * (1 # 2))%Q.
Proof.
  unfold double. pose proof (ulp_pos q) as Hu.
  destruct (Qeq_bool q 0) eqn:E.
  - apply Qeq_bool_iff in E. apply Qabs_Qle_condition. split; lra.
  - rewrite Qred_correct.
    pose proof (round_half_even_error (q / ulp q)) as Hr.
    apply Qabs_Qle_condition in Hr. destruct Hr as [Hr1 Hr2].
    set (r := inject_Z (round_half_even (q / ulp q))) in *.
    assert (Hq : (q == q / ulp q * ulp q)%Q) by (field; lra).
    apply Qabs_Qle_condition.
    set (d := (q / ulp q)%Q) in *.
    split; nra.
Qed.

Lemma pow2_mono m n : m <= n -> (pow2 m <= pow2 n)%Q.
Proof.
  intros Hmn. unfold pow2.
  destruct (Z.leb_spec 0 m), (Z.leb_spec 0 n); try lia.
  - rewrite <- Zle_Qle. apply Z.pow_le_mono_r; lia.
  - unfold Qle, inject_Z. cbn [Qnum Qden].
    assert (0 < 2 ^ (- m)) by (apply Z.pow_pos_nonneg; lia).
    assert (0 < 2 ^ n) by (apply Z.pow_pos_nonneg; lia).
    rewrite Z2Pos.id by lia. nia.
  - unfold Qle. cbn [Qnum Qden].
    assert (0 < 2 ^ (- m)) by (apply Z.pow_pos_nonneg; lia).
    assert (0 < 2 ^ (- n)) by (apply Z.pow_pos_nonneg; lia).
    rewrite !Z2Pos.id by lia.
    assert (2 ^ (- n) <= 2 ^ (- m)) by (apply Z.pow_le_mono_r; lia). lia.
Qed.

(** [floor_log2] is not above the logarithm. *)
Lemma floor_log2_le q : ~ (q == 0)%Q -> (pow2 (floor_log2 q) <= Qabs q)%Q.
Proof.
  intros Hq. unfold floor_log2.
  set (n := Z.log2 (Z.abs (Qnum q)) - Z.log2 (Z.pos (Qden q))).
  destruct (Qle_bool (pow2 n) (Qabs q)) eqn:E; [now apply Qle_bool_iff |].
  destruct q as [a b]. unfold Qeq in Hq. cbn [Qnum Qden] in *.
  assert (Ha : 0 < Z.abs a) by lia.
  pose proof (Z.log2_spec (Z.abs a) Ha) as [Hla _].
  pose proof (Z.log2_spec (Z.pos b) (Pos2Z.is_pos b)) as [_ Hlb].
  pose proof (Z.log2_nonneg (Z.abs a)) as Hna.
  pose proof (Z.log2_nonneg (Z.pos b)) as Hnb.
  set (la := Z.log2 (Z.abs a)) in *. set (lb := Z.log2 (Z.pos b)) in *.
  unfold pow2, Qle. cbn [Qabs Qnum Qden].
  destruct (Z.leb_spec 0 (n - 1)) as [Hk | Hk]; cbn [inject_Z Qnum Qden].
  - assert (Hsplit : 2 ^ la = 2 ^ (n - 1) * 2 ^ (Z.succ lb)).
    { rewrite <- Z.pow_add_r by lia. f_equal. lia. }
    assert (0 < 2 ^ (n - 1)) by (apply Z.pow_pos_nonneg; lia).
    nia.
  - assert (0 < 2 ^ (- (n - 1))) by (apply Z.pow_pos_nonneg; lia).
    rewrite Z2Pos.id by lia.
    assert (Hsplit : 2 ^ (Z.succ lb) = 2 ^ la * 2 ^ (- (n - 1))).
    { rewrite <- Z.pow_add_r by lia. f_equal. lia. }
    nia.
Qed.

Lemma floor_log2_zero q : (q == 0)%Q -> floor_log2 q <= 0.
Proof.
  intros Hq. unfold floor_log2. destruct q as [a b].
  unfold Qeq in Hq. cbn [Qnum Qden] in *. assert (a = 0) as -> by lia.
  change (Z.log2 (Z.abs 0)) with 0.
  pose proof (Z.log2_nonneg (Z.pos b)). cbv zeta.
  destruct (Qle_bool _ _); lia.
Qed.

(** Below [2 ^ 53] the doubles are at most 1 apart. *)
Lemma ulp_le_1 q : (Qabs q < inject_Z (2 ^ 53))%Q -> (ulp q <= 1)%Q.
Proof.
  intros Hq. assert (Hfl : floor_log2 q <= 52).
  { destruct (Qeq_dec q 0) as [Hz | Hnz].
    - pose proof (floor_log2_zero q Hz). lia.
    - pose proof (floor_log2_le q Hnz) as Hle.
      destruct (Z.le_gt_cases (floor_log2 q) 52) as [| Hgt]; [assumption |].
      pose proof (pow2_mono 53 (floor_log2 q) ltac:(lia)) as Hmono.
      change (pow2 53) with (inject_Z (2 ^ 53)) in Hmono. lra. }
  unfold ulp. change 1%Q with (pow2 0). apply pow2_mono. lia.
Qed.

(** Below [2 ^ 53] rounding moves a number by at most a half. *)
Lemma double_close q :
  (Qabs q < inject_Z (2 ^ 53))%Q -> (Qabs (double q - q) <= 1 # 2)%Q.
Proof.
  intros Hq. pose proof (double_error q) as He.
  pose proof (ulp_le_1 q Hq) as Hu. lra.
Qed.

Lemma huge_small q : (Qabs q < inject_Z (2 ^ 53))%Q -> huge q = false.
Proof.
  intros Hq. unfold huge, Qle_bool.
  destruct (Qle_bool (inject_Z float_limit) (Qabs q)) eqn:E; [| exact E].
  apply Qle_bool_iff in E.
  assert (Hl : (inject_Z (2 ^ 53) <= inject_Z float_limit)%Q).
  { rewrite <- Zle_Qle. vm_compute. discriminate. }
  lra.
Qed.

(** Around a [float] position below [2 ^ 53 - 3] the computed bounds of
    tolerance 3 are within a half of the exact ones. *)
Lemma settled_Float_close x encoder :
  (Qabs x + 3 < inject_Z (2 ^ 53))%Q ->
  settled encoder (Float x) 3 ->
  (x - (7 # 2) <= inject_Z encoder)%Q /\ (inject_Z encoder <= x + (7 # 2))%Q.
Proof.
  intros Hx (low & high & Hlow & Hhigh & Hleast & Hmost).
  cbn [sub add] in Hlow, Hhigh.
  change (float_of_int 3) with (Some 3%Q) in Hlow, Hhigh.
  injection Hlow as <-. injection Hhigh as <-.
  assert (H3 : (Qabs (x + 3) < inject_Z (2 ^ 53))%Q).
  { eapply Qle_lt_trans; [apply Qabs_triangle |].
    change (Qabs 3) with 3%Q. exact Hx. }
  assert (H3' : (Qabs (x + Qopp 3) < inject_Z (2 ^ 53))%Q).
  { eapply Qle_lt_trans; [apply Qabs_triangle |].
    change (Qabs (Qopp 3)) with 3%Q. exact Hx. }
  unfold float_add in Hleast, Hmost.
  rewrite (huge_small _ H3) in Hmost. rewrite (huge_small _ H3') in Hleast.
  cbn [at_least at_most] in Hleast, Hmost.
  pose proof (double_close _ H3) as Hc. pose proof (double_close _ H3') as Hc'.
  apply Qabs_Qle_condition in Hc, Hc'. split; lra.
Qed.

(** Around the double of a number of at most [2 ^ 52], a settled reading
    is within 4 of the number. *)
Lemma settled_double_close x encoder :
  (Qabs x <= inject_Z (2 ^ 52))%Q ->
  settled encoder (Float (double x)) 3 -> within encoder x 4.
Proof.
  intros Hx Hin.
  change (inject_Z (2 ^ 52)) with (4503599627370496 # 1)%Q in Hx.
  assert (Hx53 : (Qabs x < inject_Z (2 ^ 53))%Q).
  { change (inject_Z (2 ^ 53)) with (9007199254740992 # 1)%Q. lra. }
  pose proof (double_close x Hx53) as Hd.
  apply Qabs_Qle_condition in Hd. apply Qabs_Qle_condition in Hx.
  assert (Hdx : (Qabs (double x) + 3 < inject_Z (2 ^ 53))%Q).
  { change (inject_Z (2 ^ 53)) with (9007199254740992 # 1)%Q.
    assert (Qabs (double x) <= (4503599627370496 # 1) + (1 # 2))%Q
      by (apply Qabs_Qle_condition; split; lra).
    lra. }
  apply (settled_Float_close _ _ Hdx) in Hin. unfold within.
  change (inject_Z 4) with 4%Q. split; lra.
Qed.

(** ** Reasoning about methods *)

(** Evaluate the subscripts [MOTOR_PORTS[MOTOR_GRAB]] and
    [MOTOR_PORTS[MOTOR_TURN]]. *)
Ltac at_MOTOR_PORTS :=
  cbn [MOTOR_PORTS_getitem MOTOR_GRAB MOTOR_TURN MOTOR_PORTS lookup
       list_lookup].

Section Frames.
Context {W : Type} `{Rig W}.

Lemma bind_unfold {A B : Type} (m : M W A) (k : A -> M W B) self :
  (m ≫= k) self =
  match m self with
  | Done a self' => k a self'
  | Raise e self' => Raise e self'
  | Blocked => Blocked
  end.
Proof. reflexivity. Qed.

Lemma with_CCO_same (self : BricKuberLib W) : with_CCO (CCO self) self = self.
Proof. now destruct self. Qed.

(** *** Observations that a method keeps *)

Section Keeps.
Context {X : Type} (get : BricKuberLib W -> X).

Lemma keeps_ret {A : Type} (a : A) : keeps get (mret a).
Proof. intros self self' [= <-]. reflexivity. Qed.

Lemma keeps_raise {A : Type} (e : exn) : keeps get (@raise W A e).
Proof. intros self self' [= <-]. reflexivity. Qed.

Lemma keeps_blocked {A : Type} : keeps get (@blocked W A).
Proof. intros self self' [=]. Qed.

Lemma keeps_bind {A B : Type} (m : M W A) (k : A -> M W B) :
  keeps get m -> (forall a, keeps get (k a)) -> keeps get (m ≫= k).
Proof.
  intros Hm Hk self self'. rewrite bind_unfold.
  destruct (m self) as [a s1 | e s1 |] eqn:E; cbn.
  - intros Hs. rewrite (Hk a s1 self' Hs). apply Hm. now rewrite E.
  - intros [= <-]. apply Hm. now rewrite E.
  - discriminate.
Qed.

Lemma keeps_attr {A : Type} (f : BricKuberLib W -> A) : keeps get (attr f).
Proof. intros self self' [= <-]. reflexivity. Qed.

Lemma keeps_local {A : Type} name (v : option A) : keeps get (local name v).
Proof. destruct v; [apply keeps_ret | apply keeps_raise]. Qed.

Lemma keeps_MOTOR_PORTS_getitem i : keeps get (MOTOR_PORTS_getitem i).
Proof.
  unfold MOTOR_PORTS_getitem.
  destruct (MOTOR_PORTS !! i); [apply keeps_ret | apply keeps_raise].
Qed.

Lemma keeps_truediv a b : keeps get (truediv a b).
Proof.
  unfold truediv. destruct (b =? 0); [apply keeps_raise |].
  destruct (huge _); [apply keeps_raise | apply keeps_ret].
Qed.

Lemma keeps_arith {A : Type} (v : option A) : keeps get (arith v).
Proof. destruct v; [apply keeps_ret | apply keeps_raise]. Qed.

Lemma keeps_out_of_tolerance encoder position tolerance :
  keeps get (out_of_tolerance encoder position tolerance).
Proof.
  unfold out_of_tolerance.
  apply keeps_bind; [apply keeps_arith |]. intros high.
  destruct (gt encoder high); [apply keeps_ret |].
  apply keeps_bind; [apply keeps_arith |]. intros low. apply keeps_ret.
Qed.

Lemma keeps_CCO_getitem i : keeps get (CCO_getitem i).
Proof.
  intros self self'. unfold CCO_getitem.
  destruct (CCO self !! i); intros [= <-]; reflexivity.
Qed.

(** Driver calls change the rig only. *)
Hypothesis get_with_BP : forall w self, get (with_BP w self) = get self.

Lemma keeps_call f : keeps get (call f).
Proof. intros self self' [= <-]. apply get_with_BP. Qed.

Lemma keeps_call_read f : keeps get (call_read f).
Proof.
  intros self self'. unfold call_read.
  destruct (f (BP self)) as [v w]. intros [= <-]. apply get_with_BP.
Qed.

Lemma keeps_run_to_position_loop fuel p position tolerance encoder :
  keeps get (run_to_position_loop fuel p position tolerance encoder).
Proof.
  revert encoder.
  induction fuel as [| fuel IH]; intros encoder; cbn [run_to_position_loop];
    (apply keeps_bind; [apply keeps_out_of_tolerance |]); intros [|];
    auto using keeps_ret, keeps_blocked.
  apply keeps_bind; [apply keeps_call |]. intros _.
  apply keeps_bind; [apply keeps_call_read | auto].
Qed.

Lemma keeps_run_to_position fuel port position tolerance :
  keeps get (run_to_position fuel port position tolerance).
Proof.
  unfold run_to_position.
  apply keeps_bind; [apply keeps_MOTOR_PORTS_getitem |]. intros p.
  apply keeps_bind; [apply keeps_call |]. intros _.
  apply keeps_bind; [apply keeps_call_read |]. intros encoder.
  apply keeps_run_to_position_loop.
Qed.

(** Assignments to the two mutable attributes. *)
Lemma keeps_assign_TurnTableTarget v :
  (forall t self, get (with_TurnTableTarget t self) = get self) ->
  keeps get (assign_TurnTableTarget v).
Proof. intros Hget self self' [= <-]. apply Hget. Qed.

Lemma keeps_CCO_setitem i v :
  (forall c self, get (with_CCO c self) = get self) ->
  keeps get (CCO_setitem i v).
Proof.
  intros Hget self self'. unfold CCO_setitem.
  destruct (i <? length (CCO self))%nat; intros [= <-];
    [apply Hget | reflexivity].
Qed.

End Keeps.

(** One step of a proof that a method keeps an observation: split a
    sequence, or close a primitive. *)
Ltac keeps_step :=
  lazymatch goal with
  | |- keeps _ (mbind _ _) => apply keeps_bind; [| intros ?]
  | |- keeps _ (mret _) => apply keeps_ret
  | |- keeps _ (raise _) => apply keeps_raise
  | |- keeps _ blocked => apply keeps_blocked
  | |- keeps _ (attr _) => apply keeps_attr
  | |- keeps _ (local _ _) => apply keeps_local
  | |- keeps _ (MOTOR_PORTS_getitem _) => apply keeps_MOTOR_PORTS_getitem
  | |- keeps _ (truediv _ _) => apply keeps_truediv
  | |- keeps _ (CCO_getitem _) => apply keeps_CCO_getitem
  | |- keeps _ (CCO_setitem _ _) => apply keeps_CCO_setitem; assumption
  | |- keeps _ (assign_TurnTableTarget _) =>
      apply keeps_assign_TurnTableTarget; assumption
  | |- keeps _ (call _) => apply keeps_call; assumption
  | |- keeps _ (call_read _) => apply keeps_call_read; assumption
  | |- keeps _ (run_to_position _ _ _ _) =>
      apply keeps_run_to_position; assumption
  | |- keeps _ (if ?b then _ else _) => destruct b
  end.

Section KeepsMethods.
Context {X : Type} (get : BricKuberLib W -> X).
Hypothesis get_with_BP : forall w self, get (with_BP w self) = get self.

Lemma keeps_grab fuel : keeps get (grab fuel).
Proof. unfold grab. repeat keeps_step. Qed.

Lemma keeps_release fuel : keeps get (release fuel).
Proof. unfold release. repeat keeps_step. Qed.

Lemma keeps_flip fuel release_after : keeps get (flip fuel release_after).
Proof.
  unfold flip. repeat keeps_step; auto using keeps_grab, keeps_release.
Qed.

Lemma keeps_home_all_loop fuel p EncoderNow EncoderLast :
  keeps get (home_all_loop fuel p EncoderNow EncoderLast).
Proof.
  revert EncoderNow EncoderLast.
  induction fuel as [| fuel IH]; intros EncoderNow EncoderLast; cbn;
    repeat keeps_step; apply IH.
Qed.

Hypothesis get_with_TurnTableTarget :
  forall t self, get (with_TurnTableTarget t self) = get self.

Lemma keeps_spin fuel deg overshoot : keeps get (spin fuel deg overshoot).
Proof. unfold spin, TurnTablePosition. repeat keeps_step. Qed.

Lemma keeps_home_all fuel : keeps get (home_all fuel).
Proof.
  unfold home_all. repeat keeps_step;
    auto using keeps_home_all_loop, keeps_spin.
Qed.


Hypothesis get_with_CCO : forall c self, get (with_CCO c self) = get self.


End KeepsMethods.

(** *** Methods that ignore the orientation triple *)

Lemma ignores_CCO_ret {A : Type} (a : A) : ignores_CCO (mret a : M W A).
Proof. intros v self. reflexivity. Qed.

Lemma ignores_CCO_raise {A : Type} (e : exn) : ignores_CCO (@raise W A e).
Proof. intros v self. reflexivity. Qed.

Lemma ignores_CCO_blocked {A : Type} : ignores_CCO (@blocked W A).
Proof. intros v self. reflexivity. Qed.

Lemma ignores_CCO_bind {A B : Type} (m : M W A) (k : A -> M W B) :
  ignores_CCO m -> (forall a, ignores_CCO (k a)) -> ignores_CCO (m ≫= k).
Proof.
  intros Hm Hk v self. rewrite !bind_unfold, Hm.
  destruct (m self) as [a s1 | e s1 |]; cbn; [apply Hk | reflexivity ..].
Qed.

Lemma ignores_CCO_attr {A : Type} (f : BricKuberLib W -> A) :
  (forall v self, f (with_CCO v self) = f self) -> ignores_CCO (attr f).
Proof. intros Hf v self. unfold attr. now rewrite Hf. Qed.

Lemma ignores_CCO_MOTOR_PORTS_getitem i :
  ignores_CCO (MOTOR_PORTS_getitem (W := W) i).
Proof.
  unfold MOTOR_PORTS_getitem.
  destruct (MOTOR_PORTS !! i);
    [apply ignores_CCO_ret | apply ignores_CCO_raise].
Qed.

Lemma ignores_CCO_truediv a b : ignores_CCO (truediv (W := W) a b).
Proof.
  unfold truediv. destruct (b =? 0); [apply ignores_CCO_raise |].
  destruct (huge _); [apply ignores_CCO_raise | apply ignores_CCO_ret].
Qed.

Lemma ignores_CCO_arith {A : Type} (v : option A) :
  ignores_CCO (arith (W := W) v).
Proof. destruct v; [apply ignores_CCO_ret | apply ignores_CCO_raise]. Qed.

Lemma ignores_CCO_call (f : W -> W) : ignores_CCO (call f).
Proof. intros v self. reflexivity. Qed.

Lemma ignores_CCO_call_read (f : W -> Z * W) : ignores_CCO (call_read f).
Proof.
  intros v self. unfold call_read. cbn.
  destruct (f (BP self)) as [r w]. reflexivity.
Qed.

Lemma ignores_CCO_assign_TurnTableTarget t :
  ignores_CCO (assign_TurnTableTarget (W := W) t).
Proof. intros v self. reflexivity. Qed.

Ltac ignores_step :=
  lazymatch goal with
  | |- ignores_CCO (mbind _ _) => apply ignores_CCO_bind; [| intros ?]
  | |- ignores_CCO (mret _) => apply ignores_CCO_ret
  | |- ignores_CCO (raise _) => apply ignores_CCO_raise
  | |- ignores_CCO (@blocked _ _) => apply ignores_CCO_blocked
  | |- ignores_CCO (attr _) => apply ignores_CCO_attr; intros; reflexivity
  | |- ignores_CCO (MOTOR_PORTS_getitem _) =>
      apply ignores_CCO_MOTOR_PORTS_getitem
  | |- ignores_CCO (truediv _ _) => apply ignores_CCO_truediv
  | |- ignores_CCO (arith _) => apply ignores_CCO_arith
  | |- ignores_CCO (assign_TurnTableTarget _) =>
      apply ignores_CCO_assign_TurnTableTarget
  | |- ignores_CCO (call _) => apply ignores_CCO_call
  | |- ignores_CCO (call_read _) => apply ignores_CCO_call_read
  | |- ignores_CCO (if ?b then _ else _) => destruct b
  end.

Lemma ignores_CCO_run_to_position_loop fuel p position tolerance encoder :
  ignores_CCO (run_to_position_loop fuel p position tolerance encoder).
Proof.
  revert encoder.
  induction fuel as [| fuel IH]; intros encoder;
    cbn [run_to_position_loop]; unfold out_of_tolerance;
    repeat ignores_step; apply IH.
Qed.

Lemma ignores_CCO_run_to_position fuel port position tolerance :
  ignores_CCO (run_to_position fuel port position tolerance).
Proof.
  unfold run_to_position. repeat ignores_step.
  apply ignores_CCO_run_to_position_loop.
Qed.

Lemma ignores_CCO_grab fuel : ignores_CCO (grab fuel).
Proof.
  unfold grab. repeat ignores_step; apply ignores_CCO_run_to_position.
Qed.

Lemma ignores_CCO_release fuel : ignores_CCO (release fuel).
Proof.
  unfold release. repeat ignores_step; apply ignores_CCO_run_to_position.
Qed.

Lemma ignores_CCO_flip fuel release_after :
  ignores_CCO (flip fuel release_after).
Proof.
  unfold flip. repeat ignores_step;
    auto using ignores_CCO_run_to_position, ignores_CCO_grab,
      ignores_CCO_release.
Qed.

Lemma ignores_CCO_spin fuel deg overshoot :
  ignores_CCO (spin fuel deg overshoot).
Proof.
  unfold spin, TurnTablePosition. repeat ignores_step;
    apply ignores_CCO_run_to_position.
Qed.

Lemma flip_with_CCO fuel release_after v (self : BricKuberLib W) :
  flip fuel release_after (with_CCO v self)
  = lift_state (with_CCO v) (flip fuel release_after self).
Proof. apply ignores_CCO_flip. Qed.

Lemma release_with_CCO fuel v (self : BricKuberLib W) :
  release fuel (with_CCO v self) = lift_state (with_CCO v) (release fuel self).
Proof. apply ignores_CCO_release. Qed.

Lemma spin_with_CCO fuel deg overshoot v (self : BricKuberLib W) :
  spin fuel deg overshoot (with_CCO v self)
  = lift_state (with_CCO v) (spin fuel deg overshoot self).
Proof. apply ignores_CCO_spin. Qed.

(** *** Methods that never raise *)

Lemma never_raises_ret {A : Type} (a : A) : never_raises (mret a : M W A).
Proof. intros self e self'. discriminate. Qed.

Lemma never_raises_blocked {A : Type} : never_raises (@blocked W A).
Proof. intros self e self'. discriminate. Qed.

Lemma never_raises_attr {A : Type} (f : BricKuberLib W -> A) :
  never_raises (attr f).
Proof. intros self e self'. discriminate. Qed.

Lemma never_raises_call (f : W -> W) : never_raises (call f).
Proof. intros self e self'. discriminate. Qed.

Lemma never_raises_call_read (f : W -> Z * W) : never_raises (call_read f).
Proof.
  intros self e self'. unfold call_read. now destruct (f (BP self)).
Qed.

Lemma never_raises_bind {A B : Type} (m : M W A) (k : A -> M W B) :
  never_raises m -> (forall a, never_raises (k a)) -> never_raises (m ≫= k).
Proof.
  intros Hm Hk self e self'. rewrite bind_unfold.
  destruct (m self) as [a s1 | e1 s1 |] eqn:E; [apply Hk | | discriminate].
  now apply Hm in E.
Qed.

Ltac never_raises_step :=
  lazymatch goal with
  | |- never_raises (mbind _ _) => apply never_raises_bind; [| intros ?]
  | |- never_raises (mret _) => apply never_raises_ret
  | |- never_raises (@blocked _ _) => apply never_raises_blocked
  | |- never_raises (attr _) => apply never_raises_attr
  | |- never_raises (call _) => apply never_raises_call
  | |- never_raises (call_read _) => apply never_raises_call_read
  | |- never_raises (if ?b then _ else _) => destruct b
  end.

(** With bounds that can be computed, the test of the loop never
    raises. *)
Lemma never_raises_out_of_tolerance encoder position tolerance :
  bounded position tolerance ->
  never_raises (W := W) (out_of_tolerance encoder position tolerance).
Proof.
  intros (low & high & Hlow & Hhigh)%bounded_bounds.
  unfold out_of_tolerance. rewrite Hlow, Hhigh. cbn [arith].
  repeat never_raises_step.
Qed.

Lemma never_raises_run_to_position_loop fuel p position tolerance encoder :
  bounded position tolerance ->
  never_raises (run_to_position_loop fuel p position tolerance encoder).
Proof.
  intros Hbounded. revert encoder.
  induction fuel as [| fuel IH]; intros encoder; cbn [run_to_position_loop];
    (apply never_raises_bind;
       [now apply never_raises_out_of_tolerance | intros [|]]);
    repeat never_raises_step; apply IH.
Qed.

(** The grabber and the turntable are ports of [MOTOR_PORTS]. *)
Lemma never_raises_run_to_position_MOTOR_GRAB fuel position tolerance :
  bounded position tolerance ->
  never_raises (run_to_position fuel MOTOR_GRAB position tolerance).
Proof.
  intros Hbounded. unfold run_to_position. at_MOTOR_PORTS.
  repeat never_raises_step. now apply never_raises_run_to_position_loop.
Qed.

Lemma never_raises_run_to_position_MOTOR_TURN fuel position tolerance :
  bounded position tolerance ->
  never_raises (run_to_position fuel MOTOR_TURN position tolerance).
Proof.
  intros Hbounded. unfold run_to_position. at_MOTOR_PORTS.
  repeat never_raises_step. now apply never_raises_run_to_position_loop.
Qed.

Lemma never_raises_grab fuel : never_raises (grab fuel).
Proof.
  unfold grab. at_MOTOR_PORTS.
  repeat never_raises_step. now apply never_raises_run_to_position_MOTOR_GRAB.
Qed.

Lemma never_raises_release fuel : never_raises (release fuel).
Proof.
  unfold release. at_MOTOR_PORTS.
  repeat never_raises_step. now apply never_raises_run_to_position_MOTOR_GRAB.
Qed.

Lemma never_raises_flip fuel release_after :
  never_raises (flip fuel release_after).
Proof.
  unfold flip. at_MOTOR_PORTS.
  repeat never_raises_step;
    auto using never_raises_grab, never_raises_release;
    now apply never_raises_run_to_position_MOTOR_GRAB.
Qed.

Ltac run_method :=
  progress (repeat rewrite flip_with_CCO; repeat rewrite release_with_CCO;
            repeat rewrite spin_with_CCO);
  match goal with
  | |- context [lift_state _ (flip ?a ?b ?s)] =>
      let E := fresh "E" in
      destruct (flip a b s) as [[] ? | ? ? |] eqn:E;
      [| now apply never_raises_flip in E |]
  | |- context [lift_state _ (release ?a ?s)] =>
      destruct (release a s) as [[] ? | ? ? |]
  | |- context [lift_state _ (spin ?a ?b ?c ?s)] =>
      destruct (spin a b c s) as [[] ? | ? ? |]
  end; cbn [lift_state]; try reflexivity.

#[local] Opaque flip grab release spin OF.

(** [Move] on a token with a face letter: the first guard of the chain
    that holds selects a row of the table; with none, only the face turn
    is made. *)
Lemma Move_first_match_on fuel cmd f U F R (self : BricKuberLib W) :
  FaceToTurn cmd = Some f ->
  Move fuel cmd (with_CCO [U; F; R] self) =
  match branch f U F R with
  | Some t =>
      table_row fuel t (DegreesToTurnFace cmd) U F R (with_CCO [U; F; R] self)
  | None =>
      face_turn_only fuel (DegreesToTurnFace cmd) (with_CCO [U; F; R] self)
  end.
Proof.
  intros Hf. unfold Move, branch, table_row, face_turn_only. rewrite Hf.
  generalize (DegreesToTurnFace cmd) as deg. intros deg.
  unfold local, mbind, M_bind, mret, M_ret, CCO_getitem, CCO_setitem,
    assign_CCO.
  repeat first
    [ progress cbn
    | match goal with
      | |- context [if f =? ?x then _ else _] => destruct (f =? x)
      end
    | progress unfold mbind, M_bind, mret, M_ret
    | run_method ].
  all: reflexivity.
Qed.

#[local] Transparent flip grab release spin OF.

Lemma Move_first_match fuel cmd f U F R (self : BricKuberLib W) :
  FaceToTurn cmd = Some f -> CCO self = [U; F; R] ->
  Move fuel cmd self =
  match branch f U F R with
  | Some t => table_row fuel t (DegreesToTurnFace cmd) U F R self
  | None => face_turn_only fuel (DegreesToTurnFace cmd) self
  end.
Proof.
  intros Hf HCCO. rewrite <- (with_CCO_same self), HCCO.
  now apply Move_first_match_on.
Qed.

End Frames.

(** ** The orientation tracker *)

Lemma is_face_range (f : Z) : is_face f = true <-> 0 <= f < 6.
Proof. unfold is_face. rewrite andb_true_iff, Z.leb_le, Z.ltb_lt. tauto. Qed.

Lemma face_cases (f : Z) :
  is_face f = true -> f = 0 \/ f = 1 \/ f = 2 \/ f = 3 \/ f = 4 \/ f = 5.
Proof. rewrite is_face_range. lia. Qed.

Lemma well_oriented_faces (U F R : Z) :
  well_oriented [U; F; R] = true ->
  is_face U = true /\ is_face F = true /\ is_face R = true.
Proof.
  unfold well_oriented. rewrite !andb_true_iff. tauto.
Qed.

(** What the invariant says, entry by entry. *)
Lemma well_oriented_spec (U F R : Z) :
  well_oriented [U; F; R] = true <->
  (0 <= U < 6 /\ 0 <= F < 6 /\ 0 <= R < 6)
  /\ (U <> F /\ U <> OF F /\ F <> OF U)
  /\ (U <> R /\ U <> OF R /\ R <> OF U)
  /\ (F <> R /\ F <> OF R /\ R <> OF F).
Proof.
  unfold well_oriented, apart.
  rewrite !andb_true_iff, !is_face_range, !negb_true_iff, !Z.eqb_neq. tauto.
Qed.

Lemma well_oriented_triple (cco : list Z) :
  well_oriented cco = true -> exists U F R, cco = [U; F; R].
Proof.
  destruct cco as [| U [| F [| R [| ? ?]]]]; try discriminate. eauto.
Qed.

(** Split a face into its six values. *)
Ltac each_face f Hf :=
  apply face_cases in Hf;
  destruct Hf as [-> | [-> | [-> | [-> | [-> | ->]]]]].

(** Split a well-oriented triple into the 48 triples there are. *)
Ltac each_orientation U F R Hwo :=
  let HU := fresh "HU" in
  let HF := fresh "HF" in
  let HR := fresh "HR" in
  destruct (well_oriented_faces U F R Hwo) as (HU & HF & HR);
  each_face U HU; each_face F HF; each_face R HR;
  try discriminate Hwo; clear Hwo.

Lemma FaceToTurn_is_face (cmd : string) (f : Z) :
  FaceToTurn cmd = Some f -> is_face f = true.
Proof.
  unfold FaceToTurn.
  repeat match goal with
         | |- context [if ?b then _ else _] => destruct b
         end; intros [= <-]; reflexivity.
Qed.

(** The branch the chain takes has the target face. *)
Lemma branch_target_face (U F R f : Z) (t : Target) :
  branch f U F R = Some t -> target_face t U F R = f.
Proof.
  unfold branch.
  repeat match goal with
         | |- context [if ?a =? ?b then _ else _] =>
             destruct (Z.eqb_spec a b)
         end; intros [= <-]; cbn [target_face]; congruence.
Qed.

(** On a well-oriented triple every face meets exactly one guard. *)
Lemma branch_exactly_one (U F R f : Z) :
  well_oriented [U; F; R] = true -> is_face f = true ->
  exists t, branch f U F R = Some t
    /\ forall t', target_face t' U F R = f <-> t' = t.
Proof.
  intros Hwo Hf. each_orientation U F R Hwo; each_face f Hf;
    (eexists; split; [reflexivity |]; intros t'; split;
     [destruct t'; (reflexivity || discriminate) | intros ->; reflexivity]).
Qed.

(** The orientation update of every row keeps the triple well oriented. *)
Lemma reoriented_well_oriented (t : Target) (U F R : Z) :
  well_oriented [U; F; R] = true -> well_oriented (reoriented t U F R) = true.
Proof.
  intros Hwo. each_orientation U F R Hwo; destruct t; reflexivity.
Qed.

(** Every face value is named by a token. *)
Lemma FaceToTurn_onto (f : Z) :
  is_face f = true -> exists cmd, FaceToTurn cmd = Some f.
Proof.
  intros Hf. each_face f Hf;
    [exists "U" | exists "F" | exists "R" | exists "D" | exists "B"
    | exists "L"]; reflexivity.
Qed.

Section Dispatch.
Context {W : Type} `{Rig W}.

Lemma keeps_CCO_perform_all fuel actions :
  keeps (W := W) CCO (perform_all fuel actions).
Proof.
  induction actions as [| a rest IH]; cbn [perform_all].
  - apply keeps_ret.
  - apply keeps_bind; [| intros _; exact IH].
    destruct a; cbn [perform];
      auto using keeps_flip, keeps_release, keeps_spin.
Qed.

Lemma keeps_CCO_face_turn_only fuel deg :
  keeps (W := W) CCO (face_turn_only fuel deg).
Proof.
  unfold face_turn_only. apply keeps_bind; [| intros _];
    auto using keeps_grab, keeps_spin.
Qed.

(** A row leaves the triple as the orientation update says, or as it
    was when an action raised before the update. *)
Lemma table_row_CCO fuel t deg U F R (self self' : BricKuberLib W) :
  state_of (table_row fuel t deg U F R self) = Some self' ->
  CCO self' = CCO self \/ CCO self' = reoriented t U F R.
Proof.
  unfold table_row. rewrite bind_unfold.
  destruct (perform_all fuel (reorientation t) self) as [[] s1 | e s1 |] eqn:E1.
  - intros Hrest. right.
    rewrite bind_unfold in Hrest. cbn [assign_CCO] in Hrest.
    now rewrite (keeps_CCO_face_turn_only fuel deg _ _ Hrest).
  - intros [= <-]. left. apply (keeps_CCO_perform_all fuel (reorientation t)).
    now rewrite E1.
  - discriminate.
Qed.

(** C1: for every orientation triple [[U, F, R]] and every token with a
    face letter, [Move] does what the row of the table selected by the
    target face says: its physical actions in their order, its orientation
    update, and then [grab()] followed by
    [spin(rotationDegrees, overshoot=22)].  The row is the first one, in
    the order U, F, R, OF(U), OF(F), OF(R), that has the target face; on a
    triple that satisfies the invariant of the data model the six rows are
    disjoint and exactly one of them has it. *)
Theorem Move_dispatches fuel cmd f U F R (self : BricKuberLib W) :
  CCO self = [U; F; R] ->
  FaceToTurn cmd = Some f ->
  (well_oriented [U; F; R] = true ->
   exists t, target_face t U F R = f
     /\ (forall t', target_face t' U F R = f -> t' = t)
     /\ Move fuel cmd self
        = table_row fuel t (DegreesToTurnFace cmd) U F R self)
  /\ (forall t, branch f U F R = Some t ->
      target_face t U F R = f
      /\ Move fuel cmd self
         = table_row fuel t (DegreesToTurnFace cmd) U F R self)
  /\ (branch f U F R = None ->
      Move fuel cmd self = face_turn_only fuel (DegreesToTurnFace cmd) self).
Proof.
  intros HCCO Hf.
  pose proof (Move_first_match fuel cmd f U F R self Hf HCCO) as HMove.
  split; [| split].
  - intros Hwo.
    destruct (branch_exactly_one U F R f Hwo (FaceToTurn_is_face cmd f Hf))
      as (t & Hbranch & Honly).
    exists t. split; [now apply Honly |]. split.
    + intros t' Ht'. now apply Honly.
    + now rewrite HMove, Hbranch.
  - intros t Hbranch. split; [now apply branch_target_face |].
    now rewrite HMove, Hbranch.
  - intros Hbranch. now rewrite HMove, Hbranch.
Qed.

(** C9: on a triple that satisfies the invariant, the faces
    [U, F, R, OF(U), OF(F), OF(R)] are all six face values, so every target
    face in 0..5 (each is the face of some token) meets one guard of the
    [if]/[elif] chain of [Move] and no other.  [Move] runs the row of the
    first guard that holds and falls through to the face turn alone when
    none holds; on such a triple it therefore runs the one row that has
    the target face, and never falls through. *)
Theorem dispatch_never_falls_through (U F R f : Z) :
  well_oriented [U; F; R] = true -> is_face f = true ->
  In f [U; F; R; OF U; OF F; OF R]
  /\ (exists cmd, FaceToTurn cmd = Some f)
  /\ exists t, branch f U F R = Some t
       /\ target_face t U F R = f
       /\ (forall t', target_face t' U F R = f -> t' = t)
       /\ forall fuel cmd (self : BricKuberLib W),
            CCO self = [U; F; R] -> FaceToTurn cmd = Some f ->
            Move fuel cmd self
            = match branch f U F R with
              | Some t' =>
                  table_row fuel t' (DegreesToTurnFace cmd) U F R self
              | None => face_turn_only fuel (DegreesToTurnFace cmd) self
              end
            /\ Move fuel cmd self
               = table_row fuel t (DegreesToTurnFace cmd) U F R self.
Proof.
  intros Hwo Hf.
  destruct (branch_exactly_one U F R f Hwo Hf) as (t & Hbranch & Honly).
  assert (Ht : target_face t U F R = f) by now apply Honly.
  split; [| split; [now apply FaceToTurn_onto |]].
  - rewrite <- Ht. destruct t; cbn [target_face In]; tauto.
  - exists t. split; [assumption |]. split; [assumption |].
    split; [intros t' Ht'; now apply Honly |].
    intros fuel cmd self HCCO Hcmd.
    pose proof (Move_first_match fuel cmd f U F R self Hcmd HCCO) as HMove.
    split; [exact HMove |]. rewrite HMove, Hbranch. reflexivity.
Qed.

(** A token without a face letter leaves the local variable unassigned. *)
Lemma FaceToTurn_unassigned (cmd : string) :
  token_face cmd = None -> FaceToTurn cmd = None.
Proof.
  unfold FaceToTurn, token_face, face_letters. rewrite !find_char.
  cbn [first_position].
  repeat match goal with
         | |- context [if contains ?c cmd then _ else _] =>
             destruct (contains c cmd); [discriminate |]
         end.
  reflexivity.
Qed.

(** C6 as the code has it: for every token with none of the letters
    U, F, R, D, B, L, [Move] leaves the target face variable unassigned,
    and its first read raises [UnboundLocalError] before any physical
    action and any change of the object; no face value is used. *)
Theorem Move_rejects_faceless_token fuel cmd (self : BricKuberLib W) :
  token_face cmd = None ->
  FaceToTurn cmd = None
  /\ Move fuel cmd self = Raise (UnboundLocalError "FaceToTurn") self.
Proof.
  intros Hnone. apply FaceToTurn_unassigned in Hnone. split; [assumption |].
  unfold Move. now rewrite Hnone.
Qed.

(** [Move] keeps the invariant, however it ends. *)
Lemma Move_well_oriented fuel cmd (self self' : BricKuberLib W) :
  well_oriented (CCO self) = true ->
  state_of (Move fuel cmd self) = Some self' ->
  well_oriented (CCO self') = true.
Proof.
  intros Hwo.
  destruct (well_oriented_triple _ Hwo) as (U & F & R & HCCO).
  destruct (FaceToTurn cmd) as [f |] eqn:Hf.
  - rewrite (Move_first_match fuel cmd f U F R self Hf HCCO).
    destruct (branch f U F R) as [t |].
    + intros Hrow. apply table_row_CCO in Hrow as [-> | ->]; [assumption |].
      apply reoriented_well_oriented. now rewrite <- HCCO.
    + intros Hturn. now rewrite (keeps_CCO_face_turn_only _ _ _ _ Hturn).
  - unfold Move. rewrite Hf. now intros [= <-].
Qed.

(** C2: every orientation triple reachable from [[0, 1, 2]] by dispatched
    moves has pairwise distinct and pairwise non-opposite entries, and
    every [Move] transition preserves this. *)
Theorem reachable_well_oriented :
  (forall self : BricKuberLib W,
      reachable self -> well_oriented (CCO self) = true)
  /\ (forall fuel cmd (self self' : BricKuberLib W),
        well_oriented (CCO self) = true ->
        state_of (Move fuel cmd self) = Some self' ->
        well_oriented (CCO self') = true).
Proof.
  split.
  - intros self Hreach.
    induction Hreach as [self Hinit | fuel cmd self self' _ IH Hmove].
    + now rewrite Hinit.
    + exact (Move_well_oriented fuel cmd self self' IH Hmove).
  - exact Move_well_oriented.
Qed.

End Dispatch.

(** ** The turntable *)

Section Turntable.
Context {W : Type} `{Rig W}.

Lemma run_to_position_TurnTableTarget fuel port position tolerance
    (self self' : BricKuberLib W) :
  run_to_position fuel port position tolerance self = Done tt self' ->
  TurnTableTarget self' = TurnTableTarget self.
Proof.
  intros Hrun. apply (keeps_run_to_position TurnTableTarget) with
    (fuel := fuel) (port := port) (position := position)
    (tolerance := tolerance).
  - reflexivity.
  - now rewrite Hrun.
Qed.

(** A completed [spin(deg, overshoot)] moves the cumulative target by
    [- deg]: what the overshoot adds on the way out, the return takes
    back. *)
Lemma spin_TurnTableTarget fuel deg overshoot (self self' : BricKuberLib W) :
  spin fuel deg overshoot self = Done tt self' ->
  TurnTableTarget self' = TurnTableTarget self - deg.
Proof.
  unfold spin, TurnTablePosition.
  generalize (if deg <? 0 then - overshoot else overshoot) as o. intros o.
  unfold mbind, M_bind, attr, assign_TurnTableTarget, truediv.
  cbn [TurnTablePinion TurnTableGear TurnTableTarget with_TurnTableTarget].
  destruct (TurnTablePinion self =? 0); [discriminate |].
  destruct (huge _); [discriminate |].
  unfold mret, M_ret.
  destruct (run_to_position fuel MOTOR_TURN _ 3 _) as [[] s1 | |] eqn:E1;
    [| discriminate ..].
  apply run_to_position_TurnTableTarget in E1. cbn in E1.
  destruct (Z.eqb_spec o 0) as [Ho | Ho]; cbn [negb].
  - intros [= <-]. lia.
  - destruct (TurnTablePinion s1 =? 0); [discriminate |].
    destruct (huge _); [discriminate |].
    intros E2. apply run_to_position_TurnTableTarget in E2. cbn in E2. lia.
Qed.

Lemma spins_TurnTableTarget fuel calls (self self' : BricKuberLib W) :
  spins fuel calls self = Done tt self' ->
  TurnTableTarget self' = TurnTableTarget self - degrees_sum calls.
Proof.
  revert self. induction calls as [| [deg overshoot] rest IH]; intros self.
  - intros [= <-]. cbn. lia.
  - cbn [spins degrees_sum foldr fst]. rewrite bind_unfold.
    destruct (spin fuel deg overshoot self) as [[] s1 | |] eqn:E1;
      [| discriminate ..].
    intros Hrest. apply IH in Hrest. apply spin_TurnTableTarget in E1.
    fold (degrees_sum rest). lia.
Qed.
(** C3 as the code has it: starting from a cumulative target of 0, after
  any finite sequence of completed [spin(degrees, overshoot)] calls the
  stored cumulative target is minus the sum of the [degrees] arguments
  (each call decrements it); within each single call the overshoot
  contribution nets to zero. *)
Theorem spins_cumulative_target fuel calls (self self' : BricKuberLib W) :
TurnTableTarget self = 0 ->
spins fuel calls self = Done tt self' ->
TurnTableTarget self' = - degrees_sum calls
/\ forall deg overshoot (s s' : BricKuberLib W),
     spin fuel deg overshoot s = Done tt s' ->
     TurnTableTarget s' = TurnTableTarget s - deg.
Proof.
intros Hzero Hspins. split.
- apply spins_TurnTableTarget in Hspins. lia.
- intros deg overshoot s s'. apply spin_TurnTableTarget.
Qed.

End Turntable.

(** ** Waiting for a motor *)

Section Waiting.
Context {W : Type} `{Rig W}.

(** The test of the loop, in the three cases there are. *)
Lemma out_of_tolerance_settled encoder position tolerance
    (self : BricKuberLib W) :
  settled encoder position tolerance ->
  out_of_tolerance encoder position tolerance self = Done false self.
Proof.
  intros (low & high & Hlow & Hhigh & Hleast & Hmost).
  apply gt_at_most in Hmost. apply lt_at_least in Hleast.
  unfold out_of_tolerance, mbind, M_bind. rewrite Hhigh. cbn [arith].
  unfold mret at 1, M_ret at 1. rewrite Hmost, Hlow. cbn [arith].
  unfold mret, M_ret. now rewrite Hleast.
Qed.

Lemma out_of_tolerance_not_settled encoder position tolerance
    (self : BricKuberLib W) :
  bounded position tolerance -> ~ settled encoder position tolerance ->
  out_of_tolerance encoder position tolerance self = Done true self.
Proof.
  intros (low & high & Hlow & Hhigh)%bounded_bounds Hout.
  unfold out_of_tolerance, mbind, M_bind. rewrite Hhigh. cbn [arith].
  unfold mret at 1, M_ret at 1.
  destruct (gt encoder high) eqn:Hgt; [reflexivity |].
  rewrite Hlow. cbn [arith]. unfold mret, M_ret.
  destruct (lt encoder low) eqn:Hlt; [reflexivity |].
  exfalso. apply Hout. exists low, high.
  apply gt_at_most in Hgt. apply lt_at_least in Hlt. auto.
Qed.

Lemma out_of_tolerance_unbounded encoder position tolerance
    (self : BricKuberLib W) :
  ~ bounded position tolerance ->
  out_of_tolerance encoder position tolerance self = Raise OverflowError self.
Proof.
  intros Hunbounded. destruct position as [n | x]; [now destruct Hunbounded |].
  cbn [bounded] in Hunbounded.
  unfold out_of_tolerance, add, float_of_int.
  destruct (huge (inject_Z tolerance)); [reflexivity | contradiction].
Qed.

Lemma bounded_dec position tolerance :
  bounded position tolerance \/ ~ bounded position tolerance.
Proof.
  destruct position as [n | x]; cbn [bounded]; [now left |].
  destruct (huge (inject_Z tolerance)); [right; discriminate | now left].
Qed.

(** What the test answers tells where the reading is. *)
Lemma out_of_tolerance_Done encoder position tolerance
    (self self' : BricKuberLib W) (out : bool) :
  out_of_tolerance encoder position tolerance self = Done out self' ->
  self' = self /\ bounded position tolerance
  /\ (if out then ~ settled encoder position tolerance
      else settled encoder position tolerance).
Proof.
  destruct (bounded_dec position tolerance) as [Hb | Hb].
  - assert (Hcases : settled encoder position tolerance
                     \/ ~ settled encoder position tolerance).
    { destruct (out_of_tolerance encoder position tolerance self)
        as [[|] s | e s |] eqn:E.
      - right. intros Hin.
        now rewrite (out_of_tolerance_settled _ _ _ _ Hin) in E.
      - left. destruct (bounded_bounds position tolerance) as [Hbb _].
        destruct (Hbb Hb) as (low & high & Hlow & Hhigh).
        revert E. unfold out_of_tolerance, mbind, M_bind.
        rewrite Hhigh. cbn [arith]. unfold mret at 1, M_ret at 1.
        destruct (gt encoder high) eqn:Hgt; [discriminate |].
        rewrite Hlow. cbn [arith]. unfold mret, M_ret.
        destruct (lt encoder low) eqn:Hlt; [discriminate |]. intros _.
        exists low, high. apply gt_at_most in Hgt. apply lt_at_least in Hlt.
        auto.
      - now apply never_raises_out_of_tolerance in E.
      - revert E. apply bounded_bounds in Hb as (low & high & Hlow & Hhigh).
        unfold out_of_tolerance, mbind, M_bind.
        rewrite Hhigh. cbn [arith]. unfold mret at 1, M_ret at 1.
        destruct (gt encoder high); [discriminate |].
        rewrite Hlow. discriminate. }
    destruct Hcases as [Hin | Hout].
    + rewrite (out_of_tolerance_settled _ _ _ _ Hin). intros [= <- <-]. auto.
    + rewrite (out_of_tolerance_not_settled _ _ _ _ Hb Hout).
      intros [= <- <-]. auto.
  - now rewrite (out_of_tolerance_unbounded _ _ _ _ Hb).
Qed.

Section Polls.
Variables (p : Port) (position : number) (tolerance : Z)
  (self : BricKuberLib W).

(** One iteration of the loop: not settled at reading [k], it sleeps,
    reads, and goes on from reading [k + 1]. *)
Lemma run_to_position_loop_step fuel k :
  bounded position tolerance ->
  ~ settled (reading p (value position) self k) position tolerance ->
  run_to_position_loop (S fuel) p position tolerance
    (reading p (value position) self k) (polled p (value position) self k)
  = run_to_position_loop fuel p position tolerance
      (reading p (value position) self (S k))
      (polled p (value position) self (S k)).
Proof.
  intros Hb Hout. cbn [run_to_position_loop]. rewrite bind_unfold.
  rewrite (out_of_tolerance_not_settled _ _ _ _ Hb Hout).
  unfold reading, polled, mbind, M_bind, call, call_read.
  cbn [BP with_BP poll].
  destruct (get_motor_encoder p _) as [v w]. reflexivity.
Qed.

Lemma run_to_position_loop_settled fuel k :
  settled (reading p (value position) self k) position tolerance ->
  run_to_position_loop fuel p position tolerance
    (reading p (value position) self k) (polled p (value position) self k)
  = Done tt (polled p (value position) self k).
Proof.
  intros Hin.
  destruct fuel; cbn [run_to_position_loop]; rewrite bind_unfold;
    now rewrite (out_of_tolerance_settled _ _ _ _ Hin).
Qed.

(** Bounds that cannot be computed: the first test raises. *)
Lemma run_to_position_loop_unbounded fuel encoder (s : BricKuberLib W) :
  ~ bounded position tolerance ->
  run_to_position_loop fuel p position tolerance encoder s
  = Raise OverflowError s.
Proof.
  intros Hb.
  destruct fuel; cbn [run_to_position_loop]; rewrite bind_unfold;
    now rewrite (out_of_tolerance_unbounded _ _ _ _ Hb).
Qed.

Lemma run_to_position_loop_Done fuel k self' :
  run_to_position_loop fuel p position tolerance
    (reading p (value position) self k) (polled p (value position) self k)
  = Done tt self' ->
  exists j, (j <= fuel)%nat /\ self' = polled p (value position) self (k + j)
    /\ settled (reading p (value position) self (k + j)) position tolerance
    /\ forall i, (i < j)%nat ->
         ~ settled (reading p (value position) self (k + i)) position
             tolerance.
Proof.
  revert k. induction fuel as [| fuel IH]; intros k.
  - cbn [run_to_position_loop]. rewrite bind_unfold.
    destruct (out_of_tolerance _ position tolerance _) as [[|] s | e s |] eqn:E;
      try discriminate.
    apply out_of_tolerance_Done in E as (-> & _ & Hin).
    intros [= <-]. exists 0%nat. rewrite Nat.add_0_r.
    split; [lia |]. split; [reflexivity |]. split; [assumption |].
    intros i Hi. lia.
  - destruct (out_of_tolerance (reading p (value position) self k) position
                tolerance (polled p (value position) self k))
      as [[|] s | e s |] eqn:E.
    + apply out_of_tolerance_Done in E as (_ & Hb & Hout).
      rewrite (run_to_position_loop_step fuel k Hb Hout). intros Hrest.
      destruct (IH (S k) Hrest) as (j & Hj & -> & Hin & Hbefore).
      exists (S j). rewrite <- Nat.add_succ_comm.
      split; [lia |]. split; [reflexivity |]. split; [assumption |].
      intros [| i] Hi; [now rewrite Nat.add_0_r |].
      rewrite <- Nat.add_succ_comm. apply Hbefore. lia.
    + apply out_of_tolerance_Done in E as (_ & _ & Hin).
      rewrite (run_to_position_loop_settled (S fuel) k Hin).
      intros [= <-]. exists 0%nat. rewrite Nat.add_0_r.
      split; [lia |]. split; [reflexivity |]. split; [assumption |].
      intros i Hi. lia.
    + cbn [run_to_position_loop]. rewrite bind_unfold, E. discriminate.
    + cbn [run_to_position_loop]. rewrite bind_unfold, E. discriminate.
Qed.

Lemma run_to_position_loop_Blocked fuel k :
  bounded position tolerance ->
  (forall i, (i <= fuel)%nat ->
     ~ settled (reading p (value position) self (k + i)) position tolerance) ->
  run_to_position_loop fuel p position tolerance
    (reading p (value position) self k) (polled p (value position) self k)
  = Blocked.
Proof.
  intros Hb. revert k. induction fuel as [| fuel IH]; intros k Hout.
  - specialize (Hout 0%nat (Nat.le_refl _)). rewrite Nat.add_0_r in Hout.
    cbn [run_to_position_loop]. rewrite bind_unfold.
    now rewrite (out_of_tolerance_not_settled _ _ _ _ Hb Hout).
  - rewrite run_to_position_loop_step; [| assumption |].
    + apply IH. intros i Hi. rewrite Nat.add_succ_comm. apply Hout. lia.
    + specialize (Hout 0%nat (Nat.le_0_l _)). now rewrite Nat.add_0_r in Hout.
Qed.

Lemma run_to_position_loop_returns fuel k i :
  (i <= fuel)%nat ->
  settled (reading p (value position) self (k + i)) position tolerance ->
  exists self',
    run_to_position_loop fuel p position tolerance
      (reading p (value position) self k) (polled p (value position) self k)
    = Done tt self'.
Proof.
  intros Hi Hin. pose proof (settled_bounded _ _ _ Hin) as Hb.
  revert k i Hi Hin. induction fuel as [| fuel IH]; intros k i Hi Hin.
  - assert (i = 0%nat) as -> by lia. rewrite Nat.add_0_r in Hin.
    eexists. now apply run_to_position_loop_settled.
  - destruct (out_of_tolerance (reading p (value position) self k) position
                tolerance (polled p (value position) self k))
      as [[|] s | e s |] eqn:E.
    + apply out_of_tolerance_Done in E as (_ & _ & Hout).
      rewrite (run_to_position_loop_step fuel k Hb Hout).
      destruct i as [| i]; [now rewrite Nat.add_0_r in Hin |].
      apply (IH (S k) i); [lia |]. now rewrite Nat.add_succ_comm.
    + apply out_of_tolerance_Done in E as (_ & _ & Hin').
      eexists. now apply run_to_position_loop_settled.
    + now apply never_raises_out_of_tolerance in E.
    + exfalso. revert E.
      apply bounded_bounds in Hb as (low & high & Hlow & Hhigh).
      unfold out_of_tolerance, mbind, M_bind.
      rewrite Hhigh. cbn [arith]. unfold mret at 1, M_ret at 1.
      destruct (gt _ high); [discriminate |].
      rewrite Hlow. discriminate.
Qed.

(** [run_to_position] commands the position, takes reading 0 and enters
    the loop. *)
Lemma run_to_position_enters fuel port :
  MOTOR_PORTS !! port = Some p ->
  run_to_position fuel port position tolerance self
  = run_to_position_loop fuel p position tolerance
      (reading p (value position) self 0)
      (polled p (value position) self 0).
Proof.
  intros Hport. unfold run_to_position, MOTOR_PORTS_getitem. rewrite Hport.
  unfold reading, polled, mbind, M_bind, mret, M_ret, call, call_read.
  cbn [BP with_BP poll].
  destruct (get_motor_encoder p _) as [v w]. reflexivity.
Qed.

End Polls.

(** C7 as the code has it: [run_to_position(port, position, tolerance)]
    returns only once a reading lies between the bounds
    [position - tolerance] and [position + tolerance] as the interpreter
    computes them ([settled]), and then at the first such reading; the
    readings are taken 10 ms apart ([poll]); there is no timeout: while
    the readings stay outside the bounds the call is blocked, whatever the
    budget.  For an [int] position the bounds are the exact interval
    [[position - tolerance, position + tolerance]]; for a [float] position
    they are the sums rounded to doubles, or infinities.  Only a [float]
    position with a tolerance beyond the doubles makes the call raise, at
    the first test. *)
Theorem run_to_position_waits fuel port p position tolerance
    (self : BricKuberLib W) :
  MOTOR_PORTS !! port = Some p ->
  (forall self',
      run_to_position fuel port position tolerance self = Done tt self' ->
      exists k, (k <= fuel)%nat
        /\ self' = polled p (value position) self k
        /\ settled (reading p (value position) self k) position tolerance
        /\ forall j, (j < k)%nat ->
             ~ settled (reading p (value position) self j) position tolerance)
  /\ (bounded position tolerance ->
      (forall k, (k <= fuel)%nat ->
         ~ settled (reading p (value position) self k) position tolerance) ->
      run_to_position fuel port position tolerance self = Blocked)
  /\ (bounded position tolerance ->
      (forall k,
         ~ settled (reading p (value position) self k) position tolerance) ->
      forall budget,
        run_to_position budget port position tolerance self = Blocked)
  /\ (forall k, (k <= fuel)%nat ->
        settled (reading p (value position) self k) position tolerance ->
        exists self',
          run_to_position fuel port position tolerance self = Done tt self')
  /\ (forall n encoder, position = Int n ->
        (settled encoder position tolerance
         <-> within encoder (inject_Z n) tolerance))
  /\ (forall x encoder, position = Float x ->
        (settled encoder position tolerance
         <-> huge (inject_Z tolerance) = false
             /\ at_least (float_add x (- double (inject_Z tolerance))) encoder
             /\ at_most encoder (float_add x (double (inject_Z tolerance)))))
  /\ (~ bounded position tolerance ->
      run_to_position fuel port position tolerance self
      = Raise OverflowError (polled p (value position) self 0)).
Proof.
  intros Hport.
  rewrite (run_to_position_enters _ _ _ _ _ _ Hport).
  split; [| split; [| split; [| split; [| split; [| split]]]]].
  - intros self' Hdone. apply run_to_position_loop_Done in Hdone.
    exact Hdone.
  - intros Hb Hout. apply run_to_position_loop_Blocked; assumption.
  - intros Hb Hout budget.
    rewrite (run_to_position_enters _ _ _ _ _ _ Hport).
    apply run_to_position_loop_Blocked; [assumption |]. intros i _. apply Hout.
  - intros k Hk Hin.
    now apply (run_to_position_loop_returns _ _ _ _ fuel 0%nat k).
  - intros n encoder ->. apply settled_Int.
  - intros x encoder ->. unfold settled. cbn [sub add]. unfold float_of_int.
    destruct (huge (inject_Z tolerance)).
    + split; [intros (low & high & [=] & _) | intros [[=] _]].
    + split.
      * intros (low & high & [= <-] & [= <-] & Hlow & Hhigh). auto.
      * intros (_ & Hlow & Hhigh). eexists _, _. eauto.
  - intros Hb. now apply run_to_position_loop_unbounded.
Qed.

End Waiting.

(** ** The calibration profiles *)

Section Profiles.
Context {W : Type} `{Rig W}.




End Profiles.

(** ** Frame of the motor layer *)

Section Frame.
Context {W : Type} `{Rig W}.

(** A method that keeps both observations. *)
Lemma keeps_both {A X Y : Type} (m : M W A) (get1 : BricKuberLib W -> X)
  (get2 : BricKuberLib W -> Y) (self self' : BricKuberLib W) :
keeps get1 m -> keeps get2 m ->
state_of (m self) = Some self' ->
get1 self' = get1 self /\ get2 self' = get2 self.
Proof. intros H1 H2 Hm. split; [now apply H1 | now apply H2]. Qed.

(** C10: [run_to_position], [grab], [release] and [flip] leave the
  orientation triple and the cumulative turntable target as they found
  them, [spin] and [home_all] leave the orientation triple, and [Move]
  leaves the orientation triple when it makes no reorientation (the
  target is the bottom face, or no guard holds). *)
Theorem motor_layer_frame fuel (self self' : BricKuberLib W) :
(forall port position tolerance,
    state_of (run_to_position fuel port position tolerance self) = Some self' ->
    CCO self' = CCO self /\ TurnTableTarget self' = TurnTableTarget self)
/\ (state_of (grab fuel self) = Some self' ->
    CCO self' = CCO self /\ TurnTableTarget self' = TurnTableTarget self)
/\ (state_of (release fuel self) = Some self' ->
    CCO self' = CCO self /\ TurnTableTarget self' = TurnTableTarget self)
/\ (forall release_after,
    state_of (flip fuel release_after self) = Some self' ->
    CCO self' = CCO self /\ TurnTableTarget self' = TurnTableTarget self)
/\ (forall deg overshoot,
    state_of (spin fuel deg overshoot self) = Some self' ->
    CCO self' = CCO self)
/\ (state_of (home_all fuel self) = Some self' -> CCO self' = CCO self)
/\ (forall cmd f U F R,
    FaceToTurn cmd = Some f -> CCO self = [U; F; R] ->
    branch f U F R = Some Bottom \/ branch f U F R = None ->
    state_of (Move fuel cmd self) = Some self' ->
    CCO self' = CCO self).
Proof.
repeat match goal with |- _ /\ _ => split end.
- intros port position tolerance.
  apply keeps_both; now apply keeps_run_to_position.
- apply keeps_both; now apply keeps_grab.
- apply keeps_both; now apply keeps_release.
- intros release_after. apply keeps_both; now apply keeps_flip.
- intros deg overshoot. now apply keeps_spin.
- now apply keeps_home_all.
- intros cmd f U F R Hf HCCO Hbranch.
  rewrite (Move_first_match fuel cmd f U F R self Hf HCCO).
  destruct Hbranch as [-> | ->].
  + intros Hrow. apply table_row_CCO in Hrow as [-> | ->]; [reflexivity |].
    now rewrite HCCO.
  + now apply keeps_CCO_face_turn_only.
Qed.

End Frame.

(** ** The poll budget only bounds the waiting *)

Section Budget.
Context {W : Type} `{Rig W}.














(** A call that never raises comes back unless it is blocked. *)
Lemma never_raises_Done {A : Type} (m : M W A) (self : BricKuberLib W) :
  never_raises m -> m self <> Blocked -> exists a self', m self = Done a self'.
Proof.
  intros Hm Hb. destruct (m self) as [a s | e s |] eqn:E.
  - now exists a, s.
  - now apply Hm in E.
  - contradiction.
Qed.

End Budget.

(** ** Strings of moves *)

Section MovesString.
Context {W : Type} `{Rig W}.

Lemma Moves_loop_well_oriented fuel cmds (self self' : BricKuberLib W) :
  well_oriented (CCO self) = true ->
  state_of (Moves_loop fuel cmds self) = Some self' ->
  well_oriented (CCO self') = true.
Proof.
  revert self. induction cmds as [| cmd rest IH]; intros self Hwo.
  - now intros [= <-].
  - cbn [Moves_loop]. rewrite bind_unfold.
    destruct (Move fuel cmd self) as [[] s1 | e s1 |] eqn:E.
    + apply IH. apply (Move_well_oriented fuel cmd self s1 Hwo). now rewrite E.
    + intros [= <-]. apply (Move_well_oriented fuel cmd self s1 Hwo).
      now rewrite E.
    + discriminate.
Qed.

(** A string of moves keeps the invariant. *)
Lemma Moves_well_oriented fuel cmds (self self' : BricKuberLib W) :
  well_oriented (CCO self) = true ->
  state_of (Moves fuel cmds self) = Some self' ->
  well_oriented (CCO self') = true.
Proof.
  intros Hwo. unfold Moves. rewrite bind_unfold.
  destruct (Moves_loop fuel (split cmds) self) as [[] s1 | e s1 |] eqn:E.
  - intros Hrest.
    assert (Hkeep : CCO self' = CCO s1).
    { revert Hrest. apply keeps_bind; [apply keeps_attr | intros position].
      now apply keeps_run_to_position. }
    rewrite Hkeep.
    apply (Moves_loop_well_oriented fuel (split cmds) self s1 Hwo).
    now rewrite E.
  - intros [= <-].
    apply (Moves_loop_well_oriented fuel (split cmds) self s1 Hwo).
    now rewrite E.
  - discriminate.
Qed.

End MovesString.

Example split_moves : split " R U2  F' D" = ["R"; "U2"; "F'"; "D"].
Proof. reflexivity. Qed.

(** ** The bookkeeping of moves *)

Section Bookkeeping.
Context {W : Type} `{Rig W}.

Lemma keeps_Done {X A : Type} (get : BricKuberLib W -> X) (m : M W A)
    (self self' : BricKuberLib W) (a : A) :
  keeps get m -> m self = Done a self' -> get self' = get self.
Proof. intros Hk E. apply Hk. now rewrite E. Qed.

Lemma keeps_Raise {X A : Type} (get : BricKuberLib W -> X) (m : M W A)
    (self self' : BricKuberLib W) (e : exn) :
  keeps get m -> m self = Raise e self' -> get self' = get self.
Proof. intros Hk E. apply Hk. now rewrite E. Qed.

Lemma keeps_TurnTableTarget_grab fuel (self self' : BricKuberLib W) :
  grab fuel self = Done tt self' ->
  TurnTableTarget self' = TurnTableTarget self /\ CCO self' = CCO self.
Proof.
  intros E. split;
    [apply (keeps_grab TurnTableTarget (fun _ _ => eq_refl) fuel)
    | apply (keeps_grab CCO (fun _ _ => eq_refl) fuel)]; now rewrite E.
Qed.

Lemma perform_TurnTableTarget fuel a (self self' : BricKuberLib W) :
  perform fuel a self = Done tt self' ->
  TurnTableTarget self' = TurnTableTarget self - spin_degrees [a]
  /\ CCO self' = CCO self.
Proof.
  destruct a as [| | deg]; cbn [perform spin_degrees foldr]; intros E.
  - split;
      [rewrite Z.sub_0_r;
       apply (keeps_flip TurnTableTarget (fun _ _ => eq_refl) fuel false)
      | apply (keeps_flip CCO (fun _ _ => eq_refl) fuel false)];
      now rewrite E.
  - split;
      [rewrite Z.sub_0_r;
       apply (keeps_release TurnTableTarget (fun _ _ => eq_refl) fuel)
      | apply (keeps_release CCO (fun _ _ => eq_refl) fuel)];
      now rewrite E.
  - split.
    + rewrite (spin_TurnTableTarget fuel deg 0 self self' E). lia.
    + apply (keeps_spin CCO (fun _ _ => eq_refl) (fun _ _ => eq_refl)
               fuel deg 0). now rewrite E.
Qed.

Lemma perform_all_TurnTableTarget fuel actions (self self' : BricKuberLib W) :
  perform_all fuel actions self = Done tt self' ->
  TurnTableTarget self' = TurnTableTarget self - spin_degrees actions
  /\ CCO self' = CCO self.
Proof.
  revert self. induction actions as [| a rest IH]; intros self.
  - intros [= <-]. cbn. split; [lia | reflexivity].
  - cbn [perform_all]. rewrite bind_unfold.
    destruct (perform fuel a self) as [[] s1 | |] eqn:E1; [| discriminate ..].
    intros Hrest. apply IH in Hrest as [Ht Hc].
    apply perform_TurnTableTarget in E1 as [Ht1 Hc1].
    split; [| congruence].
    rewrite Ht, Ht1. cbn [spin_degrees foldr].
    fold (spin_degrees rest). destruct a; lia.
Qed.

Lemma face_turn_only_result fuel deg (self self' : BricKuberLib W) :
  face_turn_only fuel deg self = Done tt self' ->
  TurnTableTarget self' = TurnTableTarget self - deg /\ CCO self' = CCO self.
Proof.
  unfold face_turn_only. rewrite bind_unfold.
  destruct (grab fuel self) as [[] s1 | |] eqn:E1; [| discriminate ..].
  apply keeps_TurnTableTarget_grab in E1 as [Ht1 Hc1]. intros E2.
  split.
  - rewrite (spin_TurnTableTarget fuel deg 22 s1 self' E2). lia.
  - rewrite <- Hc1.
    apply (keeps_spin CCO (fun _ _ => eq_refl) (fun _ _ => eq_refl)
             fuel deg 22). now rewrite E2.
Qed.

Lemma table_row_result fuel t deg U F R (self self' : BricKuberLib W) :
  table_row fuel t deg U F R self = Done tt self' ->
  TurnTableTarget self'
  = TurnTableTarget self - spin_degrees (reorientation t) - deg
  /\ CCO self' = reoriented t U F R.
Proof.
  unfold table_row. rewrite bind_unfold.
  destruct (perform_all fuel (reorientation t) self) as [[] s1 | |] eqn:E1;
    [| discriminate ..].
  apply perform_all_TurnTableTarget in E1 as [Ht1 _].
  rewrite bind_unfold. cbn [assign_CCO]. intros E2.
  apply face_turn_only_result in E2 as [Ht2 Hc2]. cbn in Ht2, Hc2.
  split; [lia | assumption].
Qed.

Lemma Move_Done_plan fuel cmd U F R (self self' : BricKuberLib W) :
  CCO self = [U; F; R] ->
  Move fuel cmd self = Done tt self' ->
  plan_Move cmd (CCO self) (TurnTableTarget self)
  = Some (CCO self', TurnTableTarget self').
Proof.
  intros HCCO HMove. unfold plan_Move. rewrite HCCO.
  destruct (FaceToTurn cmd) as [f |] eqn:Hf.
  - rewrite (Move_first_match fuel cmd f U F R self Hf HCCO) in HMove.
    destruct (branch f U F R) as [t |].
    + apply table_row_result in HMove as [-> ->]. reflexivity.
    + apply face_turn_only_result in HMove as [-> ->]. now rewrite HCCO.
  - unfold Move in HMove. now rewrite Hf in HMove.
Qed.

Lemma plan_Move_triple cmd cco target cco' target' :
  plan_Move cmd cco target = Some (cco', target') -> length cco' = 3%nat.
Proof.
  unfold plan_Move. destruct (FaceToTurn cmd) as [f |]; [| discriminate].
  destruct cco as [| U [| F [| R [| ? ?]]]]; try discriminate.
  destruct (branch f U F R) as [t |]; intros [= <- _]; [| reflexivity].
  now destruct t.
Qed.

Lemma length_3 (l : list Z) :
  length l = 3%nat -> exists U F R, l = [U; F; R].
Proof.
  destruct l as [| U [| F [| R [| ? ?]]]]; try discriminate. eauto.
Qed.

Lemma Moves_loop_plan fuel cmds (self self' : BricKuberLib W) :
  length (CCO self) = 3%nat ->
  Moves_loop fuel cmds self = Done tt self' ->
  plan_Moves cmds (CCO self) (TurnTableTarget self)
  = Some (CCO self', TurnTableTarget self').
Proof.
  revert self. induction cmds as [| cmd rest IH]; intros self Hlen.
  - now intros [= <-].
  - cbn [Moves_loop plan_Moves]. rewrite bind_unfold.
    destruct (Move fuel cmd self) as [[] s1 | |] eqn:E1; [| discriminate ..].
    destruct (length_3 _ Hlen) as (U & F & R & HCCO).
    rewrite (Move_Done_plan fuel cmd U F R self s1 HCCO E1).
    apply IH. apply (plan_Move_triple cmd (CCO self) (TurnTableTarget self)
                       _ (TurnTableTarget s1)).
    now apply (Move_Done_plan fuel cmd U F R).
Qed.

Lemma Moves_Done_plan fuel cmds (self self' : BricKuberLib W) :
  length (CCO self) = 3%nat ->
  Moves fuel cmds self = Done tt self' ->
  plan_Moves (split cmds) (CCO self) (TurnTableTarget self)
  = Some (CCO self', TurnTableTarget self').
Proof.
  intros Hlen. unfold Moves. rewrite bind_unfold.
  destruct (Moves_loop fuel (split cmds) self) as [[] s1 | |] eqn:E1;
    [| discriminate ..].
  intros Hrest. rewrite (Moves_loop_plan fuel _ self s1 Hlen E1).
  assert (Hk : forall X (get : BricKuberLib W -> X),
             (forall w s, get (with_BP w s) = get s) -> get self' = get s1).
  { intros X get Hget. revert Hrest.
    intros Hrest. eapply (keeps_bind get); [apply keeps_attr | |].
    - intros position. apply keeps_run_to_position. exact Hget.
    - now rewrite Hrest. }
  now rewrite (Hk _ CCO), (Hk _ TurnTableTarget).
Qed.

(** X1: a completed [Move] on a triple leaves the orientation the row of
    the target face gives (the triple as it was when no row applies), and
    has lowered the cumulative turntable target by the degrees of the
    row's spins and by the degrees of the face turn. *)
Theorem Move_bookkeeping fuel cmd U F R (self self' : BricKuberLib W) :
  CCO self = [U; F; R] ->
  Move fuel cmd self = Done tt self' ->
  plan_Move cmd (CCO self) (TurnTableTarget self)
  = Some (CCO self', TurnTableTarget self').
Proof. apply Move_Done_plan. Qed.

(** X7: a completed [Moves] leaves the orientation and the cumulative
    turntable target that the bookkeeping of its tokens gives, token after
    token in the order of the string. *)
Theorem Moves_bookkeeping fuel cmds (self self' : BricKuberLib W) :
  length (CCO self) = 3%nat ->
  Moves fuel cmds self = Done tt self' ->
  plan_Moves (split cmds) (CCO self) (TurnTableTarget self)
  = Some (CCO self', TurnTableTarget self').
Proof. apply Moves_Done_plan. Qed.

End Bookkeeping.

(** ** What [Move] turns, and when it fails *)

Lemma OF_involutive (x : Z) : is_face x = true -> OF (OF x) = x.
Proof. intros Hx%is_face_range. now apply OF_opposite. Qed.

(** After the orientation update of a row, the face of the row is the
    opposite of the new up face: it lies on the turntable. *)
Lemma reoriented_bottom (t : Target) (U F R : Z) :
  is_face U = true -> is_face F = true -> is_face R = true ->
  exists U' F' R', reoriented t U F R = [U'; F'; R']
    /\ OF U' = target_face t U F R.
Proof.
  intros HU HF HR.
  destruct t; cbn [reoriented on_the_flip target_face];
    eexists _, _, _; (split; [reflexivity |]);
    rewrite ?OF_involutive; auto.
Qed.

Section BottomFace.
Context {W : Type} `{Rig W}.

(** X2: after a completed [Move] on a well-formed orientation the face
    that the token names is the opposite of the up face: the face that was
    turned is the one that lies on the turntable. *)
Theorem Move_turns_bottom_face fuel cmd f (self self' : BricKuberLib W) :
  well_oriented (CCO self) = true ->
  FaceToTurn cmd = Some f ->
  Move fuel cmd self = Done tt self' ->
  exists U' F' R', CCO self' = [U'; F'; R'] /\ OF U' = f.
Proof.
  intros Hwo Hf HMove.
  destruct (well_oriented_triple _ Hwo) as (U & F & R & HCCO).
  rewrite HCCO in Hwo.
  destruct (branch_exactly_one U F R f Hwo (FaceToTurn_is_face cmd f Hf))
    as (t & Hbranch & Honly).
  rewrite (Move_first_match fuel cmd f U F R self Hf HCCO), Hbranch in HMove.
  apply table_row_result in HMove as [_ ->].
  destruct (well_oriented_faces U F R Hwo) as (HU & HF & HR).
  destruct (reoriented_bottom t U F R HU HF HR) as (U' & F' & R' & -> & Hb).
  exists U', F', R'. split; [reflexivity |]. rewrite Hb. now apply Honly.
Qed.

End BottomFace.

Section Failures.
Context {W : Type} `{Rig W}.

(** The position of the turntable for the cumulative target. *)
Lemma TurnTablePosition_outcome (self : BricKuberLib W) :
  TurnTablePosition self
  = if TurnTablePinion self =? 0 then Raise ZeroDivisionError self
    else if overflows (TurnTableTarget self) self then Raise OverflowError self
    else Done (position_of (TurnTableTarget self) self) self.
Proof.
  unfold TurnTablePosition, truediv, overflows, position_of, mbind, M_bind,
    attr.
  destruct (TurnTablePinion self =? 0); [reflexivity |].
  destruct (huge _); reflexivity.
Qed.

Lemma overflows_with_TurnTableTarget target v (self : BricKuberLib W) :
  overflows target (with_TurnTableTarget v self) = overflows target self.
Proof. reflexivity. Qed.

Lemma overflows_gearing target (s s' : BricKuberLib W) :
  gearing s' = gearing s -> overflows target s' = overflows target s.
Proof. unfold gearing, overflows. now intros [= -> ->]. Qed.

Lemma position_of_gearing target (s s' : BricKuberLib W) :
  gearing s' = gearing s -> position_of target s' = position_of target s.
Proof. unfold gearing, position_of. now intros [= -> ->]. Qed.

(** When the position for a target is beyond the doubles. *)
Lemma overflows_bound target (self : BricKuberLib W) :
  TurnTablePinion self <> 0 ->
  overflows target self = true
  <-> float_limit * Z.abs (TurnTablePinion self)
      <= Z.abs target * Z.abs (TurnTableGear self).
Proof.
  intros Hp. unfold overflows. rewrite (huge_quotient _ _ Hp), Z.abs_mul.
  reflexivity.
Qed.

Lemma spin_unfold fuel deg overshoot (self : BricKuberLib W) :
  let o := if deg <? 0 then - overshoot else overshoot in
  let out := TurnTableTarget self - (deg + o) in
  let back := TurnTableTarget self - deg in
  spin fuel deg overshoot self
  = if TurnTablePinion self =? 0
    then Raise ZeroDivisionError (with_TurnTableTarget out self)
    else if overflows out self
    then Raise OverflowError (with_TurnTableTarget out self)
    else
      match run_to_position fuel MOTOR_TURN (Float (position_of out self)) 3
              (with_TurnTableTarget out self) with
      | Done _ s1 =>
          if negb (o =? 0) then
            if overflows back self
            then Raise OverflowError (with_TurnTableTarget back s1)
            else run_to_position fuel MOTOR_TURN
                   (Float (position_of back self)) 3
                   (with_TurnTableTarget back s1)
          else Done tt s1
      | Raise e s1 => Raise e s1
      | Blocked => Blocked
      end.
Proof.
  cbn zeta. unfold spin.
  generalize (if deg <? 0 then - overshoot else overshoot) as o. intros o.
  rewrite bind_unfold. cbn [attr]. rewrite bind_unfold.
  cbn [assign_TurnTableTarget]. rewrite bind_unfold.
  rewrite TurnTablePosition_outcome.
  cbn [TurnTablePinion TurnTableTarget with_TurnTableTarget].
  rewrite overflows_with_TurnTableTarget.
  destruct (Z.eqb_spec (TurnTablePinion self) 0) as [Hz | Hp]; [reflexivity |].
  destruct (overflows _ self) eqn:Eout; [reflexivity |].
  rewrite bind_unfold.
  change (position_of ?t (with_TurnTableTarget ?v self))
    with (position_of t self).
  destruct (run_to_position fuel MOTOR_TURN _ 3 _) as [[] s1 | e s1 |] eqn:E1;
    [| reflexivity ..].
  assert (Hg : gearing s1 = gearing self).
  { exact (keeps_Done gearing _ _ _ _
             (keeps_run_to_position gearing (fun _ _ => eq_refl) _ _ _ _) E1). }
  assert (Ht : TurnTableTarget s1
               = TurnTableTarget self - (deg + o)).
  { exact (keeps_Done TurnTableTarget _ _ _ _
             (keeps_run_to_position TurnTableTarget (fun _ _ => eq_refl)
                _ _ _ _) E1). }
  destruct (negb (o =? 0)); [| reflexivity].
  rewrite bind_unfold. cbn [attr]. rewrite bind_unfold.
  cbn [assign_TurnTableTarget]. rewrite bind_unfold.
  rewrite TurnTablePosition_outcome.
  cbn [TurnTablePinion TurnTableTarget with_TurnTableTarget].
  rewrite overflows_with_TurnTableTarget.
  change (position_of ?t (with_TurnTableTarget ?v s1))
    with (position_of t s1).
  rewrite Ht.
  replace (TurnTableTarget self - (deg + o) + o)
    with (TurnTableTarget self - deg) by lia.
  rewrite (overflows_gearing _ _ _ Hg), (position_of_gearing _ _ _ Hg).
  assert (Hp1 : TurnTablePinion s1 = TurnTablePinion self)
    by (now injection Hg).
  rewrite Hp1.
  destruct (Z.eqb_spec (TurnTablePinion self) 0); [contradiction |].
  destruct (overflows (TurnTableTarget self - deg) self); reflexivity.
Qed.

(** How [spin] can raise: for want of a pinion; with a position beyond
    the doubles on the way out; or, the way out made, with one on the way
    back. *)
Lemma spin_Raise fuel deg overshoot (self self' : BricKuberLib W) e :
  let o := if deg <? 0 then - overshoot else overshoot in
  let out := TurnTableTarget self - (deg + o) in
  let back := TurnTableTarget self - deg in
  spin fuel deg overshoot self = Raise e self' ->
  (e = ZeroDivisionError /\ TurnTablePinion self = 0
   /\ self' = with_TurnTableTarget out self)
  \/ (e = OverflowError /\ TurnTablePinion self <> 0
      /\ overflows out self = true
      /\ self' = with_TurnTableTarget out self)
  \/ (e = OverflowError /\ TurnTablePinion self <> 0 /\ o <> 0
      /\ overflows out self = false /\ overflows back self = true
      /\ exists s1,
           run_to_position fuel MOTOR_TURN (Float (position_of out self)) 3
             (with_TurnTableTarget out self) = Done tt s1
           /\ self' = with_TurnTableTarget back s1).
Proof.
  cbn zeta. rewrite spin_unfold.
  destruct (Z.eqb_spec (TurnTablePinion self) 0) as [Hz | Hp].
  { intros [= <- <-]. left. auto. }
  destruct (overflows _ self) eqn:Eout.
  { intros [= <- <-]. right. left. auto. }
  destruct (run_to_position fuel MOTOR_TURN _ 3 _) as [[] s1 | e1 s1 |] eqn:E1.
  - destruct (Z.eqb_spec (if deg <? 0 then - overshoot else overshoot) 0)
      as [Ho | Ho]; cbn [negb]; [discriminate |].
    destruct (overflows (TurnTableTarget self - deg) self) eqn:Eback.
    + intros [= <- <-]. right. right.
      do 5 (split; [assumption || reflexivity |]). now exists s1.
    + intros E2.
      now apply never_raises_run_to_position_MOTOR_TURN in E2.
  - now apply never_raises_run_to_position_MOTOR_TURN in E1.
  - discriminate.
Qed.

(** The same, with the sizes that make a position overflow. *)
Lemma spin_Raise_bound fuel deg overshoot (self self' : BricKuberLib W) e :
  spin fuel deg overshoot self = Raise e self' ->
  (e = ZeroDivisionError /\ TurnTablePinion self = 0)
  \/ (e = OverflowError /\ TurnTablePinion self <> 0
      /\ float_limit * Z.abs (TurnTablePinion self)
         <= (Z.abs (TurnTableTarget self) + Z.abs deg + Z.abs overshoot)
            * Z.abs (TurnTableGear self)).
Proof.
  intros E. apply spin_Raise in E.
  destruct E as [(-> & Hz & _)
               | [(-> & Hp & Hout & _) | (-> & Hp & _ & _ & Hback & _)]];
    [left; auto | right ..];
    (split; [reflexivity |]; split; [assumption |]).
  - apply (overflows_bound _ _ Hp) in Hout.
    etransitivity; [exact Hout |].
    apply Z.mul_le_mono_nonneg_r; [lia |].
    destruct (deg <? 0); lia.
  - apply (overflows_bound _ _ Hp) in Hback.
    etransitivity; [exact Hback |].
    apply Z.mul_le_mono_nonneg_r; lia.
Qed.

(** With a pinion and positions within the doubles, [spin] does not
    raise. *)
Lemma spin_in_range fuel deg overshoot (self : BricKuberLib W) :
  TurnTablePinion self <> 0 ->
  (Z.abs (TurnTableTarget self) + Z.abs deg + Z.abs overshoot)
  * Z.abs (TurnTableGear self)
  < float_limit * Z.abs (TurnTablePinion self) ->
  forall e self', spin fuel deg overshoot self <> Raise e self'.
Proof.
  intros Hp Hrange e self' E.
  apply spin_Raise_bound in E as [[_ Hz] | (_ & _ & Hle)];
    [contradiction | lia].
Qed.

Lemma keeps_gearing_perform fuel a :
  keeps (W := W) gearing (perform fuel a).
Proof.
  destruct a; cbn [perform];
    auto using keeps_flip, keeps_release, keeps_spin.
Qed.

Lemma keeps_gearing_perform_all fuel actions :
  keeps (W := W) gearing (perform_all fuel actions).
Proof.
  induction actions as [| a rest IH]; cbn [perform_all];
    [apply keeps_ret |].
  apply keeps_bind; [apply keeps_gearing_perform | intros _; exact IH].
Qed.

Lemma spin_degrees_swing actions : Z.abs (spin_degrees actions) <= swing actions.
Proof.
  induction actions as [| a rest IH]; [cbn; lia |].
  unfold spin_degrees, swing. cbn [foldr].
  fold (spin_degrees rest). fold (swing rest). destruct a; lia.
Qed.

Lemma swing_nonneg actions : 0 <= swing actions.
Proof. pose proof (spin_degrees_swing actions). lia. Qed.

Lemma perform_all_raises fuel actions (self self' : BricKuberLib W) e :
  perform_all fuel actions self = Raise e self' ->
  (e = ZeroDivisionError /\ TurnTablePinion self = 0)
  \/ (e = OverflowError /\ TurnTablePinion self <> 0
      /\ float_limit * Z.abs (TurnTablePinion self)
         <= (Z.abs (TurnTableTarget self) + swing actions)
            * Z.abs (TurnTableGear self)).
Proof.
  revert self. induction actions as [| a rest IH]; intros self;
    [discriminate |].
  cbn [perform_all]. rewrite bind_unfold.
  destruct (perform fuel a self) as [[] s1 | e1 s1 |] eqn:E1;
    [| | discriminate].
  - intros Hrest.
    pose proof (keeps_Done gearing _ _ _ _ (keeps_gearing_perform fuel a) E1)
      as [= Hp Hg].
    apply perform_TurnTableTarget in E1 as [Ht _].
    pose proof (spin_degrees_swing [a]) as Ha.
    pose proof (swing_nonneg rest) as Hr.
    assert (Hsw : swing (a :: rest) = swing [a] + swing rest).
    { unfold swing. cbn [foldr]. destruct a; lia. }
    apply IH in Hrest as [[-> Hz] | (-> & Hnz & Hle)];
      [left; split; [reflexivity | congruence] | right].
    split; [reflexivity |]. split; [congruence |].
    rewrite Hp, Hg in Hle. etransitivity; [exact Hle |].
    apply Z.mul_le_mono_nonneg_r; lia.
  - intros [= <- <-]. destruct a as [| | deg]; cbn [perform] in E1.
    + now apply never_raises_flip in E1.
    + now apply never_raises_release in E1.
    + apply spin_Raise_bound in E1 as [| (-> & Hp & Hle)];
        [now left | right].
      split; [reflexivity |]. split; [assumption |].
      etransitivity; [exact Hle |].
      pose proof (swing_nonneg rest).
      apply Z.mul_le_mono_nonneg_r; [lia |].
      unfold swing. cbn [foldr]. fold (swing rest). lia.
Qed.

Lemma face_turn_only_raises fuel deg (self self' : BricKuberLib W) e :
  face_turn_only fuel deg self = Raise e self' ->
  (e = ZeroDivisionError /\ TurnTablePinion self = 0)
  \/ (e = OverflowError /\ TurnTablePinion self <> 0
      /\ float_limit * Z.abs (TurnTablePinion self)
         <= (Z.abs (TurnTableTarget self) + Z.abs deg + 22)
            * Z.abs (TurnTableGear self)).
Proof.
  unfold face_turn_only. rewrite bind_unfold.
  destruct (grab fuel self) as [[] s1 | e1 s1 |] eqn:E1; [| | discriminate].
  - pose proof (keeps_Done gearing _ _ _ _
                  (keeps_grab gearing (fun _ _ => eq_refl) _) E1)
      as [= Hp Hg].
    apply keeps_TurnTableTarget_grab in E1 as [Ht _].
    intros E2. apply spin_Raise_bound in E2.
    rewrite Hp, Hg, Ht in E2. exact E2.
  - now apply never_raises_grab in E1.
Qed.

Lemma swing_reorientation t : swing (reorientation t) <= 180.
Proof. destruct t; cbn; lia. Qed.

Lemma DegreesToTurnFace_bound cmd : Z.abs (DegreesToTurnFace cmd) <= 180.
Proof.
  unfold DegreesToTurnFace.
  repeat match goal with
         | |- context [if ?b then _ else _] => destruct b
         end; lia.
Qed.

Lemma table_row_raises fuel t deg U F R (self self' : BricKuberLib W) e :
  Z.abs deg <= 180 ->
  table_row fuel t deg U F R self = Raise e self' ->
  (e = ZeroDivisionError /\ TurnTablePinion self = 0)
  \/ (e = OverflowError /\ TurnTablePinion self <> 0
      /\ float_limit * Z.abs (TurnTablePinion self)
         <= (Z.abs (TurnTableTarget self) + reach)
            * Z.abs (TurnTableGear self)).
Proof.
  intros Hdeg. unfold table_row. rewrite bind_unfold.
  pose proof (swing_reorientation t) as Hsw.
  pose proof (swing_nonneg (reorientation t)) as Hsw0.
  destruct (perform_all fuel (reorientation t) self) as [[] s1 | e1 s1 |]
    eqn:E1; [| | discriminate].
  - rewrite bind_unfold. cbn [assign_CCO]. intros E2.
    pose proof (keeps_Done gearing _ _ _ _
                  (keeps_gearing_perform_all fuel _) E1) as [= Hp Hg].
    apply perform_all_TurnTableTarget in E1 as [Ht _].
    pose proof (spin_degrees_swing (reorientation t)) as Hsd.
    apply face_turn_only_raises in E2.
    cbn [TurnTablePinion TurnTableGear TurnTableTarget with_CCO] in E2.
    rewrite Hp, Hg in E2.
    destruct E2 as [| (-> & Hnz & Hle)]; [now left | right].
    split; [reflexivity |]. split; [assumption |].
    etransitivity; [exact Hle |].
    apply Z.mul_le_mono_nonneg_r; unfold reach; lia.
  - intros [= <- <-].
    apply perform_all_raises in E1 as [| (-> & Hnz & Hle)];
      [now left | right].
    split; [reflexivity |]. split; [assumption |].
    etransitivity; [exact Hle |].
    apply Z.mul_le_mono_nonneg_r; unfold reach; lia.
Qed.

Lemma Move_Raise fuel cmd U F R (self self' : BricKuberLib W) e :
  CCO self = [U; F; R] ->
  Move fuel cmd self = Raise e self' ->
  (FaceToTurn cmd = None /\ e = UnboundLocalError "FaceToTurn"
   /\ self' = self)
  \/ (e = ZeroDivisionError /\ TurnTablePinion self = 0)
  \/ (e = OverflowError /\ TurnTablePinion self <> 0
      /\ float_limit * Z.abs (TurnTablePinion self)
         <= (Z.abs (TurnTableTarget self) + reach)
            * Z.abs (TurnTableGear self)).
Proof.
  intros HCCO. destruct (FaceToTurn cmd) as [f |] eqn:Hf.
  - rewrite (Move_first_match fuel cmd f U F R self Hf HCCO).
    pose proof (DegreesToTurnFace_bound cmd) as Hdeg.
    destruct (branch f U F R) as [t |]; intros E; right.
    + now apply table_row_raises in E.
    + apply face_turn_only_raises in E as [| (-> & Hnz & Hle)];
        [now left | right].
      split; [reflexivity |]. split; [assumption |].
      etransitivity; [exact Hle |].
      apply Z.mul_le_mono_nonneg_r; unfold reach; lia.
  - unfold Move. rewrite Hf. intros [= <- <-]. left. auto.
Qed.

(** X4: [spin] raises in three situations and no other.  With a pinion
    of no teeth it raises [ZeroDivisionError]; with a pinion, when the
    position of the target on the way out (the cumulative target lowered by
    the degrees and the signed overshoot) is beyond the doubles, it raises
    [OverflowError]; in both the cumulative target has already been
    lowered, nothing else has changed and no motor has been commanded.
    With an overshoot, the way out made, it raises [OverflowError] when the
    position of the target on the way back is beyond the doubles: the
    cumulative target is then lowered by the degrees.  A position is beyond
    the doubles when [float_limit * |pinion| <= |target * gear|]. *)
Theorem spin_raises fuel deg overshoot (self : BricKuberLib W) :
  let o := if deg <? 0 then - overshoot else overshoot in
  let out := TurnTableTarget self - (deg + o) in
  let back := TurnTableTarget self - deg in
  (TurnTablePinion self = 0 ->
   spin fuel deg overshoot self
   = Raise ZeroDivisionError (with_TurnTableTarget out self))
  /\ (TurnTablePinion self <> 0 -> overflows out self = true ->
      spin fuel deg overshoot self
      = Raise OverflowError (with_TurnTableTarget out self))
  /\ (TurnTablePinion self <> 0 -> o <> 0 ->
      overflows out self = false -> overflows back self = true ->
      forall s1,
        run_to_position fuel MOTOR_TURN (Float (position_of out self)) 3
          (with_TurnTableTarget out self) = Done tt s1 ->
        spin fuel deg overshoot self
        = Raise OverflowError (with_TurnTableTarget back s1))
  /\ (forall e self',
        spin fuel deg overshoot self = Raise e self' ->
        (e = ZeroDivisionError /\ TurnTablePinion self = 0
         /\ self' = with_TurnTableTarget out self)
        \/ (e = OverflowError /\ TurnTablePinion self <> 0
            /\ overflows out self = true
            /\ self' = with_TurnTableTarget out self)
        \/ (e = OverflowError /\ TurnTablePinion self <> 0 /\ o <> 0
            /\ overflows out self = false /\ overflows back self = true
            /\ exists s1,
                 run_to_position fuel MOTOR_TURN
                   (Float (position_of out self)) 3
                   (with_TurnTableTarget out self) = Done tt s1
                 /\ self' = with_TurnTableTarget back s1))
  /\ (forall target,
        TurnTablePinion self <> 0 ->
        overflows target self = true
        <-> float_limit * Z.abs (TurnTablePinion self)
            <= Z.abs (target * TurnTableGear self)).
Proof.
  cbn zeta. split; [| split; [| split; [| split]]].
  - intros Hz. rewrite spin_unfold.
    now rewrite (proj2 (Z.eqb_eq _ _) Hz).
  - intros Hp Hout. rewrite spin_unfold.
    rewrite (proj2 (Z.eqb_neq _ _) Hp). now rewrite Hout.
  - intros Hp Ho Hout Hback s1 E1. rewrite spin_unfold.
    rewrite (proj2 (Z.eqb_neq _ _) Hp), Hout, E1.
    rewrite (proj2 (Z.eqb_neq _ _) Ho). cbn [negb]. now rewrite Hback.
  - intros e self'. apply spin_Raise.
  - intros target Hp. rewrite Z.abs_mul. now apply overflows_bound.
Qed.

(** X3: [Move] on a triple raises in three cases only: for a token
    without a face letter, [UnboundLocalError] with the object as it was;
    with a pinion of no teeth, [ZeroDivisionError]; and with a pinion,
    [OverflowError], only when a cumulative target within the reach of a
    move (382 degrees) of the present one has a position beyond the
    doubles: [float_limit * |pinion| <= (|target| + 382) * |gear|]. *)
Theorem Move_raises fuel cmd U F R (self self' : BricKuberLib W) e :
  CCO self = [U; F; R] ->
  Move fuel cmd self = Raise e self' ->
  (FaceToTurn cmd = None /\ e = UnboundLocalError "FaceToTurn"
   /\ self' = self)
  \/ (e = ZeroDivisionError /\ TurnTablePinion self = 0)
  \/ (e = OverflowError /\ TurnTablePinion self <> 0
      /\ float_limit * Z.abs (TurnTablePinion self)
         <= (Z.abs (TurnTableTarget self) + 382)
            * Z.abs (TurnTableGear self)).
Proof. apply Move_Raise. Qed.

End Failures.

(** ** Strings of moves that run through *)

Section MoveCompletion.
Context {W : Type} `{Rig W}.








End MoveCompletion.

(** ** Strings of moves: blanks and bad tokens *)

Lemma split_from_blank (s : string) :
  forallb isspace (String.list_ascii_of_string s) = true ->
  split_from s "" = [].
Proof.
  induction s as [| c s IH]; [reflexivity |].
  cbn [String.list_ascii_of_string forallb split_from].
  intros [Hc Hs]%andb_prop. rewrite Hc. cbn. auto.
Qed.

Section MovesEdges.
Context {W : Type} `{Rig W}.

Lemma Moves_loop_app fuel l1 l2 (self : BricKuberLib W) :
  Moves_loop fuel (l1 ++ l2) self
  = match Moves_loop fuel l1 self with
    | Done _ s1 => Moves_loop fuel l2 s1
    | Raise e s1 => Raise e s1
    | Blocked => Blocked
    end.
Proof.
  revert self. induction l1 as [| cmd l1 IH]; intros self; [reflexivity |].
  cbn [app Moves_loop]. rewrite !bind_unfold.
  destruct (Move fuel cmd self) as [[] s1 | |]; [apply IH | reflexivity ..].
Qed.

(** X8: [Moves] stops at the first token without a face letter: the
    tokens before it are executed, then [UnboundLocalError] is raised; the
    tokens after it are not executed and the grip is not returned to
    rest. *)
Theorem Moves_stops_at_bad_token fuel cmds before bad rest
    (self : BricKuberLib W) :
  split cmds = before ++ bad :: rest ->
  FaceToTurn bad = None ->
  Moves fuel cmds self
  = match Moves_loop fuel before self with
    | Done _ s1 => Raise (UnboundLocalError "FaceToTurn") s1
    | Raise e s1 => Raise e s1
    | Blocked => Blocked
    end.
Proof.
  intros Hsplit Hbad. unfold Moves. rewrite bind_unfold, Hsplit.
  rewrite Moves_loop_app.
  destruct (Moves_loop fuel before self) as [[] s1 | |]; [| reflexivity ..].
  cbn [Moves_loop]. rewrite bind_unfold. unfold Move. now rewrite Hbad.
Qed.

(** X9: on an empty string, and on one of white space only, [Moves]
    executes no move: it only returns the grip to its rest position. *)
Theorem Moves_blank fuel cmds (self : BricKuberLib W) :
  forallb isspace (String.list_ascii_of_string cmds) = true ->
  Moves fuel cmds self
  = run_to_position fuel MOTOR_GRAB
      (Int (MOTOR_GRAB_POSITION_REST self)) 3 self.
Proof.
  intros Hblank. unfold Moves, split. now rewrite split_from_blank.
Qed.

End MovesEdges.

(** ** Homing and construction *)

Section Homing.
Context {W : Type} `{Rig W}.

Section HomingLoop.
Variable self : BricKuberLib W.

Lemma home_all_loop_step fuel k :
  homing_reading self (S k) <> homing_reading self k ->
  home_all_loop (S fuel) PORT_D (homing_reading self (S k))
    (homing_reading self k)
    (with_BP (homing_poll PORT_D (S k) (BP self)).2 self)
  = home_all_loop fuel PORT_D (homing_reading self (S (S k)))
      (homing_reading self (S k))
      (with_BP (homing_poll PORT_D (S (S k)) (BP self)).2 self).
Proof.
  intros Hne%Z.eqb_neq. cbn [home_all_loop]. rewrite Hne. cbn [negb].
  unfold homing_reading, mbind, M_bind, call, call_read.
  cbn [BP with_BP]. change (homing_poll PORT_D (S (S k)) (BP self))
    with (get_motor_encoder PORT_D
            (time_sleep (1 # 10) (homing_poll PORT_D (S k) (BP self)).2)).
  destruct (get_motor_encoder PORT_D
              (time_sleep (1 # 10) (homing_poll PORT_D (S k) (BP self)).2))
    as [v w]. reflexivity.
Qed.

Lemma home_all_loop_stalled fuel k :
  homing_reading self (S k) = homing_reading self k ->
  home_all_loop fuel PORT_D (homing_reading self (S k))
    (homing_reading self k)
    (with_BP (homing_poll PORT_D (S k) (BP self)).2 self)
  = Done (homing_reading self (S k))
      (with_BP (homing_poll PORT_D (S k) (BP self)).2 self).
Proof.
  intros Heq%Z.eqb_eq. destruct fuel; cbn [home_all_loop]; now rewrite Heq.
Qed.

Lemma home_all_loop_Done fuel k v self' :
  home_all_loop fuel PORT_D (homing_reading self (S k))
    (homing_reading self k)
    (with_BP (homing_poll PORT_D (S k) (BP self)).2 self)
  = Done v self' ->
  exists j, (j <= fuel)%nat
    /\ v = homing_reading self (S (k + j))
    /\ self' = with_BP (homing_poll PORT_D (S (k + j)) (BP self)).2 self
    /\ homing_reading self (S (k + j)) = homing_reading self (k + j)
    /\ forall i, (i < j)%nat ->
         homing_reading self (S (k + i)) <> homing_reading self (k + i).
Proof.
  revert k. induction fuel as [| fuel IH]; intros k.
  - destruct (Z.eq_dec (homing_reading self (S k)) (homing_reading self k))
      as [Heq | Hne].
    + rewrite (home_all_loop_stalled 0 k Heq). intros [= <- <-].
      exists 0%nat. rewrite Nat.add_0_r.
      split; [lia |]. do 3 (split; [auto |]). intros i Hi. lia.
    + cbn [home_all_loop]. apply Z.eqb_neq in Hne. now rewrite Hne.
  - destruct (Z.eq_dec (homing_reading self (S k)) (homing_reading self k))
      as [Heq | Hne].
    + rewrite (home_all_loop_stalled (S fuel) k Heq). intros [= <- <-].
      exists 0%nat. rewrite Nat.add_0_r.
      split; [lia |]. do 3 (split; [auto |]). intros i Hi. lia.
    + rewrite (home_all_loop_step fuel k Hne). intros Hrest.
      destruct (IH (S k) Hrest) as (j & Hj & -> & -> & Heq & Hbefore).
      exists (S j). rewrite <- !Nat.add_succ_comm.
      split; [lia |]. do 3 (split; [auto |]).
      intros [| i] Hi; [now rewrite Nat.add_0_r |].
      rewrite <- !Nat.add_succ_comm. apply Hbefore. lia.
Qed.

Lemma home_all_loop_Blocked fuel k :
  (forall i, (i <= fuel)%nat ->
     homing_reading self (S (k + i)) <> homing_reading self (k + i)) ->
  home_all_loop fuel PORT_D (homing_reading self (S k))
    (homing_reading self k)
    (with_BP (homing_poll PORT_D (S k) (BP self)).2 self)
  = Blocked.
Proof.
  revert k. induction fuel as [| fuel IH]; intros k Hne.
  - specialize (Hne 0%nat (Nat.le_refl _)). rewrite Nat.add_0_r in Hne.
    apply Z.eqb_neq in Hne. cbn [home_all_loop]. now rewrite Hne.
  - rewrite home_all_loop_step.
    + apply IH. intros i Hi. rewrite !Nat.add_succ_comm. apply Hne. lia.
    + specialize (Hne 0%nat (Nat.le_0_l _)). now rewrite Nat.add_0_r in Hne.
Qed.

(** [home_all] up to its loop, and from its loop on. *)
Lemma home_all_enters fuel :
  home_all fuel self
  = match home_all_loop fuel PORT_D (homing_reading self 1)
            (homing_reading self 0)
            (with_BP (homing_poll PORT_D 1 (BP self)).2 self) with
    | Done EncoderNow s1 =>
        (call (offset_motor_encoder PORT_D (EncoderNow - 25)) ;;
         position ← attr MOTOR_GRAB_POSITION_REST ;
         call (set_motor_position PORT_D (inject_Z position)) ;;
         encoder ← call_read (get_motor_encoder PORT_A) ;
         call (offset_motor_encoder PORT_A encoder) ;;
         assign_TurnTableTarget 0 ;;
         spin fuel 0 0) s1
    | Raise e s1 => Raise e s1
    | Blocked => Blocked
    end.
Proof.
  unfold home_all. at_MOTOR_PORTS.
  unfold homing_reading, mbind at 1 2 3 4 5, M_bind at 1 2 3 4 5, mret, M_ret,
    call at 1 2, call_read at 1 2.
  cbn [BP with_BP homing_poll].
  destruct (get_motor_encoder PORT_D (set_motor_power PORT_D 15 (BP self)))
    as [v0 w0]. cbn [fst snd BP with_BP].
  destruct (get_motor_encoder PORT_D (time_sleep (1 # 10) w0)) as [v1 w1].
  reflexivity.
Qed.

Lemma home_all_finish fuel k :
  (call (offset_motor_encoder PORT_D (homing_reading self k - 25)) ;;
   position ← attr MOTOR_GRAB_POSITION_REST ;
   call (set_motor_position PORT_D (inject_Z position)) ;;
   encoder ← call_read (get_motor_encoder PORT_A) ;
   call (offset_motor_encoder PORT_A encoder) ;;
   assign_TurnTableTarget 0 ;;
   spin fuel 0 0) (with_BP (homing_poll PORT_D k (BP self)).2 self)
  = spin fuel 0 0 (homed self k).
Proof.
  unfold homed, homing_reading, mbind at 1 2 3 4 5 6, M_bind at 1 2 3 4 5 6,
    call, call_read, attr, assign_TurnTableTarget.
  cbn [BP with_BP MOTOR_GRAB_POSITION_REST].
  destruct (homing_poll PORT_D k (BP self)) as [v w]. cbn [fst snd].
  destruct (get_motor_encoder PORT_A _) as [e w3]. reflexivity.
Qed.

End HomingLoop.

Lemma home_all_Done fuel (self self' : BricKuberLib W) :
  home_all fuel self = Done tt self' ->
  exists k, (k <= fuel)%nat
    /\ homing_reading self (S k) = homing_reading self k
    /\ (forall i, (i < k)%nat ->
          homing_reading self (S i) <> homing_reading self i)
    /\ spin fuel 0 0 (homed self (S k)) = Done tt self'
    /\ TurnTableTarget self' = 0.
Proof.
  - rewrite home_all_enters.
    destruct (home_all_loop fuel PORT_D _ _ _) as [v s1 | |] eqn:E1;
      [| discriminate ..].
    apply (home_all_loop_Done self fuel 0) in E1
      as (k & Hk & -> & -> & Heq & Hbefore).
    cbn [Nat.add] in *. rewrite home_all_finish. intros Hspin.
    exists k. do 3 (split; [assumption |]). split; [assumption |].
    rewrite (spin_TurnTableTarget fuel 0 0 _ _ Hspin).
    unfold homed. destruct (homing_poll PORT_D (S k) (BP self)) as [v w].
    destruct (get_motor_encoder PORT_A _) as [e w3]. reflexivity.
Qed.

(** X11: [home_all] returns only once two successive readings of the grip
    encoder, taken 100 ms apart under power 15, are equal, and then at the
    first such pair; it then sets the offsets and the cumulative target 0
    and ends with [spin(0)].  While the readings keep changing it does not
    return. *)
Theorem home_all_stalls fuel (self : BricKuberLib W) :
  (forall self',
      home_all fuel self = Done tt self' ->
      exists k, (k <= fuel)%nat
        /\ homing_reading self (S k) = homing_reading self k
        /\ (forall i, (i < k)%nat ->
              homing_reading self (S i) <> homing_reading self i)
        /\ spin fuel 0 0 (homed self (S k)) = Done tt self'
        /\ TurnTableTarget self' = 0)
  /\ ((forall i, (i <= fuel)%nat ->
         homing_reading self (S i) <> homing_reading self i) ->
      home_all fuel self = Blocked).
Proof.
  split.
  - intros self'. apply home_all_Done.
  - intros Hne. rewrite home_all_enters.
    now rewrite (home_all_loop_Blocked self fuel 0 Hne).
Qed.

(** *** What can raise in homing and construction *)

Lemma needs_pinion_never_raises {A : Type} (m : M W A) :
  never_raises m -> keeps TurnTablePinion m -> needs_pinion m.
Proof.
  intros Hnever Hkeeps. split; [assumption |].
  intros self e self' E. now apply Hnever in E.
Qed.

Lemma needs_pinion_bind {A B : Type} (m : M W A) (k : A -> M W B) :
  needs_pinion m -> (forall a, needs_pinion (k a)) -> needs_pinion (m ≫= k).
Proof.
  intros [Hkm Hrm] Hk. split.
  - apply keeps_bind; [assumption |]. intros a. apply Hk.
  - intros self e self'. rewrite bind_unfold.
    destruct (m self) as [a s1 | e1 s1 |] eqn:E; [| | discriminate].
    + intros E2. apply (Hk a) in E2 as [-> Hp]. split; [reflexivity |].
      rewrite <- Hp. symmetry. exact (keeps_Done _ _ _ _ _ Hkm E).
    + intros [= <- <-]. now apply Hrm in E.
Qed.

(** The position of the cumulative target 0 is 0: it is within the
    doubles. *)
Lemma overflows_0 (self : BricKuberLib W) :
  TurnTablePinion self <> 0 -> overflows 0 self = false.
Proof.
  intros Hp. destruct (overflows 0 self) eqn:E; [| reflexivity].
  apply (overflows_bound _ _ Hp) in E. unfold float_limit in E.
  assert (0 < 2 ^ 1024 - 2 ^ 970) by (vm_compute; reflexivity). nia.
Qed.

(** [self.TurnTableTarget = 0] followed by [self.spin(0)], as [home_all]
    ends. *)
Lemma needs_pinion_spin_0 fuel :
  needs_pinion (W := W) (assign_TurnTableTarget 0 ;; spin fuel 0 0).
Proof.
  split.
  - apply keeps_bind; [now apply keeps_assign_TurnTableTarget | intros _].
    now apply keeps_spin.
  - intros self e self'. rewrite bind_unfold. cbn [assign_TurnTableTarget].
    intros E. apply spin_Raise in E. cbn zeta in E.
    cbn [TurnTablePinion TurnTableTarget with_TurnTableTarget] in E.
    rewrite !overflows_with_TurnTableTarget in E.
    destruct E as [(-> & Hz & _)
                 | [(_ & Hp & Hout & _) | (_ & _ & Ho & _)]].
    + auto.
    + change (0 - (0 + (if 0 <? 0 then - 0 else 0))) with 0 in Hout.
      now rewrite (overflows_0 self Hp) in Hout.
    + now contradiction Ho.
Qed.

Lemma never_raises_home_all_loop fuel p EncoderNow EncoderLast :
  never_raises (W := W) (home_all_loop fuel p EncoderNow EncoderLast).
Proof.
  revert EncoderNow EncoderLast.
  induction fuel as [| fuel IH]; intros EncoderNow EncoderLast;
    cbn [home_all_loop]; destruct (negb (EncoderNow =? EncoderLast));
    try apply never_raises_ret; try apply never_raises_blocked.
  apply never_raises_bind; [apply never_raises_call | intros _].
  apply never_raises_bind; [apply never_raises_call_read | intros v].
  apply IH.
Qed.

Lemma needs_pinion_ret {A : Type} (a : A) : needs_pinion (mret a : M W A).
Proof.
  apply needs_pinion_never_raises; [apply never_raises_ret | apply keeps_ret].
Qed.

Lemma needs_pinion_attr {A : Type} (f : BricKuberLib W -> A) :
  needs_pinion (attr f).
Proof.
  apply needs_pinion_never_raises;
    [apply never_raises_attr | apply keeps_attr].
Qed.

Lemma needs_pinion_call (f : W -> W) : needs_pinion (call f).
Proof.
  apply needs_pinion_never_raises;
    [apply never_raises_call | now apply keeps_call].
Qed.

Lemma needs_pinion_call_read (f : W -> Z * W) : needs_pinion (call_read f).
Proof.
  apply needs_pinion_never_raises;
    [apply never_raises_call_read | now apply keeps_call_read].
Qed.

Lemma needs_pinion_assign_TurnTableTarget v :
  needs_pinion (W := W) (assign_TurnTableTarget v).
Proof.
  apply needs_pinion_never_raises.
  - intros self e self'. discriminate.
  - now apply keeps_assign_TurnTableTarget.
Qed.

Lemma needs_pinion_home_all_loop fuel p EncoderNow EncoderLast :
  needs_pinion (W := W) (home_all_loop fuel p EncoderNow EncoderLast).
Proof.
  apply needs_pinion_never_raises;
    [apply never_raises_home_all_loop | now apply keeps_home_all_loop].
Qed.

Lemma needs_pinion_home_all fuel : needs_pinion (W := W) (home_all fuel).
Proof.
  unfold home_all. at_MOTOR_PORTS.
  repeat lazymatch goal with
         | |- needs_pinion (mbind _ (assign_TurnTableTarget 0)) =>
             apply needs_pinion_spin_0
         | |- needs_pinion (mbind _ _) => apply needs_pinion_bind; [| intros ?]
         | |- needs_pinion (mret _) => apply needs_pinion_ret
         | |- needs_pinion (attr _) => apply needs_pinion_attr
         | |- needs_pinion (call _) => apply needs_pinion_call
         | |- needs_pinion (call_read _) => apply needs_pinion_call_read
         | |- needs_pinion (assign_TurnTableTarget _) =>
             apply needs_pinion_assign_TurnTableTarget
         | |- needs_pinion (home_all_loop _ _ _ _) =>
             apply needs_pinion_home_all_loop
         end.
Qed.

(** The constructor, for a style it knows: the limits of the turntable are
    set, then [home_all] runs. *)
Lemma init_known_style fuel robot_style dbg cco (bp : W) self0 :
  style_attributes robot_style dbg cco bp = Some self0 ->
  (robot_style = "NXT1" \/ robot_style = "EV3")
  /\ TurnTablePinion self0 <> 0
  /\ __init__ fuel robot_style dbg cco bp
     = match home_all fuel
               (with_BP (set_motor_limits PORT_A 0
                           (double
                              (inject_Z (500 * TurnTableGear self0)
                               / inject_Z (TurnTablePinion self0))) bp) self0)
       with
       | Done _ self' => Done self' (BP self')
       | Raise e self' => Raise e (BP self')
       | Blocked => Blocked
       end.
Proof.
  unfold __init__, style_attributes.
  destruct (String.eqb_spec robot_style "NXT1") as [-> | Hn].
  - intros [= <-]. split; [auto |]. split; [discriminate |]. reflexivity.
  - destruct (String.eqb_spec robot_style "EV3") as [-> | He];
      [| discriminate].
    intros [= <-]. split; [auto |]. split; [discriminate |]. reflexivity.
Qed.

(** X12: the constructor returns only for the styles NXT1 and EV3, with
    the debug flag and the orientation it was given and a cumulative target
    of 0; it raises only [ValueError], only for another style, and then
    before it has touched the rig. *)
Theorem init_outcome fuel robot_style dbg cco (bp : W) :
  (forall self' w,
      __init__ fuel robot_style dbg cco bp = Done self' w ->
      (robot_style = "NXT1" \/ robot_style = "EV3")
      /\ w = BP self' /\ debug self' = dbg /\ CCO self' = cco
      /\ TurnTableTarget self' = 0)
  /\ (forall e w,
        __init__ fuel robot_style dbg cco bp = Raise e w ->
        e = ValueError "Unsupported robot style" /\ w = bp
        /\ robot_style <> "NXT1" /\ robot_style <> "EV3").
Proof.
  destruct (style_attributes robot_style dbg cco bp) as [self0 |] eqn:Hstyle.
  - destruct (init_known_style fuel robot_style dbg cco bp self0 Hstyle)
      as (Hknown & Hpinion & ->).
    assert (Hd0 : debug self0 = dbg /\ CCO self0 = cco).
    { revert Hstyle. unfold style_attributes.
      destruct (String.eqb robot_style "NXT1");
        [| destruct (String.eqb robot_style "EV3"); [| discriminate]];
        intros [= <-]; auto. }
    destruct Hd0 as [Hd0 Hc0].
    split.
    + intros self' w.
      destruct (home_all fuel _) as [[] s1 | |] eqn:E; [| discriminate ..].
      intros [= <- <-]. split; [assumption |]. split; [reflexivity |].
      split; [| split].
      * rewrite <- Hd0.
        exact (keeps_Done debug _ _ _ _
                 (keeps_home_all debug (fun _ _ => eq_refl)
                    (fun _ _ => eq_refl) fuel) E).
      * rewrite <- Hc0.
        exact (keeps_Done CCO _ _ _ _
                 (keeps_home_all CCO (fun _ _ => eq_refl)
                    (fun _ _ => eq_refl) fuel) E).
      * now apply home_all_Done in E as (k & _ & _ & _ & _ & Ht).
    + intros e w.
      destruct (home_all fuel _) as [[] s1 | e1 s1 |] eqn:E;
        [discriminate | | discriminate].
      apply (proj2 (needs_pinion_home_all fuel)) in E as [_ Hzero].
      cbn in Hzero. contradiction.
  - split.
    + intros self' w. unfold __init__. now rewrite Hstyle.
    + intros e w. unfold __init__. rewrite Hstyle. intros [= <- <-].
      do 2 (split; [reflexivity |]).
      revert Hstyle. unfold style_attributes.
      destruct (String.eqb_spec robot_style "NXT1"); [discriminate |].
      destruct (String.eqb_spec robot_style "EV3"); [discriminate |]. auto.
Qed.

(** X5: [grab], [release] and [flip] never raise; [home_all] raises only
    [ZeroDivisionError], and only with a pinion of no teeth. *)
Theorem motor_layer_failures fuel (self self' : BricKuberLib W) e :
  grab fuel self <> Raise e self'
  /\ release fuel self <> Raise e self'
  /\ (forall release_after, flip fuel release_after self <> Raise e self')
  /\ (home_all fuel self = Raise e self' ->
      e = ZeroDivisionError /\ TurnTablePinion self = 0).
Proof.
  split; [apply never_raises_grab |].
  split; [apply never_raises_release |].
  split; [intros release_after; apply never_raises_flip |].
  apply (proj2 (needs_pinion_home_all fuel)).
Qed.

End Homing.

(** ** Where the grip is when its methods return *)

Section Grip.
Context {W : Type} `{Rig W}.

Lemma bind_Done {A B : Type} (m : M W A) (k : A -> M W B)
    (self self' : BricKuberLib W) (b : B) :
  (m ≫= k) self = Done b self' ->
  exists a s1, m self = Done a s1 /\ k a s1 = Done b self'.
Proof.
  rewrite bind_unfold. destruct (m self) as [a s1 | |]; [| discriminate ..].
  intros E. now exists a, s1.
Qed.

(** A completed wait ended at a settled reading. *)
Lemma run_to_position_Done fuel port p position tolerance
    (self self' : BricKuberLib W) :
  MOTOR_PORTS !! port = Some p ->
  run_to_position fuel port position tolerance self = Done tt self' ->
  exists k, (k <= fuel)%nat /\ self' = polled p (value position) self k
    /\ settled (reading p (value position) self k) position tolerance.
Proof.
  intros Hport. rewrite (run_to_position_enters _ _ _ _ _ _ Hport).
  intros E. apply run_to_position_loop_Done in E as (k & Hk & -> & Hin & _).
  exists k. cbn [Nat.add] in *. auto.
Qed.

(** For an [int] position, at a reading within the tolerance. *)
Lemma run_to_position_Int_Done fuel port p position tolerance
    (self self' : BricKuberLib W) :
  MOTOR_PORTS !! port = Some p ->
  run_to_position fuel port (Int position) tolerance self = Done tt self' ->
  exists k, (k <= fuel)%nat /\ self' = polled p (inject_Z position) self k
    /\ within (reading p (inject_Z position) self k) (inject_Z position)
         tolerance.
Proof.
  intros Hport E.
  apply (run_to_position_Done fuel port p) in E as (k & Hk & -> & Hin);
    [| assumption].
  exists k. split; [assumption |]. split; [reflexivity |].
  now apply settled_Int.
Qed.

Lemma release_Done fuel (self self' : BricKuberLib W) :
  release fuel self = Done tt self' ->
  exists k, (k <= fuel)%nat
    /\ self'
       = polled PORT_D (inject_Z (MOTOR_GRAB_POSITION_REST self))
           (with_BP (set_motor_limits PORT_D 0
                       (inject_Z (MOTOR_GRAB_SPEED_REST self)) (BP self)) self)
           k
    /\ within
         (reading PORT_D (inject_Z (MOTOR_GRAB_POSITION_REST self))
            (with_BP (set_motor_limits PORT_D 0
                        (inject_Z (MOTOR_GRAB_SPEED_REST self)) (BP self))
               self) k)
         (inject_Z (MOTOR_GRAB_POSITION_REST self)) 3.
Proof.
  unfold release. at_MOTOR_PORTS.
  unfold mbind at 1 2 3 4, M_bind at 1 2 3 4, mret, M_ret, attr, call.
  intros E. apply (run_to_position_Int_Done fuel MOTOR_GRAB PORT_D) in E
    as (k & Hk & -> & Hin); [| reflexivity].
  exists k. auto.
Qed.

Lemma keeps_grip_positions_Done {A : Type} (m : M W A)
    (s1 s2 : BricKuberLib W) (a : A) :
  keeps grip_positions m -> m s1 = Done a s2 ->
  grip_positions s2 = grip_positions s1.
Proof. apply keeps_Done. Qed.

(** X13: when [flip(release_after)] returns, the last reading of the grip
    encoder was within 3 of the position the grip was sent to last: the
    rest position if [release_after], the push position otherwise. *)
Theorem flip_settles fuel release_after (self self' : BricKuberLib W) :
  flip fuel release_after self = Done tt self' ->
  let position :=
    if release_after then MOTOR_GRAB_POSITION_REST self
    else MOTOR_GRAB_POSITION_FLIP_PUSH self in
  exists s0 k, (k <= fuel)%nat
    /\ self' = polled PORT_D (inject_Z position) s0 k
    /\ within (reading PORT_D (inject_Z position) s0 k) (inject_Z position) 3.
Proof.
  unfold flip. at_MOTOR_PORTS. intros E.
  apply bind_Done in E as (p1 & s1 & E1 & E).
  apply bind_Done in E as ([] & s2 & E2 & E).
  apply bind_Done in E as ([] & s3 & E3 & E).
  apply bind_Done in E as ([] & s4 & E4 & E).
  apply bind_Done in E as ([] & s5 & E5 & E).
  apply bind_Done in E as (p & s6 & E6 & E).
  apply bind_Done in E as (sp & s7 & E7 & E).
  apply bind_Done in E as ([] & s8 & E8 & E).
  apply bind_Done in E as (p2 & s9 & E9 & E).
  apply bind_Done in E as ([] & s10 & E10 & E).
  apply bind_Done in E as (p3 & s11 & E11 & E).
  apply bind_Done in E as ([] & s12 & E12 & E).
  pose proof (fun A (m : M W A) a sa sb Hk =>
                keeps_grip_positions_Done m sa sb a Hk) as K.
  assert (H12 : grip_positions s10 = grip_positions self).
  { rewrite (K _ _ _ _ _
               (keeps_run_to_position grip_positions (fun _ _ => eq_refl)
                  _ _ _ _) E10).
    rewrite (K _ _ _ _ _ (keeps_attr grip_positions _) E9).
    rewrite (K _ _ _ _ _
               (keeps_call grip_positions (fun _ _ => eq_refl) _) E8).
    rewrite (K _ _ _ _ _ (keeps_attr grip_positions _) E7).
    rewrite (K _ _ _ _ _ (keeps_ret grip_positions _) E6).
    rewrite (K _ _ _ _ _
               (keeps_call grip_positions (fun _ _ => eq_refl) _) E5).
    rewrite (K _ _ _ _ _
               (keeps_grab grip_positions (fun _ _ => eq_refl) _) E4).
    rewrite (K _ _ _ _ _
               (keeps_call grip_positions (fun _ _ => eq_refl) _) E3).
    rewrite (K _ _ _ _ _
               (keeps_run_to_position grip_positions (fun _ _ => eq_refl)
                  _ _ _ _) E2).
    now rewrite (K _ _ _ _ _ (keeps_attr grip_positions _) E1). }
  injection E11 as <- <-.
  apply (run_to_position_Int_Done fuel MOTOR_GRAB PORT_D) in E12
    as (k & Hk & -> & Hin); [| reflexivity].
  assert (Hpush : MOTOR_GRAB_POSITION_FLIP_PUSH s10
                  = MOTOR_GRAB_POSITION_FLIP_PUSH self)
    by (now injection H12).
  destruct release_after; cbn zeta.
  - apply release_Done in E as (k' & Hk' & -> & Hin').
    assert (Hrest : MOTOR_GRAB_POSITION_REST
                      (polled PORT_D
                         (inject_Z (MOTOR_GRAB_POSITION_FLIP_PUSH s10)) s10 k)
                    = MOTOR_GRAB_POSITION_REST self)
      by (now injection H12).
    rewrite Hrest in *. eexists _, k'. split; [assumption |].
    split; [reflexivity | exact Hin'].
  - injection E as <-. rewrite Hpush in *. exists s10, k. auto.
Qed.

End Grip.

(** ** Where the turntable is when [spin] returns *)

Section SpinSettles.
Context {W : Type} `{Rig W}.

(** X19: when [spin] returns, the cumulative target has gone down by the
    degrees, the pinion has teeth, and the position of that target, target
    times gear over pinion, is within the doubles; the position the
    turntable was sent to last is that quotient rounded to a double, and
    the last reading of the turntable encoder was settled for that
    position and tolerance 3: between the bounds as the interpreter
    computes them.  When the quotient is at most [2 ^ 52] in magnitude,
    that reading is within 4 of the exact quotient. *)
Theorem spin_settles fuel deg overshoot (self self' : BricKuberLib W) :
  spin fuel deg overshoot self = Done tt self' ->
  let quotient :=
    (inject_Z (TurnTableTarget self' * TurnTableGear self')
     / inject_Z (TurnTablePinion self'))%Q in
  let position := double quotient in
  TurnTableTarget self' = TurnTableTarget self - deg
  /\ TurnTablePinion self' <> 0
  /\ huge quotient = false
  /\ exists s0 k, (k <= fuel)%nat
       /\ self' = polled PORT_A position s0 k
       /\ settled (reading PORT_A position s0 k) (Float position) 3
       /\ ((Qabs quotient <= inject_Z (2 ^ 52))%Q ->
           within (reading PORT_A position s0 k) quotient 4).
Proof.
  intros E. cbn zeta.
  pose proof (keeps_Done gearing _ _ _ _
                (keeps_spin gearing (fun _ _ => eq_refl) (fun _ _ => eq_refl)
                   fuel deg overshoot) E) as [= Hp Hg].
  pose proof (spin_TurnTableTarget fuel deg overshoot _ _ E) as Ht.
  rewrite Hp, Hg, Ht. split; [reflexivity |].
  rewrite spin_unfold in E.
  set (o := if deg <? 0 then - overshoot else overshoot) in *.
  destruct (Z.eqb_spec (TurnTablePinion self) 0) as [| Hpinion];
    [discriminate |].
  split; [assumption |].
  destruct (overflows (TurnTableTarget self - (deg + o)) self) eqn:Eout;
    [discriminate |].
  destruct (run_to_position fuel MOTOR_TURN _ 3 _) as [[] s1 | |] eqn:E1;
    [| discriminate ..].
  apply (run_to_position_Done fuel MOTOR_TURN PORT_A) in E1
    as (k1 & Hk1 & Hs1 & Hin1); [| reflexivity].
  cbn [value] in Hs1, Hin1. unfold position_of in *.
  destruct (Z.eqb_spec o 0) as [Ho | Ho]; cbn [negb] in E.
  - injection E as <-. rewrite Ho, Z.add_0_r in *.
    split; [exact Eout |].
    eexists _, k1. split; [exact Hk1 |]. split; [exact Hs1 |].
    split; [exact Hin1 |]. intros Hq. now apply settled_double_close.
  - destruct (overflows (TurnTableTarget self - deg) self) eqn:Eback;
      [discriminate |].
    rename E into E2.
    apply (run_to_position_Done fuel MOTOR_TURN PORT_A) in E2
      as (k2 & Hk2 & Hs2 & Hin2); [| reflexivity].
    cbn [value] in Hs2, Hin2.
    split; [exact Eback |].
    eexists _, k2. split; [exact Hk2 |]. split; [exact Hs2 |].
    split; [exact Hin2 |]. intros Hq. now apply settled_double_close.
Qed.
End SpinSettles.

(** ** Joining strings of moves *)

Lemma split_from_space (s1 s2 word : string) (c : ascii) :
  isspace c = true ->
  split_from (s1 +:+ String c s2) word = split_from s1 word ++ split s2.
Proof.
  intros Hc. revert word. induction s1 as [| d s1 IH]; intros word.
  - change ("" +:+ String c s2) with (String c s2).
    cbn [split_from]. rewrite Hc. unfold split.
    now destruct (String.eqb word "").
  - change (String d s1 +:+ String c s2)
      with (String d (s1 +:+ String c s2)).
    cbn [split_from]. destruct (isspace d).
    + destruct (String.eqb word ""); [apply IH |].
      cbn [app]. f_equal. apply IH.
    + apply IH.
Qed.

Section MovesJoin.
Context {W : Type} `{Rig W}.

(** X10: executing two strings joined by a white space character is
    executing the tokens of the first and then the second string: the grip
    returns to rest once, at the end. *)
Theorem Moves_joined fuel s1 s2 (c : ascii) (self : BricKuberLib W) :
  isspace c = true ->
  Moves fuel (s1 +:+ String c s2) self
  = match Moves_loop fuel (split s1) self with
    | Done _ s => Moves fuel s2 s
    | Raise e s => Raise e s
    | Blocked => Blocked
    end.
Proof.
  intros Hc. unfold Moves at 1, split at 1.
  rewrite (split_from_space s1 s2 "" c Hc). fold (split s1).
  rewrite bind_unfold, Moves_loop_app.
  destruct (Moves_loop fuel (split s1) self) as [[] s | |]; reflexivity.
Qed.

End MovesJoin.

(** ** Reading the cube: what a scan changes *)

Section ScanFrame.
Context {W : Type} `{Rig W} `{Host W}.

Lemma bindS_unfold {A B : Type} (m : MS W A) (k : A -> MS W B) (s : Scanner W) :
  (m ≫= k) s =
  match m s with
  | Done a s' => k a s'
  | Raise e s' => Raise e s'
  | Blocked => Blocked
  end.
Proof. reflexivity. Qed.

Lemma with_BP_twice (w w' : W) (l : BricKuberLib W) :
  with_BP w (with_BP w' l) = with_BP w l.
Proof. reflexivity. Qed.

Lemma with_BP_same (l : BricKuberLib W) : with_BP (BP l) l = l.
Proof. destruct l; reflexivity. Qed.

Lemma untouched_refl (E : nat -> Prop) (s : Scanner W) :
  shaped (rgb_values s) -> untouched E s s.
Proof.
  intros Hs. split; [| split]; [| exact Hs | reflexivity].
  exists (BP (lib s)). symmetry. apply with_BP_same.
Qed.

Lemma untouched_trans (E : nat -> Prop) (s s' s'' : Scanner W) :
  untouched E s s' -> untouched E s' s'' -> untouched E s s''.
Proof.
  intros ([w Hw] & _ & H1) ([w' Hw'] & Hs & H2).
  split; [| split]; [| exact Hs |].
  - exists w'. rewrite Hw', Hw. apply with_BP_twice.
  - intros k Hk. rewrite (H2 k Hk). apply H1, Hk.
Qed.

Lemma untouched_mono (E E' : nat -> Prop) (s s' : Scanner W) :
  (forall k, E k -> E' k) -> untouched E s s' -> untouched E' s s'.
Proof.
  intros Hsub (Hw & Hs & H1). split; [| split]; [exact Hw | exact Hs |].
  intros k Hk. apply H1. intros HE. apply Hk, Hsub, HE.
Qed.

Lemma writes_only_mono {A : Type} (E E' : nat -> Prop) (m : MS W A) :
  (forall k, E k -> E' k) -> writes_only E m -> writes_only E' m.
Proof.
  intros Hsub Hm s s' Hs Hout.
  exact (untouched_mono E E' s s' Hsub (Hm s s' Hs Hout)).
Qed.

Lemma writes_only_bind {A B : Type} (E : nat -> Prop) (m : MS W A)
    (k : A -> MS W B) :
  writes_only E m -> (forall a, writes_only E (k a)) ->
  writes_only E (m ≫= k).
Proof.
  intros Hm Hk s s' Hs. rewrite bindS_unfold.
  pose proof (Hm s) as Hm'.
  destruct (m s) as [a s1 | e s1 |]; cbn [state_after] in *.
  - intros Hout. pose proof (Hm' s1 Hs eq_refl) as H1.
    apply (untouched_trans E s s1 s'); [exact H1 |].
    apply (Hk a s1 s'); [apply H1 | exact Hout].
  - intros Hout. apply Hm'; [exact Hs | exact Hout].
  - discriminate.
Qed.

Lemma writes_only_ret {A : Type} (E : nat -> Prop) (a : A) :
  writes_only E (mret a : MS W A).
Proof.
  intros s s' Hs Hout. injection Hout as <-. apply untouched_refl, Hs.
Qed.

Lemma writes_only_raiseS {A : Type} (E : nat -> Prop) (e : exn) :
  writes_only E (raiseS e : MS W A).
Proof.
  intros s s' Hs Hout. injection Hout as <-. apply untouched_refl, Hs.
Qed.

Lemma writes_only_shell (E : nat -> Prop) (cmd : string) :
  writes_only E (shell cmd).
Proof.
  intros s s' Hs. unfold shell.
  destruct (getstatusoutput cmd (BP (lib s))) as [r w]. cbn [state_after].
  intros Hout. injection Hout as <-.
  split; [| split]; [| exact Hs | reflexivity].
  exists w. reflexivity.
Qed.

Lemma writes_only_item {A : Type} (E : nat -> Prop) (l : list A) (i : nat) :
  writes_only E (item l i : MS W A).
Proof.
  unfold item. destruct (l !! i).
  - apply writes_only_ret.
  - apply writes_only_raiseS.
Qed.

Lemma writes_only_int_of (E : nat -> Prop) (x : string) :
  writes_only E (int_of x).
Proof.
  unfold int_of. destruct (int x).
  - apply writes_only_ret.
  - apply writes_only_raiseS.
Qed.

Lemma writes_only_localS {A : Type} (E : nat -> Prop) (name : string)
    (v : option A) :
  writes_only E (localS name v : MS W A).
Proof.
  destruct v.
  - apply writes_only_ret.
  - apply writes_only_raiseS.
Qed.

Lemma writes_only_setitem (E : nat -> Prop) (i : Z) (v : nat) (n : Z) :
  (forall k, subscript 54 i = Some k -> E k) ->
  writes_only E (rgb_values_setitem i v n : MS W unit).
Proof.
  intros HE s s' Hs. unfold rgb_values_setitem.
  destruct Hs as [Hlen Hrows]. rewrite Hlen.
  destruct (subscript 54 i) as [k |] eqn:Hk;
    [| intros Hout; injection Hout as <-; apply untouched_refl; now split].
  destruct (rgb_values s !! k) as [row |] eqn:Hrow;
    [| intros Hout; injection Hout as <-; apply untouched_refl; now split].
  destruct (v <? length row)%nat eqn:Hv;
    [| intros Hout; injection Hout as <-; apply untouched_refl; now split].
  cbn [state_after]. intros Hout. injection Hout as <-.
  split; [| split].
  - exists (BP (lib s)). cbn. symmetry. apply with_BP_same.
  - cbn. split.
    + rewrite length_insert. exact Hlen.
    + apply Forall_insert; [exact Hrows |].
      rewrite length_insert.
      exact (proj1 (Forall_lookup _ _) Hrows k row Hrow).
  - intros k' Hk'. cbn. apply list_lookup_insert_ne.
    intros ->. apply Hk', HE. reflexivity.
Qed.

Lemma writes_only_strip_groups (E : nat -> Prop) (cs : list nat)
    (raw_results : list string) :
  writes_only E (strip_groups cs raw_results : MS W _).
Proof.
  revert raw_results. induction cs as [| c cs IH]; intros raw_results.
  - apply writes_only_ret.
  - cbn [strip_groups].
    apply writes_only_bind; [apply writes_only_item |]. intros x.
    apply writes_only_bind; [apply writes_only_item |]. intros y.
    apply IH.
Qed.

Lemma writes_only_bind_item {A B : Type} (E : nat -> Prop) (l : list A)
    (i : nat) (k : A -> MS W B) :
  (forall x, l !! i = Some x -> writes_only E (k x)) ->
  writes_only E (item l i ≫= k).
Proof.
  intros Hk s s' Hs. rewrite bindS_unfold. unfold item.
  destruct (l !! i) as [x |] eqn:Hx.
  - apply (Hk x eq_refl s s' Hs).
  - intros Hout. injection Hout as <-. apply untouched_refl, Hs.
Qed.

Lemma writes_only_bind_localS {A B : Type} (E : nat -> Prop) (name : string)
    (v : option A) (k : A -> MS W B) :
  (forall a, v = Some a -> writes_only E (k a)) ->
  writes_only E (localS name v ≫= k).
Proof.
  intros Hk s s' Hs. rewrite bindS_unfold.
  destruct v as [a |].
  - apply (Hk a eq_refl s s' Hs).
  - intros Hout. injection Hout as <-. apply untouched_refl, Hs.
Qed.

Lemma writes_only_store_values (E : nat -> Prop) (vs : list nat)
    (numbers : option (list Z)) (c : nat) (vals : list string) :
  (forall ns n k, numbers = Some ns -> ns !! c = Some n ->
     subscript 54 (n - 1) = Some k -> E k) ->
  writes_only E (store_values vs numbers c vals : MS W unit).
Proof.
  intros HE. induction vs as [| v vs IH].
  - apply writes_only_ret.
  - cbn [store_values].
    apply writes_only_bind_item. intros x _.
    apply writes_only_bind; [apply writes_only_int_of |]. intros n.
    apply writes_only_bind_localS. intros ns Hns.
    apply writes_only_bind_item. intros k Hk.
    apply writes_only_bind; [| intros _; exact IH].
    apply writes_only_setitem. intros k' Hk'.
    exact (HE ns k k' Hns Hk Hk').
Qed.

Lemma writes_only_store_groups (E : nat -> Prop) (cs : list nat)
    (numbers : option (list Z)) (raw_results : list string) :
  (forall ns k, numbers = Some ns -> rows_of ns k -> E k) ->
  writes_only E (store_groups cs numbers raw_results : MS W unit).
Proof.
  intros HE. induction cs as [| c cs IH].
  - apply writes_only_ret.
  - cbn [store_groups].
    apply writes_only_bind_item. intros x _.
    apply writes_only_bind; [| intros _; exact IH].
    apply writes_only_store_values. intros ns n k Hns Hn Hk.
    apply (HE ns k Hns). exists n. split; [| exact Hk].
    apply (list_elem_of_lookup_2 ns c n Hn).
Qed.

Lemma writes_only_CameraReadFaceColors (face : string) :
  writes_only (face_rows face) (CameraReadFaceColors face).
Proof.
  unfold CameraReadFaceColors.
  apply writes_only_bind; [apply writes_only_shell |]. intros _.
  apply writes_only_bind; [apply writes_only_shell |]. intros r.
  apply writes_only_bind_item. intros raw_result _.
  apply writes_only_bind_item. intros raw_result' _.
  apply writes_only_bind; [apply writes_only_strip_groups |].
  intros raw_results.
  apply writes_only_store_groups. intros ns k Hns Hk.
  unfold face_rows. rewrite Hns. exact Hk.
Qed.

Lemma numbers_of_facelets (face : string) (ns : list Z) :
  numbers_of face = Some ns ->
  length ns = 9%nat /\ Forall (fun n => 1 <= n <= 54) ns.
Proof.
  unfold numbers_of.
  repeat (destruct (String.eqb face _);
          [intros Hns; injection Hns as <-; split;
           [reflexivity | repeat constructor; lia] |]).
  discriminate.
Qed.

Lemma subscript_facelet (n : Z) (k : nat) :
  1 <= n <= 54 -> subscript 54 (n - 1) = Some k -> Z.of_nat k = n - 1.
Proof.
  intros Hn. unfold subscript.
  destruct (Z.leb_spec 0 (n - 1)); [| lia].
  destruct (Z.ltb_spec (n - 1) (Z.of_nat 54)); [| lia].
  cbn [andb]. intros Hk. injection Hk as <-. lia.
Qed.

(** X14: reading a face changes the rig and the rows of the colour table
    that belong to the facelets of that face, and nothing else: the table
    keeps its shape and its other rows, and the calibration, the turntable
    target and the orientation triple stay, whether the call returns or
    raises. *)
Theorem CameraReadFaceColors_frame (face : string) (s s' : Scanner W) :
  shaped (rgb_values s) ->
  state_after (CameraReadFaceColors face s) = Some s' ->
  shaped (rgb_values s')
  /\ lib s' = with_BP (BP (lib s')) (lib s)
  /\ forall k,
       (forall ns n, numbers_of face = Some ns -> n ∈ ns ->
          Z.of_nat k <> n - 1) ->
       rgb_values s' !! k = rgb_values s !! k.
Proof.
  intros Hs Hout.
  destruct (writes_only_CameraReadFaceColors face s s' Hs Hout)
    as ([w Hw] & Hs' & Hrows).
  split; [exact Hs' |]. split.
  - rewrite Hw. reflexivity.
  - intros k Hk. apply Hrows. unfold face_rows.
    destruct (numbers_of face) as [ns |] eqn:Hns; [| tauto].
    intros (n & Hn & Hsub). apply (Hk ns n eq_refl Hn).
    apply subscript_facelet; [| exact Hsub].
    destruct (numbers_of_facelets face ns Hns) as [_ Hall].
    exact (proj1 (Forall_forall _ _) Hall n Hn).
Qed.
End ScanFrame.

Section ScanOutcome.
Context {W : Type} `{Rig W} `{Host W}.

Lemma raises_within_bind {A B : Type} (P : exn -> Prop) (m : MS W A)
    (k : A -> MS W B) :
  raises_within P m -> (forall a, raises_within P (k a)) ->
  raises_within P (m ≫= k).
Proof.
  intros Hm Hk s e s'. rewrite bindS_unfold.
  destruct (m s) as [a s1 | e1 s1 |] eqn:E.
  - apply Hk.
  - intros Hout. injection Hout as -> _. exact (Hm s e s1 E).
  - discriminate.
Qed.

Lemma raises_within_ret {A : Type} (P : exn -> Prop) (a : A) :
  raises_within P (mret a : MS W A).
Proof. intros s e s' Hout. discriminate Hout. Qed.

Lemma raises_within_item {A : Type} (l : list A) (i : nat) :
  raises_within malformed (item l i : MS W A).
Proof.
  intros s e s'. unfold item. destruct (l !! i); [discriminate |].
  intros Hout. injection Hout as <- _. left. reflexivity.
Qed.

Lemma raises_within_int_of (x : string) :
  raises_within malformed (int_of x).
Proof.
  intros s e s'. unfold int_of. destruct (int x); [discriminate |].
  intros Hout. injection Hout as <- _. right. reflexivity.
Qed.

Lemma raises_within_setitem (i : Z) (v : nat) (n : Z) :
  raises_within malformed (rgb_values_setitem i v n : MS W unit).
Proof.
  intros s e s'. unfold rgb_values_setitem.
  destruct (subscript _ i) as [k |];
    [| intros Hout; injection Hout as <- _; left; reflexivity].
  destruct (rgb_values s !! k) as [row |];
    [| intros Hout; injection Hout as <- _; left; reflexivity].
  destruct (v <? length row)%nat; [discriminate |].
  intros Hout; injection Hout as <- _; left; reflexivity.
Qed.

Lemma raises_within_shell (P : exn -> Prop) (cmd : string) :
  raises_within P (shell cmd).
Proof.
  intros s e s'. unfold shell.
  destruct (getstatusoutput cmd (BP (lib s))). discriminate.
Qed.

Lemma raises_within_strip_groups (cs : list nat) (raw_results : list string) :
  raises_within malformed (strip_groups cs raw_results : MS W _).
Proof.
  revert raw_results. induction cs as [| c cs IH]; intros raw_results.
  - apply raises_within_ret.
  - cbn [strip_groups].
    apply raises_within_bind; [apply raises_within_item |]. intros x.
    apply raises_within_bind; [apply raises_within_item |]. intros y.
    apply IH.
Qed.

Lemma raises_within_store_values (vs : list nat) (ns : list Z) (c : nat)
    (vals : list string) :
  raises_within malformed (store_values vs (Some ns) c vals : MS W unit).
Proof.
  induction vs as [| v vs IH].
  - apply raises_within_ret.
  - cbn [store_values].
    apply raises_within_bind; [apply raises_within_item |]. intros x.
    apply raises_within_bind; [apply raises_within_int_of |]. intros n.
    apply raises_within_bind; [apply raises_within_ret |]. intros ns'.
    apply raises_within_bind; [apply raises_within_item |]. intros k.
    apply raises_within_bind; [apply raises_within_setitem |]. intros _.
    exact IH.
Qed.

Lemma raises_within_store_groups (cs : list nat) (ns : list Z)
    (raw_results : list string) :
  raises_within malformed (store_groups cs (Some ns) raw_results : MS W unit).
Proof.
  induction cs as [| c cs IH].
  - apply raises_within_ret.
  - cbn [store_groups].
    apply raises_within_bind; [apply raises_within_item |]. intros x.
    apply raises_within_bind; [apply raises_within_store_values |].
    intros _. exact IH.
Qed.

Lemma raises_within_CameraReadFaceColors (face : string) (ns : list Z) :
  numbers_of face = Some ns ->
  raises_within malformed (CameraReadFaceColors face).
Proof.
  intros Hns. unfold CameraReadFaceColors. rewrite Hns.
  apply raises_within_bind; [apply raises_within_shell |]. intros _.
  apply raises_within_bind; [apply raises_within_shell |]. intros r.
  apply raises_within_bind; [apply raises_within_item |]. intros x.
  apply raises_within_bind; [apply raises_within_item |]. intros y.
  apply raises_within_bind; [apply raises_within_strip_groups |].
  intros raw_results. apply raises_within_store_groups.
Qed.

Lemma triple_bind {A B : Type} (P : Scanner W -> Prop) (m : MS W A)
    (Q : A -> Scanner W -> Prop) (k : A -> MS W B)
    (Q' : B -> Scanner W -> Prop) (R : exn -> Scanner W -> Prop) (Bl : Prop) :
  triple P m Q R Bl -> (forall a, triple (Q a) (k a) Q' R Bl) ->
  triple P (m ≫= k) Q' R Bl.
Proof.
  intros Hm Hk s Hs. rewrite bindS_unfold. specialize (Hm s Hs).
  destruct (m s) as [a s1 | e s1 |].
  - exact (Hk a s1 Hm).
  - exact Hm.
  - exact Hm.
Qed.

Lemma triple_on_lib_quiet (c0 : list Z) (p0 : Z * Z) (t bound : Z)
    (m : M W unit) :
  keeps CCO m -> keeps gearing m -> keeps TurnTableTarget m ->
  never_raises m ->
  triple (scan_invariant c0 p0 t) (on_lib m)
    (fun _ => scan_invariant c0 p0 t) (scan_failed c0 p0 bound) True.
Proof.
  intros HC HP HT Hnever s (Hc & Hp & Ht & Hs). unfold on_lib.
  destruct (m (lib s)) as [a l | e l |] eqn:E.
  - split; [| split; [| split]]; cbn.
    + rewrite (keeps_Done CCO m _ _ _ HC E). exact Hc.
    + rewrite (keeps_Done gearing m _ _ _ HP E). exact Hp.
    + rewrite (keeps_Done TurnTableTarget m _ _ _ HT E). exact Ht.
    + exact Hs.
  - destruct (Hnever _ _ _ E).
  - exact I.
Qed.

Lemma triple_release (c0 : list Z) (p0 : Z * Z) (t bound : Z) (fuel : nat) :
  triple (scan_invariant c0 p0 t) (on_lib (release fuel))
    (fun _ => scan_invariant c0 p0 t) (scan_failed c0 p0 bound) True.
Proof.
  apply triple_on_lib_quiet.
  - apply (keeps_release CCO). reflexivity.
  - apply (keeps_release gearing). reflexivity.
  - apply (keeps_release TurnTableTarget). reflexivity.
  - apply never_raises_release.
Qed.

Lemma triple_flip (c0 : list Z) (p0 : Z * Z) (t bound : Z) (fuel : nat)
    (b : bool) :
  triple (scan_invariant c0 p0 t) (on_lib (flip fuel b))
    (fun _ => scan_invariant c0 p0 t) (scan_failed c0 p0 bound) True.
Proof.
  apply triple_on_lib_quiet.
  - apply (keeps_flip CCO). reflexivity.
  - apply (keeps_flip gearing). reflexivity.
  - apply (keeps_flip TurnTableTarget). reflexivity.
  - apply never_raises_flip.
Qed.

Lemma triple_spin (c0 : list Z) (p0 : Z * Z) (t bound : Z) (fuel : nat)
    (deg : Z) :
  Z.abs (t - deg) <= bound ->
  triple (scan_invariant c0 p0 t) (on_lib (spin fuel deg 0))
    (fun _ => scan_invariant c0 p0 (t - deg)) (scan_failed c0 p0 bound) True.
Proof.
  intros Hbound s (Hc & Hp & Ht & Hs). unfold on_lib.
  destruct (spin fuel deg 0 (lib s)) as [[] l | e l |] eqn:E.
  - split; [| split; [| split]]; cbn.
    + rewrite <- Hc.
      apply (keeps_Done CCO _ _ _ _
               (keeps_spin CCO (fun _ _ => eq_refl) (fun _ _ => eq_refl)
                  fuel deg 0) E).
    + rewrite <- Hp.
      apply (keeps_Done gearing _ _ _ _
               (keeps_spin gearing (fun _ _ => eq_refl)
                  (fun _ _ => eq_refl) fuel deg 0) E).
    + rewrite (spin_TurnTableTarget fuel deg 0 _ _ E), Ht. reflexivity.
    + exact Hs.
  - assert (Hstate : CCO l = CCO (lib s)).
    { apply (keeps_Raise CCO _ _ _ _
               (keeps_spin CCO (fun _ _ => eq_refl) (fun _ _ => eq_refl)
                  fuel deg 0) E). }
    split; [| split]; cbn; [congruence | exact Hs |].
    unfold scan_failure. rewrite <- Hp. cbn [gearing fst snd].
    pose proof (spin_Raise fuel deg 0 _ _ _ E) as Hkind. cbn zeta in Hkind.
    assert (Ho : (if deg <? 0 then - 0 else 0) = 0)
      by (destruct (deg <? 0); reflexivity).
    rewrite Ho, Z.add_0_r in Hkind.
    destruct Hkind as [(-> & Hz & _)
                     | [(-> & Hnz & Hout & _) | (_ & _ & Hno & _)]];
      [now left | right; left | contradiction].
    split; [reflexivity |]. split; [assumption |].
    apply (overflows_bound _ _ Hnz) in Hout. rewrite Ht in Hout.
    etransitivity; [exact Hout |].
    apply Z.mul_le_mono_nonneg_r; lia.
  - exact I.
Qed.

Lemma triple_CameraReadFaceColors (c0 : list Z) (p0 : Z * Z) (t bound : Z)
    (face : string) (ns : list Z) :
  numbers_of face = Some ns ->
  triple (scan_invariant c0 p0 t) (CameraReadFaceColors face)
    (fun _ => scan_invariant c0 p0 t) (scan_failed c0 p0 bound) True.
Proof.
  intros Hns s (Hc & Hp & Ht & Hs).
  pose proof (writes_only_CameraReadFaceColors face s) as Hframe.
  pose proof (raises_within_CameraReadFaceColors face ns Hns s) as Hkind.
  destruct (CameraReadFaceColors face s) as [[] s' | e s' |].
  - destruct (Hframe s' Hs eq_refl) as ([w Hw] & Hs' & _).
    split; [| split; [| split]]; rewrite ?Hw; cbn; assumption.
  - destruct (Hframe s' Hs eq_refl) as ([w Hw] & Hs' & _).
    split; [| split]; rewrite ?Hw; cbn; [assumption .. |].
    right. right. exact (Hkind e s' eq_refl).
  - exact I.
Qed.
Lemma with_lib_same (s : Scanner W) : with_lib (lib s) s = s.
Proof. destruct s; reflexivity. Qed.

Lemma shaped_cell (v : list (list Z)) (k j : nat) :
  shaped v -> (k < 54)%nat -> (j < 3)%nat ->
  exists row x, v !! k = Some row /\ row !! j = Some x.
Proof.
  intros [Hlen Hrows] Hk Hj.
  destruct (lookup_lt_is_Some_2 v k) as [row Hrow]; [lia |].
  pose proof (proj1 (Forall_lookup _ _) Hrows k row Hrow) as Hrowlen.
  cbn in Hrowlen.
  destruct (lookup_lt_is_Some_2 row j) as [x Hx]; [lia |].
  exists row, x. split; assumption.
Qed.

Lemma rgb_values_getitem_shaped (c v : nat) (s : Scanner W) :
  shaped (rgb_values s) -> (c < 54)%nat -> (v < 3)%nat ->
  exists x, rgb_values_getitem c v s = Done x s.
Proof.
  intros Hs Hc Hv.
  destruct (shaped_cell _ c v Hs Hc Hv) as (row & x & Hrow & Hx).
  exists x. unfold rgb_values_getitem. rewrite bindS_unfold.
  unfold item. rewrite Hrow. cbn. rewrite Hx. reflexivity.
Qed.

Section Steady.
Variables (c0 : list Z) (p0 : Z * Z) (t : Z).
Variable R : exn -> Scanner W -> Prop.
Variable Bl : Prop.

Lemma triple_ret {A : Type} (a : A) :
  triple (scan_invariant c0 p0 t) (mret a)
    (fun _ => scan_invariant c0 p0 t) R Bl.
Proof. intros s Hs. exact Hs. Qed.

Lemma triple_getitem (c v : nat) :
  (c < 54)%nat -> (v < 3)%nat ->
  triple (scan_invariant c0 p0 t) (rgb_values_getitem c v)
    (fun _ => scan_invariant c0 p0 t) R Bl.
Proof.
  intros Hc Hv s Hinv.
  destruct (rgb_values_getitem_shaped c v s) as [x ->];
    [apply Hinv | exact Hc | exact Hv | exact Hinv].
Qed.

Lemma triple_request_entries (cs : list nat) (str : string) :
  Forall (fun c => (c < 54)%nat) cs ->
  triple (scan_invariant c0 p0 t) (request_entries cs str)
    (fun _ => scan_invariant c0 p0 t) R Bl.
Proof.
  intros Hcs. revert str.
  induction Hcs as [| c cs Hc Hcs IH]; intros str.
  - apply triple_ret.
  - cbn [request_entries].
    eapply triple_bind; [apply triple_getitem; [exact Hc | lia] |].
    intros r.
    eapply triple_bind; [apply triple_getitem; [exact Hc | lia] |].
    intros g.
    eapply triple_bind; [apply triple_getitem; [exact Hc | lia] |].
    intros b. apply IH.
Qed.

Lemma triple_attr {A : Type} (f : BricKuberLib W -> A) :
  triple (scan_invariant c0 p0 t) (on_lib (attr f))
    (fun _ => scan_invariant c0 p0 t) R Bl.
Proof.
  intros s Hs. unfold on_lib, attr. rewrite with_lib_same. exact Hs.
Qed.

Lemma triple_print_line (str : string) :
  triple (scan_invariant c0 p0 t) (print_line str)
    (fun _ => scan_invariant c0 p0 t) R Bl.
Proof. intros s Hs. exact Hs. Qed.

Lemma triple_shell (cmd : string) :
  triple (scan_invariant c0 p0 t) (shell cmd)
    (fun _ => scan_invariant c0 p0 t) R Bl.
Proof.
  intros s Hs. unfold shell.
  destruct (getstatusoutput cmd (BP (lib s))) as [r w]. exact Hs.
Qed.

Lemma triple_last_item {A : Type} (l : list A) :
  l <> [] ->
  triple (scan_invariant c0 p0 t) (last_item l)
    (fun _ => scan_invariant c0 p0 t) R Bl.
Proof.
  intros Hl s Hs. unfold last_item, item_at, subscript.
  destruct l as [| a l]; [contradiction |].
  destruct (Z.leb_spec 0 (-1)); [lia |]. cbn [andb].
  destruct (Z.ltb_spec (-1) 0); [| lia].
  destruct (Z.leb_spec (- Z.of_nat (length (a :: l))) (-1));
    [| cbn [length] in *; lia].
  cbn [andb]. rewrite !bindS_unfold. unfold item.
  destruct (lookup_lt_is_Some_2 (a :: l)
              (Z.to_nat (Z.of_nat (length (a :: l)) + -1))) as [x ->];
    [cbn [length]; lia |].
  exact Hs.
Qed.
End Steady.

Lemma split_at_nonempty (sep : string) (skip : nat) (s word : string) :
  split_at sep skip s word <> [].
Proof.
  revert skip word.
  induction s as [| c s IH]; intros skip word; cbn [split_at].
  - discriminate.
  - destruct skip as [| skip]; [| apply IH].
    destruct (String.prefix sep (String c s)); [discriminate | apply IH].
Qed.

Lemma triple_assign_CCO_S (c0 : list Z) (p0 : Z * Z) (t : Z) (v : list Z)
    (R : exn -> Scanner W -> Prop) (Bl : Prop) :
  triple (scan_invariant c0 p0 t) (assign_CCO_S v)
    (fun _ => scan_invariant v p0 t) R Bl.
Proof.
  intros s (Hc & Hp & Ht & Hs). split; [| split; [| split]]; cbn;
    [reflexivity | assumption ..].
Qed.

Lemma triple_ReadCubeColors (c0 : list Z) (p0 : Z * Z) (t : Z) (fuel : nat) :
  triple (scan_invariant c0 p0 t) (ReadCubeColors fuel)
    (fun _ => scan_invariant [5; 1; 0] p0 (t - 90 - -90))
    (scan_failed c0 p0 (Z.abs t + 90)) True.
Proof.
  unfold ReadCubeColors.
  eapply triple_bind; [apply triple_release | intros []].
  eapply triple_bind;
    [apply (triple_CameraReadFaceColors _ _ _ _ "top" _ eq_refl) | intros []].
  eapply triple_bind; [apply triple_flip | intros []].
  eapply triple_bind;
    [apply (triple_CameraReadFaceColors _ _ _ _ "front" _ eq_refl) |
     intros []].
  eapply triple_bind; [apply triple_flip | intros []].
  eapply triple_bind;
    [apply (triple_CameraReadFaceColors _ _ _ _ "bottom" _ eq_refl) |
     intros []].
  eapply triple_bind; [apply triple_spin; lia | intros []].
  eapply triple_bind; [apply triple_flip | intros []].
  eapply triple_bind;
    [apply (triple_CameraReadFaceColors _ _ _ _ "right" _ eq_refl) |
     intros []].
  eapply triple_bind; [apply triple_spin; lia | intros []].
  eapply triple_bind; [apply triple_flip | intros []].
  eapply triple_bind;
    [apply (triple_CameraReadFaceColors _ _ _ _ "back" _ eq_refl) |
     intros []].
  eapply triple_bind; [apply triple_flip | intros []].
  eapply triple_bind;
    [apply (triple_CameraReadFaceColors _ _ _ _ "left" _ eq_refl) |
     intros []].
  eapply triple_bind; [apply triple_assign_CCO_S | intros []].
  eapply triple_bind.
  { apply triple_request_entries. unfold range.
    apply Forall_forall. intros c Hc. apply elem_of_seq in Hc. lia. }
  intros str.
  eapply triple_bind; [apply triple_attr | intros verbose].
  eapply triple_bind.
  { destruct verbose; [apply triple_print_line | apply triple_ret]. }
  intros [].
  eapply triple_bind; [apply triple_shell | intros r].
  apply triple_last_item. apply split_at_nonempty.
Qed.

(** X17: a completed scan leaves the orientation triple at [[5, 1, 0]] and
    the turntable target where it was; a scan that raises leaves the
    orientation triple as it found it, and raises [ZeroDivisionError]
    (only with a pinion of no teeth), [OverflowError] (only with a pinion,
    when the turntable position of a cumulative target within 90 degrees
    of the present one is beyond the doubles:
    [float_limit * |pinion| <= (|target| + 90) * |gear|]), [IndexError] or
    [ValueError].  The colour table keeps its shape either way. *)
Theorem ReadCubeColors_outcome (fuel : nat) (s : Scanner W) :
  shaped (rgb_values s) ->
  match ReadCubeColors fuel s with
  | Done _ s' =>
      CCO (lib s') = [5; 1; 0]
      /\ TurnTableTarget (lib s') = TurnTableTarget (lib s)
      /\ shaped (rgb_values s')
  | Raise e s' =>
      CCO (lib s') = CCO (lib s)
      /\ shaped (rgb_values s')
      /\ ((e = ZeroDivisionError /\ TurnTablePinion (lib s) = 0)
          \/ (e = OverflowError /\ TurnTablePinion (lib s) <> 0
              /\ float_limit * Z.abs (TurnTablePinion (lib s))
                 <= (Z.abs (TurnTableTarget (lib s)) + 90)
                    * Z.abs (TurnTableGear (lib s)))
          \/ e = IndexError
          \/ e = ValueError "invalid literal for int()")
  | Blocked => True
  end.
Proof.
  intros Hs.
  pose proof (triple_ReadCubeColors (CCO (lib s)) (gearing (lib s))
                (TurnTableTarget (lib s)) fuel s) as Hscan.
  destruct (ReadCubeColors fuel s) as [r s' | e s' |]; [| | exact I].
  - destruct Hscan as (Hc & _ & Ht & Hs'); [repeat split; apply Hs |].
    split; [exact Hc |]. split; [lia | exact Hs'].
  - destruct Hscan as (Hc & Hs' & Hkind); [repeat split; apply Hs |].
    split; [exact Hc |]. split; [exact Hs' |].
    destruct Hkind as [Hzero | [Hover | [Hindex | Hvalue]]]; auto.
Qed.
End ScanOutcome.

Section UnknownFace.
Context {W : Type} `{Rig W} `{Host W}.

Lemma pure_step_bind {A B : Type} (P : exn -> Prop) (m : MS W A)
    (k : A -> MS W B) :
  pure_step P m -> (forall a, pure_step P (k a)) -> pure_step P (m ≫= k).
Proof.
  intros Hm Hk s. rewrite bindS_unfold.
  destruct (Hm s) as [[a ->] | (e & -> & He)].
  - apply Hk.
  - right. exists e. split; [reflexivity | exact He].
Qed.

Lemma pure_failure_bind {A B : Type} (P : exn -> Prop) (m : MS W A)
    (k : A -> MS W B) :
  pure_step P m -> (forall a, pure_failure P (k a)) ->
  pure_failure P (m ≫= k).
Proof.
  intros Hm Hk s. rewrite bindS_unfold.
  destruct (Hm s) as [[a ->] | (e & -> & He)].
  - apply Hk.
  - exists e. split; [reflexivity | exact He].
Qed.

Lemma pure_failure_first {A B : Type} (P : exn -> Prop) (m : MS W A)
    (k : A -> MS W B) :
  pure_failure P m -> pure_failure P (m ≫= k).
Proof.
  intros Hm s. rewrite bindS_unfold.
  destruct (Hm s) as (e & -> & He). exists e. split; [reflexivity | exact He].
Qed.

Lemma pure_step_ret {A : Type} (P : exn -> Prop) (a : A) :
  pure_step P (mret a : MS W A).
Proof. intros s. left. exists a. reflexivity. Qed.

Lemma pure_step_item {A : Type} (l : list A) (i : nat) :
  pure_step unknown_face_failure (item l i : MS W A).
Proof.
  intros s. unfold item. destruct (l !! i) as [x |].
  - left. exists x. reflexivity.
  - right. exists IndexError. split; [reflexivity |]. left. left. reflexivity.
Qed.

Lemma pure_step_int_of (x : string) :
  pure_step unknown_face_failure (int_of x).
Proof.
  intros s. unfold int_of. destruct (int x) as [n |].
  - left. exists n. reflexivity.
  - right. eexists. split; [reflexivity |]. left. right. reflexivity.
Qed.

Lemma pure_step_strip_groups (cs : list nat) (raw_results : list string) :
  pure_step unknown_face_failure (strip_groups cs raw_results : MS W _).
Proof.
  revert raw_results. induction cs as [| c cs IH]; intros raw_results.
  - apply pure_step_ret.
  - cbn [strip_groups].
    apply pure_step_bind; [apply pure_step_item |]. intros x.
    apply pure_step_bind; [apply pure_step_item |]. intros y.
    apply IH.
Qed.

Lemma pure_failure_store_values (v : nat) (vs : list nat) (c : nat)
    (vals : list string) :
  pure_failure unknown_face_failure
    (store_values (v :: vs) None c vals : MS W unit).
Proof.
  cbn [store_values].
  apply pure_failure_bind; [apply pure_step_item |]. intros x.
  apply pure_failure_bind; [apply pure_step_int_of |]. intros n.
  apply pure_failure_first. intros s.
  eexists. split; [reflexivity |]. right. reflexivity.
Qed.

Lemma pure_failure_store_groups (c : nat) (cs : list nat)
    (raw_results : list string) :
  pure_failure unknown_face_failure
    (store_groups (c :: cs) None raw_results : MS W unit).
Proof.
  cbn [store_groups].
  apply pure_failure_bind; [apply pure_step_item |]. intros x.
  apply pure_failure_first. apply pure_failure_store_values.
Qed.

(** X16: for a face that has no facelet numbers the picture is still
    taken and the tracker run, and then the call raises: [IndexError],
    [ValueError], or [UnboundLocalError] for the local variable [numbers].
    It never returns, and the colour table stays as it was. *)
Theorem CameraReadFaceColors_unknown_face (face : string) (s : Scanner W) :
  numbers_of face = None ->
  exists e s',
    CameraReadFaceColors face s = Raise e s'
    /\ rgb_values s' = rgb_values s
    /\ BP (lib s') =
         (getstatusoutput
            ("rubiks-cube-tracker.py --filename /tmp/BricKuber_" +:+ face
             +:+ "_face.jpg")
            (getstatusoutput
               ("raspistill -w 300 -h 300 -t 1 -o /tmp/BricKuber_" +:+ face
                +:+ "_face.jpg") (BP (lib s))).2).2
    /\ (e = IndexError \/ e = ValueError "invalid literal for int()"
        \/ e = UnboundLocalError "numbers").
Proof.
  intros Hface. unfold CameraReadFaceColors. rewrite Hface.
  rewrite bindS_unfold. unfold shell at 1.
  destruct (getstatusoutput _ (BP (lib s))) as [r1 w1]. cbn [snd].
  rewrite bindS_unfold. unfold shell at 1. cbn [lib with_lib BP with_BP].
  destruct (getstatusoutput _ w1) as [r2 w2]. cbn [snd].
  match goal with
  | |- exists e s', ?m ?s2 = _ /\ _ =>
      assert (Hrest : pure_failure unknown_face_failure m)
  end.
  { apply pure_failure_bind; [apply pure_step_item |]. intros x.
    apply pure_failure_bind; [apply pure_step_item |]. intros y.
    apply pure_failure_bind; [apply pure_step_strip_groups |].
    intros raw_results. apply pure_failure_store_groups. }
  match goal with
  | |- exists e s', ?m ?s2 = _ /\ _ => destruct (Hrest s2) as (e & -> & He)
  end.
  eexists _, _. split; [reflexivity |]. split; [reflexivity |].
  split; [reflexivity |].
  destruct He as [[He | He] | He]; auto.
Qed.
End UnknownFace.

Section OtherFaces.
Context {W : Type} `{Rig W} `{Host W}.

Lemma numbers_of_disjoint (face other : string) (ns ms : list Z) :
  numbers_of face = Some ns -> numbers_of other = Some ms ->
  other <> face -> Forall (fun n => n ∉ ms) ns.
Proof.
  unfold numbers_of. intros Hface Hother Hne.
  repeat match type of Hface with
         | context [String.eqb face ?x] =>
             destruct (String.eqb_spec face x) as [-> |]
         end;
    try discriminate Hface;
    repeat match type of Hother with
           | context [String.eqb other ?x] =>
               destruct (String.eqb_spec other x) as [-> |]
           end;
    try discriminate Hother; try contradiction;
    injection Hface as <-; injection Hother as <-;
    compute_done.
Qed.

(** X15: reading a face leaves the rows of the colour table that belong
    to the facelets of every other face, whether the call returns or raises. *)
Theorem CameraReadFaceColors_keeps_other_faces (face other : string)
    (ms : list Z) (s s' : Scanner W) :
  shaped (rgb_values s) ->
  numbers_of other = Some ms -> other <> face ->
  state_after (CameraReadFaceColors face s) = Some s' ->
  forall n, n ∈ ms ->
    rgb_values s' !! Z.to_nat (n - 1) = rgb_values s !! Z.to_nat (n - 1).
Proof.
  intros Hs Hother Hne Hout n Hn.
  destruct (writes_only_CameraReadFaceColors face s s' Hs Hout)
    as (_ & _ & Hrows).
  apply Hrows. unfold face_rows.
  destruct (numbers_of face) as [ns |] eqn:Hface; [| tauto].
  intros (n' & Hn' & Hsub).
  destruct (numbers_of_facelets face ns Hface) as [_ Hns].
  destruct (numbers_of_facelets other ms Hother) as [_ Hms].
  pose proof (proj1 (Forall_forall _ _) Hns n' Hn') as Hn'range.
  pose proof (proj1 (Forall_forall _ _) Hms n Hn) as Hnrange.
  cbn in Hn'range, Hnrange.
  apply subscript_facelet in Hsub; [| exact Hn'range].
  assert (n' = n) as -> by lia.
  exact (proj1 (Forall_forall _ _)
           (numbers_of_disjoint face other ns ms Hface Hother Hne) n Hn' Hn).
Qed.
End OtherFaces.

Section Rereads.
Context {W : Type} `{Rig W} `{Host W}.

Lemma agree_weaken (D D' : nat -> nat -> Prop) (s1 s2 : Scanner W) :
  (forall k j, D' k j -> D k j) -> agree D s1 s2 -> agree D' s1 s2.
Proof.
  intros Hsub (Hl & Hs1 & Hs2 & HD).
  split; [exact Hl |]. split; [exact Hs1 |]. split; [exact Hs2 |].
  intros k j Hkj. apply HD, Hsub, Hkj.
Qed.

Lemma alike_weaken {A : Type} (D D' : nat -> nat -> Prop)
    (o1 o2 : outcome (Scanner W) A) :
  (forall k j, D' k j -> D k j) -> alike D o1 o2 -> alike D' o1 o2.
Proof.
  intros Hsub. destruct o1, o2; cbn; try tauto.
  intros [-> Hag]. split; [reflexivity |].
  exact (agree_weaken D D' _ _ Hsub Hag).
Qed.

Lemma blind_mono {A : Type} (D1 D1' D D' : nat -> nat -> Prop)
    (m : MS W A) :
  (forall k j, D1 k j -> D k j) -> (forall k j, D' k j -> D1' k j) ->
  blind D1 D1' m -> blind D D' m.
Proof.
  intros Hpre Hpost Hm s1 s2 Hag.
  apply (alike_weaken D1' D' _ _ Hpost).
  apply Hm. exact (agree_weaken D D1 _ _ Hpre Hag).
Qed.

Lemma blind_bind {A B : Type} (D D' D'' : nat -> nat -> Prop) (m : MS W A)
    (k : A -> MS W B) :
  blind D D' m -> (forall a, blind D' D'' (k a)) -> blind D D'' (m ≫= k).
Proof.
  intros Hm Hk s1 s2 Hag. rewrite !bindS_unfold.
  specialize (Hm s1 s2 Hag).
  destruct (m s1) as [a1 s1' | e1 s1' |], (m s2) as [a2 s2' | e2 s2' |];
    cbn in Hm; try contradiction.
  - destruct Hm as [-> Hag']. apply Hk, Hag'.
  - exact Hm.
  - exact I.
Qed.

Lemma blind_ret {A : Type} (D : nat -> nat -> Prop) (a : A) :
  blind D D (mret a : MS W A).
Proof. intros s1 s2 Hag. split; [reflexivity | exact Hag]. Qed.

Lemma blind_raiseS {A : Type} (D D' : nat -> nat -> Prop) (e : exn) :
  blind D D' (raiseS e : MS W A).
Proof.
  intros s1 s2 Hag. split; [reflexivity |].
  apply (agree_weaken D); [tauto | exact Hag].
Qed.

Lemma blind_item {A : Type} (D : nat -> nat -> Prop) (l : list A) (i : nat) :
  blind D D (item l i : MS W A).
Proof.
  unfold item. destruct (l !! i); [apply blind_ret | apply blind_raiseS].
Qed.

Lemma blind_bind_item {A B : Type} (D D' : nat -> nat -> Prop) (l : list A)
    (i : nat) (k : A -> MS W B) :
  (forall x, l !! i = Some x -> blind D D' (k x)) ->
  blind D D' (item l i ≫= k).
Proof.
  intros Hk s1 s2 Hag. rewrite !bindS_unfold. unfold item.
  destruct (l !! i) as [x |] eqn:Hx.
  - apply (Hk x eq_refl s1 s2 Hag).
  - apply (blind_raiseS D D' IndexError s1 s2 Hag).
Qed.

Lemma blind_bind_localS {A B : Type} (D D' : nat -> nat -> Prop)
    (name : string) (v : option A) (k : A -> MS W B) :
  (forall a, v = Some a -> blind D D' (k a)) ->
  blind D D' (localS name v ≫= k).
Proof.
  intros Hk s1 s2 Hag. rewrite !bindS_unfold.
  destruct v as [a |].
  - apply (Hk a eq_refl s1 s2 Hag).
  - apply (blind_raiseS D D' (UnboundLocalError name) s1 s2 Hag).
Qed.

Lemma blind_int_of (D : nat -> nat -> Prop) (x : string) :
  blind D D (int_of x).
Proof.
  unfold int_of. destruct (int x); [apply blind_ret | apply blind_raiseS].
Qed.

Lemma agree_with_lib (D : nat -> nat -> Prop) (l : BricKuberLib W)
    (s1 s2 : Scanner W) :
  agree D s1 s2 -> agree D (with_lib l s1) (with_lib l s2).
Proof.
  intros (Hl & Hs1 & Hs2 & HD).
  exact (conj eq_refl (conj Hs1 (conj Hs2 HD))).
Qed.

Lemma agree_nowhere (D : nat -> nat -> Prop) (s1 s2 : Scanner W) :
  agree D s1 s2 -> agree (fun _ _ => False) s1 s2.
Proof. apply agree_weaken. tauto. Qed.

Lemma blind_on_lib {A : Type} (D : nat -> nat -> Prop) (m : M W A) :
  blind D D (on_lib m).
Proof.
  intros s1 s2 Hag. pose proof Hag as (Hl & _). unfold on_lib. rewrite Hl.
  destruct (m (lib s2)) as [a l | e l |]; cbn [alike]; [| | exact I].
  - split; [reflexivity |]. apply agree_with_lib, Hag.
  - split; [reflexivity |]. apply agree_with_lib, agree_nowhere with D, Hag.
Qed.

Lemma blind_shell (D : nat -> nat -> Prop) (cmd : string) :
  blind D D (shell cmd).
Proof.
  intros s1 s2 Hag. pose proof Hag as (Hl & _). unfold shell. rewrite Hl.
  destruct (getstatusoutput cmd (BP (lib s2))) as [r w]. cbn [alike].
  split; [reflexivity |]. apply agree_with_lib, Hag.
Qed.

Lemma blind_print_line (D : nat -> nat -> Prop) (str : string) :
  blind D D (print_line str : MS W unit).
Proof.
  intros s1 s2 Hag. pose proof Hag as (Hl & _). unfold print_line.
  rewrite Hl. cbn [alike].
  split; [reflexivity |]. apply agree_with_lib, Hag.
Qed.

Lemma blind_assign_CCO_S (D : nat -> nat -> Prop) (v : list Z) :
  blind D D (assign_CCO_S v : MS W unit).
Proof.
  intros s1 s2 Hag. pose proof Hag as (Hl & _). unfold assign_CCO_S.
  rewrite Hl. cbn [alike].
  split; [reflexivity |]. apply agree_with_lib, Hag.
Qed.

Lemma subscript_lt (n : nat) (i : Z) (k : nat) :
  subscript n i = Some k -> (k < n)%nat.
Proof.
  unfold subscript.
  destruct (Z.leb_spec 0 i), (Z.ltb_spec i (Z.of_nat n)); cbn [andb];
    try (intros Hk; injection Hk as <-; lia);
    destruct (Z.ltb_spec i 0), (Z.leb_spec (- Z.of_nat n) i); cbn [andb];
    try discriminate; intros Hk; injection Hk as <-; lia.
Qed.

Lemma insert_cell (v : list (list Z)) (k j : nat) (row : list Z) (n : Z)
    (k' j' : nat) :
  v !! k = Some row -> (j < length row)%nat ->
  cell (<[k := <[j := n]> row]> v) k' j' =
  if decide (k' = k /\ j' = j) then Some n else cell v k' j'.
Proof.
  intros Hrow Hj. unfold cell.
  pose proof (lookup_lt_Some v k row Hrow) as Hk.
  destruct (decide (k' = k)) as [-> | Hne].
  - rewrite list_lookup_insert_eq by exact Hk. rewrite Hrow.
    destruct (decide (j' = j)) as [-> | Hne].
    + rewrite list_lookup_insert_eq by exact Hj.
      destruct (decide (k = k /\ j = j)); [reflexivity | tauto].
    + rewrite list_lookup_insert_ne by congruence.
      destruct (decide (k = k /\ j' = j)); [tauto | reflexivity].
  - rewrite list_lookup_insert_ne by congruence.
    destruct (decide (k' = k /\ j' = j)); [tauto | reflexivity].
Qed.

Lemma shaped_insert (v : list (list Z)) (k j : nat) (row : list Z) (n : Z) :
  shaped v -> v !! k = Some row -> shaped (<[k := <[j := n]> row]> v).
Proof.
  intros [Hlen Hrows] Hrow. split.
  - rewrite length_insert. exact Hlen.
  - apply Forall_insert; [exact Hrows |]. rewrite length_insert.
    exact (proj1 (Forall_lookup _ _) Hrows k row Hrow).
Qed.

Lemma blind_setitem (D : nat -> nat -> Prop) (i : Z) (v : nat) (n : Z) :
  blind D (fun k j => D k j \/ (subscript 54 i = Some k /\ j = v))
    (rgb_values_setitem i v n : MS W unit).
Proof.
  intros s1 s2 (Hl & Hs1 & Hs2 & HD). unfold rgb_values_setitem.
  rewrite (proj1 Hs1), (proj1 Hs2).
  assert (Hfail : alike (A := unit)
                    (fun k j => D k j \/ (subscript 54 i = Some k /\ j = v))
                    (Raise IndexError s1) (Raise IndexError s2)).
  { split; [reflexivity |].
    exact (conj Hl (conj Hs1 (conj Hs2 (fun _ _ F => False_ind _ F)))). }
  destruct (subscript 54 i) as [k |] eqn:Hk; [| exact Hfail].
  pose proof (subscript_lt _ _ _ Hk) as Hlt.
  destruct (shaped_cell _ k 0 Hs1 Hlt) as (row1 & _ & Hrow1 & _); [lia |].
  destruct (shaped_cell _ k 0 Hs2 Hlt) as (row2 & _ & Hrow2 & _); [lia |].
  rewrite Hrow1, Hrow2.
  pose proof (proj1 (Forall_lookup _ _) (proj2 Hs1) k row1 Hrow1) as Hlen1.
  pose proof (proj1 (Forall_lookup _ _) (proj2 Hs2) k row2 Hrow2) as Hlen2.
  cbn in Hlen1, Hlen2. rewrite Hlen1, Hlen2.
  destruct (Nat.ltb_spec v 3) as [Hv |]; [| exact Hfail].
  split; [reflexivity |]. split; [exact Hl |].
  split; [apply shaped_insert; assumption |].
  split; [apply shaped_insert; assumption |].
  intros k' j' Hkj. cbn [rgb_values with_rgb_values].
  rewrite (insert_cell _ k v row1 n k' j' Hrow1) by lia.
  rewrite (insert_cell _ k v row2 n k' j' Hrow2) by lia.
  destruct (decide (k' = k /\ j' = v)) as [_ | Hne]; [reflexivity |].
  destruct Hkj as [Hkj | [Hkj ->]]; [apply HD, Hkj |].
  injection Hkj as ->. tauto.
Qed.

Lemma blind_getitem (D : nat -> nat -> Prop) (c v : nat) :
  D c v -> blind D D (rgb_values_getitem c v : MS W Z).
Proof.
  intros Hcv s1 s2 Hag. pose proof Hag as (Hl & Hs1 & Hs2 & HD).
  specialize (HD c v Hcv). unfold cell in HD.
  unfold rgb_values_getitem. rewrite !bindS_unfold. unfold item.
  destruct (rgb_values s1 !! c) as [row1 |],
           (rgb_values s2 !! c) as [row2 |]; cbn.
  - rewrite HD. destruct (row2 !! v); cbn.
    + split; [reflexivity | exact Hag].
    + split; [reflexivity |]. apply (agree_weaken D _ _ _); [tauto | exact Hag].
  - destruct (row1 !! v); [discriminate |]. cbn.
    split; [reflexivity |]. apply (agree_weaken D _ _ _); [tauto | exact Hag].
  - destruct (row2 !! v); [discriminate |]. cbn.
    split; [reflexivity |]. apply (agree_weaken D _ _ _); [tauto | exact Hag].
  - split; [reflexivity |]. apply (agree_weaken D _ _ _); [tauto | exact Hag].
Qed.

Lemma blind_strip_groups (D : nat -> nat -> Prop) (cs : list nat)
    (raw_results : list string) :
  blind D D (strip_groups cs raw_results : MS W _).
Proof.
  revert raw_results. induction cs as [| c cs IH]; intros raw_results.
  - apply blind_ret.
  - cbn [strip_groups].
    eapply blind_bind; [apply blind_item |]. intros x.
    eapply blind_bind; [apply blind_item |]. intros y.
    apply IH.
Qed.

Lemma blind_store_values (D : nat -> nat -> Prop) (vs : list nat)
    (numbers : option (list Z)) (c : nat) (vals : list string) :
  blind D
    (fun k j => D k j \/
       exists ns n, numbers = Some ns /\ ns !! c = Some n
         /\ subscript 54 (n - 1) = Some k /\ j ∈ vs)
    (store_values vs numbers c vals : MS W unit).
Proof.
  revert D. induction vs as [| v vs IH]; intros D.
  - apply (blind_mono D D); [tauto | | apply blind_ret].
    intros k j [Hkj | (ns & n & _ & _ & _ & Hj)]; [exact Hkj |].
    apply elem_of_nil in Hj. contradiction.
  - cbn [store_values].
    apply blind_bind_item. intros x _.
    eapply blind_bind; [apply blind_int_of |]. intros n.
    apply blind_bind_localS. intros ns Hns.
    apply blind_bind_item. intros q Hq.
    eapply blind_bind; [apply blind_setitem |]. intros _.
    eapply blind_mono; [| | apply IH].
    + intros k j Hkj. exact Hkj.
    + cbn beta. intros k j [Hkj | (ns' & n' & H1 & H2 & H3 & H4)].
      * left. left. exact Hkj.
      * rewrite Hns in H1. injection H1 as <-.
        rewrite Hq in H2. injection H2 as <-.
        apply elem_of_cons in H4 as [-> | H4].
        -- left. right. split; [exact H3 | reflexivity].
        -- right. exists ns, q. repeat split; assumption.
Qed.

Lemma blind_store_groups (D : nat -> nat -> Prop) (cs : list nat)
    (numbers : option (list Z)) (raw_results : list string) :
  blind D
    (fun k j => D k j \/
       exists ns n c, numbers = Some ns /\ c ∈ cs /\ ns !! c = Some n
         /\ subscript 54 (n - 1) = Some k /\ (j < 3)%nat)
    (store_groups cs numbers raw_results : MS W unit).
Proof.
  revert D. induction cs as [| c cs IH]; intros D.
  - apply (blind_mono D D); [tauto | | apply blind_ret].
    intros k j [Hkj | (ns & n & c & _ & Hc & _)]; [exact Hkj |].
    apply elem_of_nil in Hc. contradiction.
  - cbn [store_groups].
    apply blind_bind_item. intros x _.
    eapply blind_bind; [apply blind_store_values |]. intros _.
    eapply blind_mono; [| | apply IH].
    + intros k j Hkj. exact Hkj.
    + cbn beta. intros k j [Hkj | (ns & n & c' & H1 & H2 & H3 & H4 & H5)].
      * left. left. exact Hkj.
      * apply elem_of_cons in H2 as [-> | H2].
        -- left. right. exists ns, n. repeat split; try assumption.
           unfold range. apply elem_of_seq. lia.
        -- right. exists ns, n, c'. repeat split; assumption.
Qed.

Lemma blind_CameraReadFaceColors (D : nat -> nat -> Prop) (face : string) :
  blind D (fun k j => D k j \/ face_cells face k j)
    (CameraReadFaceColors face).
Proof.
  unfold CameraReadFaceColors.
  eapply blind_bind; [apply blind_shell |]. intros _.
  eapply blind_bind; [apply blind_shell |]. intros r.
  apply blind_bind_item. intros x _.
  apply blind_bind_item. intros y _.
  eapply blind_bind; [apply blind_strip_groups |]. intros raw_results.
  eapply blind_mono; [| | apply blind_store_groups].
  - intros k j Hkj. exact Hkj.
  - cbn beta. intros k j [Hkj | (ns & n & Hns & Hn & Hk & Hj)].
    + left. exact Hkj.
    + right. destruct (numbers_of_facelets face ns Hns) as [Hlen _].
      apply list_elem_of_lookup_1 in Hn as [c Hc].
      exists ns, n, c. repeat split; try assumption.
      unfold range. apply elem_of_seq.
      pose proof (lookup_lt_Some ns c n Hc). lia.
Qed.

Lemma scanned_faces_cover (k : nat) :
  (k < 54)%nat -> exists face, face ∈ scanned_faces /\ covers face k = true.
Proof.
  intros Hk.
  assert (Hall : forallb (fun k => existsb (fun face => covers face k)
                                     scanned_faces) (seq 0 54) = true)
    by (vm_compute; reflexivity).
  pose proof (proj1 (forallb_forall _ _) Hall k) as Hk'.
  destruct (proj1 (existsb_exists _ _) (Hk' (proj2 (in_seq 54 0 k) ltac:(lia))))
    as (face & Hface & Hcovers).
  exists face. split; [apply list_elem_of_In, Hface | exact Hcovers].
Qed.

Lemma covers_face_cells (face : string) (k j : nat) :
  covers face k = true -> (k < 54)%nat -> (j < 3)%nat -> face_cells face k j.
Proof.
  unfold covers, face_cells. intros Hcov Hk Hj.
  destruct (numbers_of face) as [ns |]; [| discriminate].
  apply bool_decide_eq_true in Hcov.
  exists ns, (Z.of_nat k + 1). repeat split; try assumption.
  unfold subscript.
  destruct (Z.leb_spec 0 (Z.of_nat k + 1 - 1)); [| lia].
  destruct (Z.ltb_spec (Z.of_nat k + 1 - 1) (Z.of_nat 54)); [| lia].
  cbn [andb]. f_equal. lia.
Qed.

Lemma agree_everywhere (s1 s2 : Scanner W) :
  agree (fun k j => (k < 54)%nat /\ (j < 3)%nat) s1 s2 -> s1 = s2.
Proof.
  intros (Hl & Hs1 & Hs2 & HD).
  destruct s1 as [l1 v1], s2 as [l2 v2]. cbn in *. subst l2. f_equal.
  apply (list_eq_same_length v1 v2 54); [apply Hs2 | apply Hs1 |].
  intros k row1 row2 Hk Hrow1 Hrow2.
  pose proof (proj1 (Forall_lookup _ _) (proj2 Hs1) k row1 Hrow1) as Hlen1.
  pose proof (proj1 (Forall_lookup _ _) (proj2 Hs2) k row2 Hrow2) as Hlen2.
  cbn in Hlen1, Hlen2.
  apply (list_eq_same_length row1 row2 3); [exact Hlen2 | exact Hlen1 |].
  intros j x y Hj Hx Hy.
  specialize (HD k j (conj Hk Hj)). unfold cell in HD.
  rewrite Hrow1, Hrow2, Hx, Hy in HD. injection HD as ->. reflexivity.
Qed.

Lemma blind_request_entries (D : nat -> nat -> Prop) (cs : list nat)
    (str : string) :
  (forall c j, c ∈ cs -> (j < 3)%nat -> D c j) ->
  blind D D (request_entries cs str : MS W string).
Proof.
  revert str. induction cs as [| c cs IH]; intros str HD.
  - apply blind_ret.
  - cbn [request_entries].
    eapply blind_bind;
      [apply blind_getitem, HD; [apply list_elem_of_here | lia] |].
    intros r.
    eapply blind_bind;
      [apply blind_getitem, HD; [apply list_elem_of_here | lia] |].
    intros g.
    eapply blind_bind;
      [apply blind_getitem, HD; [apply list_elem_of_here | lia] |].
    intros b. apply IH. intros c' j Hc' Hj.
    apply HD; [apply list_elem_of_further, Hc' | exact Hj].
Qed.

Lemma blind_item_at {A : Type} (D : nat -> nat -> Prop) (l : list A)
    (i : Z) :
  blind D D (item_at l i : MS W _).
Proof.
  unfold item_at. destruct (subscript (length l) i); [| apply blind_raiseS].
  eapply blind_bind; [apply blind_item |]. intros x. apply blind_ret.
Qed.

Lemma blind_ReadCubeColors (fuel : nat) :
  blind (fun _ _ => False) (fun k j => (k < 54)%nat /\ (j < 3)%nat)
    (ReadCubeColors fuel).
Proof.
  unfold ReadCubeColors.
  eapply blind_bind; [apply blind_on_lib | intros []].
  eapply blind_bind; [apply (blind_CameraReadFaceColors _ "top") | intros []].
  eapply blind_bind; [apply blind_on_lib | intros []].
  eapply blind_bind;
    [apply (blind_CameraReadFaceColors _ "front") | intros []].
  eapply blind_bind; [apply blind_on_lib | intros []].
  eapply blind_bind;
    [apply (blind_CameraReadFaceColors _ "bottom") | intros []].
  eapply blind_bind; [apply blind_on_lib | intros []].
  eapply blind_bind; [apply blind_on_lib | intros []].
  eapply blind_bind;
    [apply (blind_CameraReadFaceColors _ "right") | intros []].
  eapply blind_bind; [apply blind_on_lib | intros []].
  eapply blind_bind; [apply blind_on_lib | intros []].
  eapply blind_bind;
    [apply (blind_CameraReadFaceColors _ "back") | intros []].
  eapply blind_bind; [apply blind_on_lib | intros []].
  eapply blind_bind;
    [apply (blind_CameraReadFaceColors _ "left") | intros []].
  cbn beta.
  apply (blind_mono (fun k j => (k < 54)%nat /\ (j < 3)%nat)
           (fun k j => (k < 54)%nat /\ (j < 3)%nat)).
  { intros k j [Hk Hj].
    destruct (scanned_faces_cover k Hk) as (face & Hface & Hcov).
    pose proof (covers_face_cells face k j Hcov Hk Hj) as Hcells.
    unfold scanned_faces in Hface.
    repeat (apply elem_of_cons in Hface as [-> | Hface]); [tauto .. |].
    apply elem_of_nil in Hface. contradiction. }
  { tauto. }
  set (full := fun k j : nat => (k < 54)%nat /\ (j < 3)%nat).
  apply (blind_bind full full full); [apply blind_assign_CCO_S | intros []].
  apply (blind_bind full full full).
  { apply blind_request_entries. intros c j Hc Hj. split; [| exact Hj].
    unfold range in Hc. apply elem_of_seq in Hc. lia. }
  intros str.
  apply (blind_bind full full full); [apply blind_on_lib | intros verbose].
  apply (blind_bind full full full).
  { destruct verbose; [apply blind_print_line | apply blind_ret]. }
  intros [].
  apply (blind_bind full full full); [apply blind_shell | intros r].
  unfold last_item.
  apply (blind_bind full full full); [apply blind_item_at | intros x].
  apply blind_ret.
Qed.

(** X18: a scan reads every facelet anew: run on two scanners that differ
    only in the colours of their tables, it does the same, and when it returns
    it returns the same answer and leaves the same table. *)
Theorem ReadCubeColors_rereads_every_facelet (fuel : nat)
    (s1 s2 : Scanner W) :
  lib s1 = lib s2 -> shaped (rgb_values s1) -> shaped (rgb_values s2) ->
  match ReadCubeColors fuel s1, ReadCubeColors fuel s2 with
  | Done r1 s1', Done r2 s2' => r1 = r2 /\ s1' = s2'
  | Raise e1 s1', Raise e2 s2' => e1 = e2 /\ lib s1' = lib s2'
  | Blocked, Blocked => True
  | _, _ => False
  end.
Proof.
  intros Hl Hs1 Hs2.
  assert (Hag : agree (fun _ _ => False) s1 s2)
    by exact (conj Hl (conj Hs1 (conj Hs2 (fun _ _ F => False_ind _ F)))).
  pose proof (blind_ReadCubeColors fuel s1 s2 Hag) as Hscan.
  destruct (ReadCubeColors fuel s1) as [r1 s1' | e1 s1' |],
           (ReadCubeColors fuel s2) as [r2 s2' | e2 s2' |];
    cbn in Hscan; try contradiction.
  - destruct Hscan as [-> Hag']. split; [reflexivity |].
    apply agree_everywhere, Hag'.
  - destruct Hscan as [-> Hag']. split; [reflexivity | apply Hag'].
  - exact I.
Qed.
End Rereads.

(** ** Splitting text *)

Lemma append_cons (d : ascii) (a b : string) :
  String d a +:+ b = String d (a +:+ b).
Proof. reflexivity. Qed.

Lemma append_assoc (a b c : string) : (a +:+ b) +:+ c = a +:+ (b +:+ c).
Proof.
  induction a as [| d a IH]; [reflexivity |].
  rewrite !append_cons. now rewrite IH.
Qed.

Lemma append_nil_r (a : string) : a +:+ "" = a.
Proof.
  induction a as [| d a IH]; [reflexivity |].
  rewrite append_cons. now rewrite IH.
Qed.

Lemma has_append (c : ascii) (a b : string) :
  has c (a +:+ b) = has c a || has c b.
Proof.
  induction a as [| d a IH]; [reflexivity |].
  rewrite append_cons. cbn [has]. rewrite IH. apply orb_assoc.
Qed.

Lemma prefix_append (sep b : string) : String.prefix sep (sep +:+ b) = true.
Proof.
  induction sep as [| c sep IH]; [now destruct b |].
  rewrite append_cons. cbn [String.prefix].
  destruct (ascii_dec c c); [exact IH | contradiction].
Qed.

Lemma split_at_skip (sep t b word : string) :
  split_at sep (String.length t) (t +:+ b) word = split_at sep 0 b word.
Proof.
  induction t as [| c t IH]; [reflexivity |].
  rewrite append_cons. cbn [split_at String.length]. exact IH.
Qed.

(** A separator at the head ends the piece. *)
Lemma split_at_sep (c : ascii) (sep b word : string) :
  split_at (String c sep) 0 (String c sep +:+ b) word
  = word :: split_at (String c sep) 0 b "".
Proof.
  pose proof (prefix_append (String c sep) b) as Hp.
  rewrite append_cons in Hp |- *. cbn [split_at]. rewrite Hp.
  cbn [String.length]. rewrite Nat.sub_1_r. cbn [Nat.pred].
  f_equal. apply split_at_skip.
Qed.

(** Text without the first character of the separator goes to the piece. *)
Lemma split_at_push (c : ascii) (sep a rest word : string) :
  has c a = false ->
  split_at (String c sep) 0 (a +:+ rest) word
  = split_at (String c sep) 0 rest (word +:+ a).
Proof.
  revert word. induction a as [| d a IH]; intros word Ha.
  - now rewrite append_nil_r.
  - cbn [has] in Ha. apply orb_false_elim in Ha as [Hd Ha].
    rewrite append_cons. cbn [split_at String.prefix].
    destruct (ascii_dec c d) as [-> | _];
      [now rewrite Ascii.eqb_refl in Hd |].
    rewrite (IH _ Ha). f_equal.
    rewrite append_assoc. reflexivity.
Qed.

(** Text without the second character of a separator of two different
    characters, before that separator, goes to the piece. *)
Lemma split_at_push_second (c1 c2 : ascii) (a rest word : string) :
  c1 <> c2 -> has c2 a = false ->
  split_at (String c1 (String c2 "")) 0 (a +:+ String c1 rest) word
  = split_at (String c1 (String c2 "")) 0 (String c1 rest) (word +:+ a).
Proof.
  intros Hne. revert word. induction a as [| d a IH]; intros word Ha.
  - now rewrite append_nil_r.
  - cbn [has] in Ha. apply orb_false_elim in Ha as [Hd Ha].
    rewrite append_cons. cbn [split_at].
    assert (Hno : String.prefix (String c1 (String c2 ""))
                    (String d (a +:+ String c1 rest)) = false).
    { cbn [String.prefix].
      destruct (ascii_dec c1 d) as [_ | _]; [| reflexivity].
      destruct a as [| e a].
      - change ("" +:+ String c1 rest) with (String c1 rest).
        cbn [String.prefix].
        destruct (ascii_dec c2 c1) as [-> | _]; [contradiction | reflexivity].
      - rewrite append_cons. cbn [String.prefix].
        cbn [has] in Ha. apply orb_false_elim in Ha as [He _].
        destruct (ascii_dec c2 e) as [-> | _]; [| reflexivity].
        now rewrite Ascii.eqb_refl in He. }
    rewrite Hno, (IH _ Ha). f_equal.
    rewrite append_assoc. reflexivity.
Qed.

(** The first piece begins with the text read so far. *)
Lemma split_at_head (sep : string) (skip : nat) (s word : string) :
  exists x rest, split_at sep skip s word = (word +:+ x) :: rest.
Proof.
  revert skip word. induction s as [| d s IH]; intros skip word.
  - exists "", []. cbn [split_at]. now rewrite append_nil_r.
  - cbn [split_at]. destruct skip as [| skip]; [| apply IH].
    destruct (String.prefix sep (String d s)).
    + exists "". eexists. now rewrite append_nil_r.
    + destruct (IH 0%nat (word +:+ String d "")) as (x & rest & ->).
      exists (String d x), rest. now rewrite append_assoc.
Qed.

(** Splitting what [join] made. *)
Lemma str_split_concat (c : ascii) (sep : string) (vs : list string) :
  vs <> [] -> Forall (fun v => has c v = false) vs ->
  str_split (String.concat (String c sep) vs) (String c sep) = vs.
Proof.
  unfold str_split. intros Hne Hvs.
  induction Hvs as [| v vs Hv Hvs IH]; [contradiction |].
  destruct vs as [| w vs].
  - cbn [String.concat]. rewrite <- (append_nil_r v) at 1.
    now rewrite (split_at_push c sep v "" "" Hv).
  - change (String.concat (String c sep) (v :: w :: vs))
      with (v +:+ String c sep +:+ String.concat (String c sep) (w :: vs)).
    rewrite (split_at_push c sep v _ "" Hv), split_at_sep.
    f_equal. apply IH. discriminate.
Qed.

(** ** Reading the answer of the tracker *)

Lemma has_concat (c : ascii) (sep : string) (vs : list string) :
  has c sep = false -> Forall (fun v => has c v = false) vs ->
  has c (String.concat sep vs) = false.
Proof.
  intros Hsep Hvs. induction Hvs as [| v vs Hv Hvs IH]; [reflexivity |].
  destruct vs as [| w vs]; [exact Hv |].
  change (String.concat sep (v :: w :: vs))
    with (v +:+ sep +:+ String.concat sep (w :: vs)).
  rewrite !has_append, Hv, Hsep, IH. reflexivity.
Qed.

Lemma tidy_has (s : string) :
  tidy s = true ->
  has "010" s = false /\ has "{" s = false /\ has "}" s = false
  /\ has "[" s = false /\ has "]" s = false /\ has "," s = false.
Proof.
  unfold tidy. intros Ht.
  repeat (apply andb_prop in Ht as [Ht ?%negb_true_iff]).
  apply negb_true_iff in Ht. tauto.
Qed.

Lemma concat_cons (sep v w : string) (vs : list string) :
  String.concat sep (v :: w :: vs)
  = v +:+ sep +:+ String.concat sep (w :: vs).
Proof. reflexivity. Qed.

(** The text of the values of a tidy entry has no brace, bracket or line
    feed. *)
Lemma values_has (c : ascii) (vs : list string) :
  Forall (fun v => tidy v = true) vs ->
  c = "010"%char \/ c = "{"%char \/ c = "}"%char \/ c = "["%char
  \/ c = "]"%char ->
  has c (String.concat ", " vs) = false.
Proof.
  intros Hvs Hc. apply has_concat.
  - destruct Hc as [-> | [-> | [-> | [-> | ->]]]]; reflexivity.
  - apply (Forall_impl _ _ _ Hvs). intros v Hv.
    destruct (tidy_has v Hv) as (H1 & H2 & H3 & H4 & H5 & _).
    destruct Hc as [-> | [-> | [-> | [-> | ->]]]]; assumption.
Qed.

Lemma entry_has (c : ascii) (entry : string * list string) :
  tidy_entry entry ->
  c = "010"%char \/ c = "{"%char \/ c = "}"%char ->
  has c (entry_text entry) = false.
Proof.
  intros [Hk Hvs] Hc. unfold entry_text.
  destruct (tidy_has _ Hk) as (H1 & H2 & H3 & _).
  rewrite !has_append.
  rewrite (values_has c _ Hvs) by tauto.
  destruct Hc as [-> | [-> | ->]]; rewrite ?H1, ?H2, ?H3; reflexivity.
Qed.

Lemma entries_has (c : ascii) (entries : list (string * list string)) :
  Forall tidy_entry entries ->
  c = "010"%char \/ c = "{"%char \/ c = "}"%char ->
  has c (entries_text entries) = false.
Proof.
  intros He Hc. unfold entries_text. apply has_concat.
  - destruct Hc as [-> | [-> | ->]]; reflexivity.
  - apply Forall_fmap. apply (Forall_impl _ _ _ He). intros e Hte.
    apply entry_has; assumption.
Qed.

(** Lines 237-238: the text between the braces. *)
Lemma answer_body (log rest : string)
    (entries : list (string * list string)) :
  has "{" log = false -> Forall tidy_entry entries ->
  exists x,
    str_split (answer_text log entries rest) (LF +:+ "{") !! 1%nat
    = Some (entries_text entries +:+ "}" +:+ x)
    /\ str_split (entries_text entries +:+ "}" +:+ x) "}" !! 0%nat
       = Some (entries_text entries).
Proof.
  intros Hlog He. unfold str_split, answer_text.
  change (LF +:+ "{") with (String "010" (String "{" "")).
  change (log +:+ LF +:+ "{" +:+ entries_text entries +:+ "}" +:+ rest)
    with (log +:+ String "010"
                    (String "{" (entries_text entries +:+ "}" +:+ rest))).
  rewrite (split_at_push_second "010" "{" log _ "")
    by (discriminate || exact Hlog).
  change (String "010" (String "{" (entries_text entries +:+ "}" +:+ rest)))
    with (String "010" (String "{" "")
          +:+ (entries_text entries +:+ "}" +:+ rest)).
  rewrite split_at_sep.
  rewrite (split_at_push "010" _ (entries_text entries))
    by (apply entries_has; [exact He | tauto]).
  rewrite (split_at_push "010" _ "}") by reflexivity.
  destruct (split_at_head (String "010" (String "{" "")) 0 rest
              (("" +:+ entries_text entries) +:+ "}")) as (x & tail & ->).
  exists x. split.
  - cbn [lookup list_lookup]. f_equal.
    change ("" +:+ entries_text entries) with (entries_text entries).
    now rewrite append_assoc.
  - rewrite (split_at_push "}" "" (entries_text entries))
      by (apply entries_has; [exact He | tauto]).
    change ("}" +:+ x) with (String "}" "" +:+ x).
    rewrite split_at_sep. reflexivity.
Qed.

(** Line 239: the pieces after each opening bracket begin with the values
    of the entries and a closing bracket. *)
Lemma entries_pieces (entries : list (string * list string)) (word : string) :
  Forall tidy_entry entries ->
  exists junk pieces,
    split_at "[" 0 (entries_text entries) word = (word +:+ junk) :: pieces
    /\ Forall2 (fun entry piece =>
                  exists tail,
                    piece = String.concat ", " entry.2 +:+ "]" +:+ tail)
         entries pieces.
Proof.
  intros He. revert word.
  induction He as [| [k vs] es [Hk Hvs] Hes IH]; intros word.
  - exists "", []. split; [| constructor].
    cbn. now rewrite append_nil_r.
  - cbn [fst snd] in Hk, Hvs.
    set (sepr := match es with [] => "" | _ => ", " end).
    assert (Htext : entries_text ((k, vs) :: es)
                    = (k +:+ ": ") +:+ String "[" ""
                      +:+ (String.concat ", " vs +:+ "]" +:+ sepr)
                      +:+ entries_text es).
    { unfold entries_text, sepr. destruct es as [| e es].
      - cbn [fmap list_fmap String.concat entry_text fst snd].
        rewrite !append_assoc, append_nil_r. reflexivity.
      - cbn [fmap list_fmap]. rewrite concat_cons.
        unfold entry_text at 1. cbn [fst snd].
        rewrite !append_assoc. reflexivity. }
    rewrite Htext.
    destruct (tidy_has _ Hk) as (_ & _ & _ & Hkb & _).
    rewrite (split_at_push "[" "" (k +:+ ": "))
      by (rewrite has_append, Hkb; reflexivity).
    rewrite split_at_sep.
    rewrite (split_at_push "[" "" (String.concat ", " vs +:+ "]" +:+ sepr)).
    2:{ rewrite !has_append, (values_has "[" vs Hvs) by tauto.
        unfold sepr. destruct es; reflexivity. }
    destruct (IH ("" +:+ String.concat ", " vs +:+ "]" +:+ sepr))
      as (junk & pieces & -> & Hpieces).
    exists (k +:+ ": "). eexists. split; [reflexivity |].
    constructor; [| exact Hpieces].
    exists (sepr +:+ junk). cbn [snd].
    change ("" +:+ String.concat ", " vs +:+ "]" +:+ sepr)
      with (String.concat ", " vs +:+ "]" +:+ sepr).
    rewrite !append_assoc. reflexivity.
Qed.

Section Stores.
Context {W : Type} `{Rig W} `{Host W}.

Lemma bindS_Done {A B : Type} (m : MS W A) (k : A -> MS W B)
    (s : Scanner W) (a : A) (s' : Scanner W) :
  m s = Done a s' -> (m ≫= k) s = k a s'.
Proof. intros E. rewrite bindS_unfold, E. reflexivity. Qed.

Lemma item_Some {A : Type} (l : list A) (i : nat) (x : A) (s : Scanner W) :
  l !! i = Some x -> item l i s = Done x s.
Proof. intros Hx. unfold item. now rewrite Hx. Qed.

(** Lines 240-241 on the pieces of a tidy answer. *)
Lemma strip_groups_pieces (entries : list (string * list string))
    (done todo : list string) (s : Scanner W) :
  Forall tidy_entry entries ->
  Forall2 (fun entry piece =>
             exists tail, piece = String.concat ", " entry.2 +:+ "]" +:+ tail)
    entries todo ->
  strip_groups (seq (length done) (length todo)) (done ++ todo) s
  = Done (done ++ ((fun entry => String.concat ", " entry.2) <$> entries)) s.
Proof.
  intros He Hpieces. revert done.
  induction Hpieces as [| [k vs] piece es todo [tail ->] Hrest IH];
    intros done.
  - reflexivity.
  - apply Forall_cons in He as [[_ Hvs] Hes]. cbn [fst snd] in *.
    cbn [length seq strip_groups]. rewrite !bindS_unfold.
    rewrite (item_Some _ _ _ s (list_lookup_middle done _ _ _ eq_refl)).
    unfold str_split.
    rewrite (split_at_push "]" "" (String.concat ", " vs))
      by (apply values_has; [exact Hvs | tauto]).
    change ("]" +:+ tail) with (String "]" "" +:+ tail).
    rewrite split_at_sep. cbn [item lookup list_lookup mret MS_ret].
    rewrite bindS_unfold. cbn [mret MS_ret].
    rewrite (insert_app_r_alt done) by lia.
    rewrite Nat.sub_diag. cbn [insert list_insert].
    change ("" +:+ String.concat ", " vs) with (String.concat ", " vs).
    specialize (IH Hes (done ++ [String.concat ", " vs])).
    rewrite length_app, Nat.add_1_r, <- !app_assoc in IH.
    cbn [fmap list_fmap]. exact IH.
Qed.

Lemma setitem_Done (i : Z) (v : nat) (x : Z) (s : Scanner W) (k : nat)
    (row : list Z) :
  subscript (length (rgb_values s)) i = Some k ->
  rgb_values s !! k = Some row -> (v < length row)%nat ->
  rgb_values_setitem i v x s
  = Done tt (with_rgb_values (<[k := <[v := x]> row]> (rgb_values s)) s).
Proof.
  intros Hk Hrow Hv. unfold rgb_values_setitem. rewrite Hk, Hrow.
  now rewrite (proj2 (Nat.ltb_lt _ _) Hv).
Qed.

Lemma subscript_row (n : Z) :
  1 <= n <= 54 -> subscript 54 (n - 1) = Some (Z.to_nat (n - 1)).
Proof.
  intros Hn. unfold subscript.
  destruct (Z.leb_spec 0 (n - 1)); [| lia].
  destruct (Z.ltb_spec (n - 1) (Z.of_nat 54)); [| lia]. reflexivity.
Qed.

(** Lines 258-259 for one entry: the three values become the row of the
    facelet. *)
Lemma store_values_row (ns : list Z) (c : nat) (n : Z) (vals : list string)
    (row : list Z) (s : Scanner W) :
  shaped (rgb_values s) -> ns !! c = Some n -> 1 <= n <= 54 ->
  Forall2 (fun v x => int v = Some x) vals row -> length row = 3%nat ->
  store_values (range 3) (Some ns) c vals s
  = Done tt (with_rgb_values
               (<[Z.to_nat (n - 1) := row]> (rgb_values s)) s).
Proof.
  intros Hs Hn Hrange Hvals Hrow.
  destruct row as [| x0 [| x1 [| x2 [| ? ?]]]]; try discriminate.
  apply Forall2_cons_inv_r in Hvals as (v0 & vals0 & Hv0 & Hvals & ->).
  apply Forall2_cons_inv_r in Hvals as (v1 & vals1 & Hv1 & Hvals & ->).
  apply Forall2_cons_inv_r in Hvals as (v2 & vals2 & Hv2 & Hvals & ->).
  apply Forall2_nil_inv_r in Hvals as ->.
  pose proof (subscript_row n Hrange) as Hk.
  set (k := Z.to_nat (n - 1)) in *.
  destruct (shaped_cell _ k 0 Hs) as (old & _ & Hold & _); [lia | lia |].
  pose proof (proj1 (Forall_lookup _ _) (proj2 Hs) k old Hold) as Hlen.
  cbn in Hlen.
  destruct old as [| a [| b [| d [| ? ?]]]]; try discriminate.
  assert (Hk' : (k < length (rgb_values s))%nat)
    by exact (lookup_lt_Some _ _ _ Hold).
  set (s1 := with_rgb_values (<[k := [x0; b; d]]> (rgb_values s)) s).
  set (s2 := with_rgb_values (<[k := [x0; x1; d]]> (rgb_values s1)) s1).
  assert (E1 : rgb_values_setitem (n - 1) 0 x0 s = Done tt s1).
  { apply (setitem_Done (n - 1) 0 x0 s k [a; b; d]);
      [rewrite (proj1 Hs); exact Hk | exact Hold | cbn; lia]. }
  assert (E2 : rgb_values_setitem (n - 1) 1 x1 s1 = Done tt s2).
  { apply (setitem_Done (n - 1) 1 x1 s1 k [x0; b; d]);
      [| apply list_lookup_insert_eq; exact Hk' | cbn; lia].
    cbn [s1 rgb_values with_rgb_values].
    rewrite length_insert, (proj1 Hs). exact Hk. }
  assert (E3 : rgb_values_setitem (n - 1) 2 x2 s2
               = Done tt (with_rgb_values
                            (<[k := [x0; x1; x2]]> (rgb_values s)) s)).
  { rewrite (setitem_Done (n - 1) 2 x2 s2 k [x0; x1; d]);
      [| | | cbn; lia].
    - cbn [s2 s1 rgb_values with_rgb_values lib].
      rewrite !list_insert_insert_eq. reflexivity.
    - cbn [s2 s1 rgb_values with_rgb_values].
      rewrite !length_insert, (proj1 Hs). exact Hk.
    - apply list_lookup_insert_eq.
      cbn [s1 rgb_values with_rgb_values]. rewrite length_insert. exact Hk'. }
  assert (Hint : forall v x (t : Scanner W),
             int v = Some x -> int_of v t = Done x t).
  { intros v x t Hvx. unfold int_of. now rewrite Hvx. }
  unfold range. cbn [seq store_values].
  rewrite (bindS_Done _ _ s v0 s) by reflexivity.
  rewrite (bindS_Done _ _ s x0 s) by exact (Hint _ _ _ Hv0).
  rewrite (bindS_Done _ _ s ns s) by reflexivity.
  rewrite (bindS_Done _ _ s n s) by exact (item_Some _ _ _ _ Hn).
  rewrite (bindS_Done _ _ s tt s1) by exact E1.
  rewrite (bindS_Done _ _ s1 v1 s1) by reflexivity.
  rewrite (bindS_Done _ _ s1 x1 s1) by exact (Hint _ _ _ Hv1).
  rewrite (bindS_Done _ _ s1 ns s1) by reflexivity.
  rewrite (bindS_Done _ _ s1 n s1) by exact (item_Some _ _ _ _ Hn).
  rewrite (bindS_Done _ _ s1 tt s2) by exact E2.
  rewrite (bindS_Done _ _ s2 v2 s2) by reflexivity.
  rewrite (bindS_Done _ _ s2 x2 s2) by exact (Hint _ _ _ Hv2).
  rewrite (bindS_Done _ _ s2 ns s2) by reflexivity.
  rewrite (bindS_Done _ _ s2 n s2) by exact (item_Some _ _ _ _ Hn).
  rewrite (bindS_Done _ _ s2 tt _) by exact E3.
  reflexivity.
Qed.
Lemma shaped_insert_row (v : list (list Z)) (k : nat) (row : list Z) :
  shaped v -> length row = 3%nat -> shaped (<[k := row]> v).
Proof.
  intros [Hlen Hrows] Hrow. split.
  - rewrite length_insert. exact Hlen.
  - apply Forall_insert; assumption.
Qed.

(** Lines 256-259 on the groups of a tidy answer: the rows of the facelets
    [i], ..., [i + n - 1] of the face become the colours read. *)
Lemma store_groups_rows (ns : list Z) (colours : list (list Z))
    (raw_results : list string) (n i : nat) (s : Scanner W) :
  NoDup ns -> Forall (fun m => 1 <= m <= 54) ns ->
  shaped (rgb_values s) ->
  (forall c, (i <= c < i + n)%nat ->
     exists vs m row,
       raw_results !! c = Some (String.concat ", " vs)
       /\ Forall (fun v => has "," v = false) vs
       /\ ns !! c = Some m /\ colours !! c = Some row
       /\ Forall2 (fun v x => int v = Some x) vs row
       /\ length row = 3%nat) ->
  exists s',
    store_groups (seq i n) (Some ns) raw_results s = Done tt s'
    /\ lib s' = lib s /\ shaped (rgb_values s')
    /\ (forall c m row, (i <= c < i + n)%nat ->
          ns !! c = Some m -> colours !! c = Some row ->
          rgb_values s' !! Z.to_nat (m - 1) = Some row)
    /\ (forall k,
          (forall c m, (i <= c < i + n)%nat -> ns !! c = Some m ->
             k <> Z.to_nat (m - 1)) ->
          rgb_values s' !! k = rgb_values s !! k).
Proof.
  intros Hdup Hrange. revert i s. induction n as [| n IH]; intros i s Hs Hdata.
  - exists s. split; [reflexivity |]. split; [reflexivity |].
    split; [exact Hs |]. split; [intros; lia | reflexivity].
  - destruct (Hdata i) as (vs & m & row & Hraw & Hvs & Hm & Hrow & Hint & Hlen);
      [lia |].
    assert (Hm54 : 1 <= m <= 54)
      by exact (proj1 (Forall_lookup _ _) Hrange i m Hm).
    cbn [seq store_groups].
    rewrite (bindS_Done _ _ s _ s) by exact (item_Some _ _ _ _ Hraw).
    rewrite (str_split_concat "," " " vs);
      [| intros ->; apply Forall2_nil_inv_l in Hint; now subst row
       | exact Hvs].
    rewrite (bindS_Done _ _ s tt _)
      by exact (store_values_row ns i m vs row s Hs Hm Hm54 Hint Hlen).
    set (s1 := with_rgb_values (<[Z.to_nat (m - 1) := row]> (rgb_values s)) s).
    destruct (IH (S i) s1) as (s' & Hrun & Hlib & Hs' & Hrows & Hframe).
    { apply shaped_insert_row; assumption. }
    { intros c Hc. apply Hdata. lia. }
    exists s'. split; [exact Hrun |]. split; [exact Hlib |].
    split; [exact Hs' |].
    assert (Hk : (Z.to_nat (m - 1) < length (rgb_values s))%nat)
      by (rewrite (proj1 Hs); lia).
    split.
    + intros c m' row' Hc Hm' Hrow'.
      destruct (decide (c = i)) as [-> | Hne].
      * rewrite Hm in Hm'. injection Hm' as <-.
        rewrite Hrow in Hrow'. injection Hrow' as <-.
        rewrite Hframe.
        -- apply list_lookup_insert_eq. exact Hk.
        -- intros c' m' Hc' Hm' Heq.
           pose proof (proj1 (Forall_lookup _ _) Hrange c' m' Hm') as Hm'54.
           cbn in Hm'54. assert (m = m') as <- by lia.
           pose proof (NoDup_lookup ns i c' m Hdup Hm Hm'). lia.
      * apply (Hrows c m' row'); [lia | assumption ..].
    + intros k Hk'. rewrite Hframe.
      * apply list_lookup_insert_ne. intros Heq.
        apply (Hk' i m); [lia | exact Hm | now symmetry].
      * intros c m' Hc Hm'. apply (Hk' c m'); [lia | exact Hm'].
Qed.

Lemma numbers_of_NoDup (face : string) (ns : list Z) :
  numbers_of face = Some ns -> NoDup ns.
Proof.
  unfold numbers_of.
  repeat (destruct (String.eqb face _);
          [intros Hns; injection Hns as <-; compute_done |]).
  discriminate.
Qed.

Lemma CameraReadFaceColors_Done (face : string) (ns : list Z)
    (log rest : string) (entries : list (string * list string))
    (colours : list (list Z)) (s : Scanner W) :
  numbers_of face = Some ns ->
  shaped (rgb_values s) ->
  (getstatusoutput
     ("rubiks-cube-tracker.py --filename /tmp/BricKuber_" +:+ face
      +:+ "_face.jpg")
     (getstatusoutput
        ("raspistill -w 300 -h 300 -t 1 -o /tmp/BricKuber_" +:+ face
         +:+ "_face.jpg") (BP (lib s))).2).1.2
  = answer_text log entries rest ->
  has "{" log = false ->
  length entries = 9%nat ->
  Forall tidy_entry entries ->
  numerals_of entries colours ->
  exists s',
    CameraReadFaceColors face s = Done tt s'
    /\ forall c m row,
         ns !! c = Some m -> colours !! c = Some row ->
         rgb_values s' !! Z.to_nat (m - 1) = Some row.
Proof.
  intros Hns Hs Hanswer Hlog Hnine Htidy Hcolours.
  unfold CameraReadFaceColors. rewrite Hns.
  rewrite bindS_unfold. unfold shell at 1.
  destruct (getstatusoutput _ (BP (lib s))) as [r1 w1]. cbn [snd] in Hanswer.
  rewrite bindS_unfold. unfold shell at 1. cbn [lib with_lib BP with_BP].
  destruct (getstatusoutput _ w1) as [[status out] w2].
  cbn [fst snd] in Hanswer. subst out. cbn [snd].
  set (s2 := with_lib (with_BP w2 (with_BP w1 (lib s))) (with_lib _ s)).
  destruct (answer_body log rest entries Hlog Htidy) as (x & Hbody & Hinner).
  rewrite (bindS_Done _ _ s2 _ s2) by exact (item_Some _ _ _ _ Hbody).
  rewrite (bindS_Done _ _ s2 _ s2) by exact (item_Some _ _ _ _ Hinner).
  destruct (entries_pieces entries "" Htidy) as (junk & pieces & Hsplit & Hp).
  unfold str_split at 1. rewrite Hsplit. cbn [drop].
  pose proof (Forall2_length _ _ _ Hp) as Hlen. rewrite Hnine in Hlen.
  pose proof (strip_groups_pieces entries [] pieces s2 Htidy Hp) as Hstrip.
  cbn [length app] in Hstrip. rewrite <- Hlen in Hstrip.
  unfold range.
  rewrite (bindS_Done _ _ s2 _ s2) by exact Hstrip.
  destruct (numbers_of_facelets face ns Hns) as [Hns9 Hns54].
  destruct (store_groups_rows ns colours
              ((fun entry => String.concat ", " entry.2) <$> entries)
              9 0 s2 (numbers_of_NoDup face ns Hns) Hns54 Hs)
    as (s' & Hrun & _ & _ & Hrows & _).
  { intros c Hc.
    destruct (lookup_lt_is_Some_2 entries c) as [[k vs] He]; [lia |].
    destruct (lookup_lt_is_Some_2 ns c) as [m Hm]; [lia |].
    destruct (Forall2_lookup_l _ _ _ c _ Hcolours He)
      as (row & Hrow & Hint & Hrowlen).
    exists vs, m, row. cbn [snd] in Hint.
    split; [rewrite list_lookup_fmap, He; reflexivity |].
    split; [| auto].
    destruct (proj1 (Forall_lookup _ _) Htidy c _ He) as [_ Hvs].
    apply (Forall_impl _ _ _ Hvs). intros v Hv.
    apply (tidy_has v Hv). }
  exists s'. split; [exact Hrun |].
  intros c m row Hm Hrow. apply (Hrows c m row); [| assumption ..].
  pose proof (lookup_lt_Some _ _ _ Hm). lia.
Qed.
(** X20: when the tracker answers with nine tidy entries of three numerals
    after a log without brace, reading a face returns, and the rows of the
    colour table of the facelets of the face hold the numbers of the
    entries, entry [c] in the row of the facelet [numbers[c]]; the table
    keeps its shape. *)
Theorem CameraReadFaceColors_stores (face : string) (ns : list Z)
    (log rest : string) (entries : list (string * list string))
    (colours : list (list Z)) (s : Scanner W) :
  numbers_of face = Some ns ->
  shaped (rgb_values s) ->
  (getstatusoutput
     ("rubiks-cube-tracker.py --filename /tmp/BricKuber_" +:+ face
      +:+ "_face.jpg")
     (getstatusoutput
        ("raspistill -w 300 -h 300 -t 1 -o /tmp/BricKuber_" +:+ face
         +:+ "_face.jpg") (BP (lib s))).2).1.2
  = answer_text log entries rest ->
  has "{" log = false ->
  length entries = 9%nat ->
  Forall tidy_entry entries ->
  numerals_of entries colours ->
  exists s',
    CameraReadFaceColors face s = Done tt s'
    /\ shaped (rgb_values s')
    /\ forall c m row,
         ns !! c = Some m -> colours !! c = Some row ->
         rgb_values s' !! Z.to_nat (m - 1) = Some row.
Proof.
  intros Hns Hs Hanswer Hlog Hnine Htidy Hcolours.
  destruct (CameraReadFaceColors_Done face ns log rest entries colours s
              Hns Hs Hanswer Hlog Hnine Htidy Hcolours) as (s' & Hrun & Hrows).
  exists s'. split; [exact Hrun |]. split; [| exact Hrows].
  apply (writes_only_CameraReadFaceColors face s s' Hs).
  rewrite Hrun. reflexivity.
Qed.

(** *** A scan that runs through *)




Section Quiet.
Variable fuel : nat.
Variables (c0 : list Z) (p0 : Z * Z) (t : Z).
Hypothesis pinion : p0.1 <> 0.




End Quiet.


(** *** The poll budget of a scan *)




End Stores.

(** * Runs on the test bench *)

Example init_on_bench :
  __init__ 20 "NXT1" false CCO_initial bench = Done bench_robot homed_bench.
Proof. vm_compute. reflexivity. Qed.

(** The scenario of section 8: from the canonical orientation the token
    [R] is carried out and leaves the orientation [[5, 3, 1]]. *)
Example Move_R_on_bench :
  exists self', Move 20 "R" bench_robot = Done tt self'
    /\ CCO self' = [5; 3; 1] /\ TurnTableTarget self' = 180.
Proof. eexists. split; [vm_compute; reflexivity |]. split; reflexivity. Qed.

Lemma Move_dispatches_witness :
  (exists t, target_face t 0 1 2 = 2
     /\ (forall t', target_face t' 0 1 2 = 2 -> t' = t)
     /\ Move 20 "R2" bench_robot
        = table_row 20 t (DegreesToTurnFace "R2") 0 1 2 bench_robot)
  /\ Move 20 "R2" bench_robot = table_row 20 Right (-180) 0 1 2 bench_robot.
Proof.
  destruct (Move_dispatches 20 "R2" 2 0 1 2 bench_robot eq_refl eq_refl)
    as (Hone & Hfirst & _).
  split; [apply Hone; reflexivity | apply (Hfirst Right); reflexivity].
Defined.

Lemma dispatch_never_falls_through_witness :
  In 4 [5; 1; 0; OF 5; OF 1; OF 0]
  /\ (exists cmd, FaceToTurn cmd = Some 4)
  /\ exists t, branch 4 5 1 0 = Some t
       /\ target_face t 5 1 0 = 4
       /\ (forall t', target_face t' 5 1 0 = 4 -> t' = t)
       /\ forall fuel cmd (self : BricKuberLib Bench),
            CCO self = [5; 1; 0] -> FaceToTurn cmd = Some 4 ->
            Move fuel cmd self
            = match branch 4 5 1 0 with
              | Some t' =>
                  table_row fuel t' (DegreesToTurnFace cmd) 5 1 0 self
              | None => face_turn_only fuel (DegreesToTurnFace cmd) self
              end
            /\ Move fuel cmd self
               = table_row fuel t (DegreesToTurnFace cmd) 5 1 0 self.
Proof.
  apply (dispatch_never_falls_through (W := Bench) 5 1 0 4); reflexivity.
Defined.

Lemma reachable_well_oriented_witness :
  well_oriented (CCO bench_robot) = true
  /\ exists self', state_of (Move 20 "F'" bench_robot) = Some self'
       /\ well_oriented (CCO self') = true.
Proof.
  destruct (reachable_well_oriented (W := Bench)) as (Hreach & Hstep).
  assert (Hinit : well_oriented (CCO bench_robot) = true).
  { apply Hreach. apply reachable_initial. reflexivity. }
  split; [exact Hinit |]. eexists. split; [vm_compute; reflexivity |].
  eapply (Hstep 20%nat "F'" bench_robot);
    [exact Hinit | vm_compute; reflexivity].
Defined.

(** C3 as stated fails: after [spin(90)] and [spin(-180, 22)] the stored
    target is 90, and the sum of the degrees is -90. *)
Lemma spins_cumulative_target_counterexample :
  TurnTableTarget bench_robot = 0
  /\ exists self', spins 20 [(90, 0); (-180, 22)] bench_robot = Done tt self'
       /\ TurnTableTarget self' = 90
       /\ degrees_sum [(90, 0); (-180, 22)] = -90
       /\ TurnTableTarget self' <> degrees_sum [(90, 0); (-180, 22)].
Proof.
  split; [reflexivity |]. eexists. split; [vm_compute; reflexivity |].
  repeat split. discriminate.
Qed.

Lemma spins_cumulative_target_witness :
  exists self', spins 20 [(90, 0); (-180, 22)] bench_robot = Done tt self'
    /\ TurnTableTarget self' = - degrees_sum [(90, 0); (-180, 22)].
Proof.
  eexists. split; [vm_compute; reflexivity |].
  eapply (spins_cumulative_target 20 [(90, 0); (-180, 22)] bench_robot);
    [reflexivity | vm_compute; reflexivity].
Defined.

(** C6 as stated fails: after a completed move, a token without a face
    letter is rejected with an error, before any action, and no face of the
    move before it is used. *)
Lemma Move_rejects_faceless_token_counterexample :
  token_face "X2" = None
  /\ exists self1, Move 20 "R" bench_robot = Done tt self1
       /\ Move 20 "X2" self1 = Raise (UnboundLocalError "FaceToTurn") self1.
Proof.
  split; [reflexivity |]. eexists. split; vm_compute; reflexivity.
Qed.

Lemma Move_rejects_faceless_token_witness :
  FaceToTurn "X2" = None
  /\ Move 20 "X2" bench_robot
     = Raise (UnboundLocalError "FaceToTurn") bench_robot.
Proof.
  apply (Move_rejects_faceless_token 20 "X2" bench_robot). reflexivity.
Defined.



Lemma motor_layer_frame_witness :
  exists self', state_of (flip 20 true bench_robot) = Some self'
    /\ CCO self' = CCO bench_robot
    /\ TurnTableTarget self' = TurnTableTarget bench_robot.
Proof.
  eexists. split; [vm_compute; reflexivity |].
  match goal with
  | |- CCO ?s = _ /\ _ =>
      destruct (motor_layer_frame 20 bench_robot s) as (_ & _ & _ & Hflip & _)
  end.
  apply (Hflip true). vm_compute. reflexivity.
Defined.

(** The jammed turntable never leaves 0. *)
Lemma jammed_turntable_stays k :
  motor_A (poll PORT_A (inject_Z 210) k jammed_bench).2
  = {| raw := 0; zero := 0; drive := Position 210; slew := 0; stop := 60 |}
  /\ (poll PORT_A (inject_Z 210) k jammed_bench).1 = 0.
Proof.
  induction k as [| k [IHmotor _]].
  - split; reflexivity.
  - cbn [poll get_motor_encoder time_sleep Bench_Rig motor with_motor motor_A
         fst snd].
    rewrite IHmotor. split; reflexivity.
Qed.

(** The jammed turntable is never settled at 210. *)
Lemma jammed_turntable_not_settled k :
  ~ settled (reading PORT_A (inject_Z 210) jammed_robot k) (Int 210) 3.
Proof.
  intros [Hlow _]%settled_Int. revert Hlow. unfold reading.
  cbn [BP jammed_robot robot_on].
  rewrite (proj2 (jammed_turntable_stays k)). now vm_compute.
Qed.

(** No budget lets [run_to_position] return from the jammed turntable. *)
Example jammed_turntable_blocks budget :
  run_to_position budget MOTOR_TURN (Int 210) 3 jammed_robot = Blocked.
Proof.
  rewrite (run_to_position_enters PORT_A (Int 210) 3 jammed_robot budget
             MOTOR_TURN eq_refl).
  apply run_to_position_loop_Blocked; [exact I |].
  intros i _. apply jammed_turntable_not_settled.
Qed.

Lemma run_to_position_waits_witness :
  MOTOR_PORTS !! MOTOR_TURN = Some PORT_A
  /\ (exists self',
        run_to_position 5 MOTOR_TURN (Int 210) 3 bench_robot = Done tt self')
  /\ run_to_position 5 MOTOR_TURN (Int 210) 3 jammed_robot = Blocked
  /\ run_to_position 1000 MOTOR_TURN (Int 210) 3 jammed_robot = Blocked
  /\ (exists self',
        run_to_position 5 MOTOR_TURN (Float (1 # 3)) 3 bench_robot
        = Done tt self').
Proof.
  split; [reflexivity |].
  destruct (run_to_position_waits 5 MOTOR_TURN PORT_A (Int 210) 3
              bench_robot eq_refl) as (_ & _ & _ & Hreturns & _).
  destruct (run_to_position_waits 5 MOTOR_TURN PORT_A (Int 210) 3
              jammed_robot eq_refl) as (_ & Hblocked & Hforever & _).
  destruct (run_to_position_waits 5 MOTOR_TURN PORT_A (Float (1 # 3)) 3
              bench_robot eq_refl) as (_ & _ & _ & Hfloat & _).
  split; [| split; [| split]].
  - apply (Hreturns 2%nat); [lia |]. apply settled_Int.
    vm_compute. split; discriminate.
  - apply Hblocked; [exact I |]. intros k _.
    apply jammed_turntable_not_settled.
  - apply Hforever; [exact I | exact jammed_turntable_not_settled].
  - apply (Hfloat 0%nat); [lia |].
    eexists _, _. split; [vm_compute; reflexivity |].
    split; [vm_compute; reflexivity |]. vm_compute. split; discriminate.
Defined.

(** C7 as stated fails for a [float] position: sent to [2.0 ** 53] with
    tolerance 3, the call returns at the first reading, [2 ** 53 + 4],
    which is outside [[position - 3, position + 3]]: the sum
    [position + 3] is rounded to [2 ** 53 + 4]. *)
Lemma run_to_position_waits_counterexample :
  exists self',
    run_to_position 5 MOTOR_TURN (Float (inject_Z (2 ^ 53))) 3 far_robot
    = Done tt self'
    /\ self' = polled PORT_A (inject_Z (2 ^ 53)) far_robot 0
    /\ reading PORT_A (inject_Z (2 ^ 53)) far_robot 0 = 2 ^ 53 + 4
    /\ add (Float (inject_Z (2 ^ 53))) 3
       = Some (Finite (inject_Z (2 ^ 53 + 4)))
    /\ ~ within (reading PORT_A (inject_Z (2 ^ 53)) far_robot 0)
           (inject_Z (2 ^ 53)) 3.
Proof.
  eexists. split; [vm_compute; reflexivity |].
  split; [vm_compute; reflexivity |]. split; [vm_compute; reflexivity |].
  split; [vm_compute; reflexivity |].
  intros [_ Hhigh]. vm_compute in Hhigh. now apply Hhigh.
Qed.

(** On the bench the readings of a wait are 10 ms apart. *)
Example poll_interval_on_bench p position k (w : Bench) :
  clock (poll p position (S k) w).2
  = Qred (clock (poll p position k w).2 + (1 # 100)).
Proof. cbn [poll]. destruct p; reflexivity. Qed.

(** The scenarios of section 8: [D] from the canonical orientation needs
    no reorientation, [U2] needs two flips and turns by -180. *)
Example Move_D_on_bench :
  branch 3 0 1 2 = Some Bottom /\ reorientation Bottom = []
  /\ exists self', Move 20 "D" bench_robot = Done tt self'
       /\ CCO self' = [0; 1; 2] /\ TurnTableTarget self' = 90.
Proof.
  do 2 (split; [reflexivity |]). eexists.
  split; [vm_compute; reflexivity |]. split; reflexivity.
Qed.

Example Move_U2_on_bench :
  branch 0 0 1 2 = Some Top /\ reorientation Top = [Flip; Flip]
  /\ DegreesToTurnFace "U2" = -180
  /\ exists self', Move 20 "U2" bench_robot = Done tt self'
       /\ CCO self' = [3; 4; 2] /\ TurnTableTarget self' = 180.
Proof.
  do 3 (split; [reflexivity |]). eexists.
  split; [vm_compute; reflexivity |]. split; reflexivity.
Qed.

Example Moves_on_bench :
  exists self', Moves 20 " R U2  F' D" bench_robot = Done tt self'
    /\ CCO self' = [0; 1; 2] /\ TurnTableTarget self' = 450.
Proof. eexists. split; [vm_compute; reflexivity |]. split; reflexivity. Qed.

(** ** Runs on the ideal rig and in the studio *)

Lemma Move_bookkeeping_witness :
  exists self', Move 0 "F'" ideal_robot = Done tt self'
    /\ plan_Move "F'" (CCO ideal_robot) (TurnTableTarget ideal_robot)
       = Some (CCO self', TurnTableTarget self').
Proof.
  eexists. split; [vm_compute; reflexivity |].
  apply (Move_bookkeeping 0 "F'" 5 1 0 ideal_robot _ eq_refl).
  vm_compute. reflexivity.
Defined.

Lemma Move_turns_bottom_face_witness :
  exists self', Move 0 "F'" ideal_robot = Done tt self'
    /\ exists U' F' R', CCO self' = [U'; F'; R'] /\ OF U' = 1.
Proof.
  eexists. split; [vm_compute; reflexivity |].
  apply (Move_turns_bottom_face 0 "F'" 1 ideal_robot _ eq_refl eq_refl).
  vm_compute. reflexivity.
Defined.

Lemma Move_raises_witness :
  (FaceToTurn "X2" = None
   /\ UnboundLocalError "FaceToTurn" = UnboundLocalError "FaceToTurn"
   /\ ideal_robot = ideal_robot)
  \/ (UnboundLocalError "FaceToTurn" = ZeroDivisionError
      /\ TurnTablePinion ideal_robot = 0)
  \/ (UnboundLocalError "FaceToTurn" = OverflowError
      /\ TurnTablePinion ideal_robot <> 0
      /\ float_limit * Z.abs (TurnTablePinion ideal_robot)
         <= (Z.abs (TurnTableTarget ideal_robot) + 382)
            * Z.abs (TurnTableGear ideal_robot)).
Proof.
  apply (Move_raises 0 "X2" 5 1 0 ideal_robot ideal_robot
           (UnboundLocalError "FaceToTurn") eq_refl).
  vm_compute. reflexivity.
Defined.

(** After [spin(10 ** 400)] has raised, the cumulative target it left
    makes every move raise. *)
Example Move_after_runaway_spin :
  exists self1,
    spin 0 (10 ^ 400) 0 ideal_robot = Raise OverflowError self1
    /\ TurnTableTarget self1 = - 10 ^ 400
    /\ exists self2, Move 0 "D" self1 = Raise OverflowError self2.
Proof.
  eexists. split; [vm_compute; reflexivity |]. split; [reflexivity |].
  eexists. vm_compute. reflexivity.
Qed.

Lemma spin_raises_witness :
  spin 0 90 22 worn_robot
  = Raise ZeroDivisionError
      (with_TurnTableTarget
         (TurnTableTarget worn_robot - (90 + (if 90 <? 0 then - 22 else 22)))
         worn_robot)
  /\ spin 0 (10 ^ 400) 0 ideal_robot
     = Raise OverflowError
         (with_TurnTableTarget
            (TurnTableTarget ideal_robot
             - (10 ^ 400 + (if 10 ^ 400 <? 0 then - 0 else 0)))
            ideal_robot).
Proof.
  split.
  - apply (proj1 (spin_raises 0 90 22 worn_robot)). reflexivity.
  - destruct (spin_raises 0 (10 ^ 400) 0 ideal_robot) as (_ & Hover & _).
    apply Hover; [discriminate | vm_compute; reflexivity].
Defined.

Lemma motor_layer_failures_witness :
  exists self', home_all 0 worn_robot = Raise ZeroDivisionError self'
    /\ ZeroDivisionError = ZeroDivisionError
    /\ TurnTablePinion worn_robot = 0.
Proof.
  assert (Hrun : exists self',
             home_all 0 worn_robot = Raise ZeroDivisionError self')
    by (eexists; vm_compute; reflexivity).
  destruct Hrun as [self' Hrun]. exists self'. split; [exact Hrun |].
  destruct (motor_layer_failures 0 worn_robot self' ZeroDivisionError)
    as (_ & _ & _ & Hhome).
  exact (Hhome Hrun).
Defined.


Lemma Moves_bookkeeping_witness :
  exists self', Moves 0 "R U2 F'" ideal_robot = Done tt self'
    /\ plan_Moves (split "R U2 F'") (CCO ideal_robot)
         (TurnTableTarget ideal_robot)
       = Some (CCO self', TurnTableTarget self').
Proof.
  eexists. split; [vm_compute; reflexivity |].
  apply (Moves_bookkeeping 0 "R U2 F'" ideal_robot _ eq_refl).
  vm_compute. reflexivity.
Defined.

Lemma Moves_stops_at_bad_token_witness :
  Moves 0 "R X2 U" ideal_robot
  = match Moves_loop 0 ["R"] ideal_robot with
    | Done _ s1 => Raise (UnboundLocalError "FaceToTurn") s1
    | Raise e s1 => Raise e s1
    | Blocked => Blocked
    end.
Proof.
  apply (Moves_stops_at_bad_token 0 "R X2 U" ["R"] "X2" ["U"] ideal_robot);
    reflexivity.
Defined.

Lemma Moves_blank_witness :
  Moves 0 "  " ideal_robot
  = run_to_position 0 MOTOR_GRAB
      (Int (MOTOR_GRAB_POSITION_REST ideal_robot)) 3 ideal_robot.
Proof. apply (Moves_blank 0 "  " ideal_robot). reflexivity. Defined.

Lemma Moves_joined_witness :
  Moves 0 ("R U2" +:+ String " " "F'") ideal_robot
  = match Moves_loop 0 (split "R U2") ideal_robot with
    | Done _ s => Moves 0 "F'" s
    | Raise e s => Raise e s
    | Blocked => Blocked
    end.
Proof.
  apply (Moves_joined 0 "R U2" "F'" " " ideal_robot). reflexivity.
Defined.

Lemma home_all_stalls_witness :
  exists self', home_all 20 (robot_on bench) = Done tt self'
    /\ exists k, (k <= 20)%nat
         /\ homing_reading (robot_on bench) (S k)
            = homing_reading (robot_on bench) k
         /\ (forall i, (i < k)%nat ->
               homing_reading (robot_on bench) (S i)
               <> homing_reading (robot_on bench) i)
         /\ spin 20 0 0 (homed (robot_on bench) (S k)) = Done tt self'
         /\ TurnTableTarget self' = 0.
Proof.
  eexists. split; [vm_compute; reflexivity |].
  apply (proj1 (home_all_stalls 20 (robot_on bench))).
  vm_compute. reflexivity.
Defined.

Lemma init_outcome_witness :
  exists self' w,
    __init__ 0 "EV3" true [0; 1; 2] {| shaft := fun _ => 0 |} = Done self' w
    /\ ("EV3" = "NXT1" \/ "EV3" = "EV3")
    /\ w = BP self' /\ debug self' = true /\ CCO self' = [0; 1; 2]
    /\ TurnTableTarget self' = 0.
Proof.
  eexists _, _. split; [vm_compute; reflexivity |].
  apply (proj1 (init_outcome 0 "EV3" true [0; 1; 2]
                  {| shaft := fun _ => 0 |})).
  vm_compute. reflexivity.
Defined.

Lemma flip_settles_witness :
  exists self', flip 20 false bench_robot = Done tt self'
    /\ exists s0 k, (k <= 20)%nat
         /\ self' = polled PORT_D
                      (inject_Z (MOTOR_GRAB_POSITION_FLIP_PUSH bench_robot))
                      s0 k
         /\ within
              (reading PORT_D
                 (inject_Z (MOTOR_GRAB_POSITION_FLIP_PUSH bench_robot)) s0 k)
              (inject_Z (MOTOR_GRAB_POSITION_FLIP_PUSH bench_robot)) 3.
Proof.
  eexists. split; [vm_compute; reflexivity |].
  apply (flip_settles 20 false bench_robot).
  vm_compute. reflexivity.
Defined.

Lemma shaped_replicate (row : list Z) :
  length row = 3%nat -> shaped (replicate 54 row).
Proof.
  intros Hrow. split; [apply length_replicate |].
  apply Forall_replicate. exact Hrow.
Qed.

Lemma CameraReadFaceColors_frame_witness :
  exists s', state_after (CameraReadFaceColors "right" studio) = Some s'
    /\ shaped (rgb_values s')
    /\ lib s' = with_BP (BP (lib s')) (lib studio)
    /\ forall k,
         (forall ns n, numbers_of "right" = Some ns -> n ∈ ns ->
            Z.of_nat k <> n - 1) ->
         rgb_values s' !! k = rgb_values studio !! k.
Proof.
  eexists. split; [vm_compute; reflexivity |].
  apply (CameraReadFaceColors_frame "right" studio).
  - apply shaped_replicate. reflexivity.
  - vm_compute. reflexivity.
Defined.

Lemma CameraReadFaceColors_keeps_other_faces_witness :
  exists s', state_after (CameraReadFaceColors "right" used_studio) = Some s'
    /\ forall n, n ∈ [19; 20; 21; 22; 23; 24; 25; 26; 27] ->
         rgb_values s' !! Z.to_nat (n - 1)
         = rgb_values used_studio !! Z.to_nat (n - 1).
Proof.
  eexists. split; [vm_compute; reflexivity |].
  apply (CameraReadFaceColors_keeps_other_faces "right" "front"
           [19; 20; 21; 22; 23; 24; 25; 26; 27] used_studio).
  - apply shaped_replicate. reflexivity.
  - reflexivity.
  - discriminate.
  - vm_compute. reflexivity.
Defined.

Lemma CameraReadFaceColors_unknown_face_witness :
  exists e s',
    CameraReadFaceColors "side" studio = Raise e s'
    /\ rgb_values s' = rgb_values studio
    /\ BP (lib s') =
         (getstatusoutput
            ("rubiks-cube-tracker.py --filename /tmp/BricKuber_" +:+ "side"
             +:+ "_face.jpg")
            (getstatusoutput
               ("raspistill -w 300 -h 300 -t 1 -o /tmp/BricKuber_" +:+ "side"
                +:+ "_face.jpg") (BP (lib studio))).2).2
    /\ (e = IndexError \/ e = ValueError "invalid literal for int()"
        \/ e = UnboundLocalError "numbers").
Proof.
  apply (CameraReadFaceColors_unknown_face "side" studio). reflexivity.
Defined.

Lemma ReadCubeColors_outcome_witness :
  match ReadCubeColors 0 used_studio with
  | Done _ s' =>
      CCO (lib s') = [5; 1; 0]
      /\ TurnTableTarget (lib s') = TurnTableTarget (lib used_studio)
      /\ shaped (rgb_values s')
  | Raise e s' =>
      CCO (lib s') = CCO (lib used_studio)
      /\ shaped (rgb_values s')
      /\ ((e = ZeroDivisionError /\ TurnTablePinion (lib used_studio) = 0)
          \/ (e = OverflowError /\ TurnTablePinion (lib used_studio) <> 0
              /\ float_limit * Z.abs (TurnTablePinion (lib used_studio))
                 <= (Z.abs (TurnTableTarget (lib used_studio)) + 90)
                    * Z.abs (TurnTableGear (lib used_studio)))
          \/ e = IndexError
          \/ e = ValueError "invalid literal for int()")
  | Blocked => True
  end.
Proof.
  apply (ReadCubeColors_outcome 0 used_studio).
  apply shaped_replicate. reflexivity.
Defined.

Lemma ReadCubeColors_rereads_every_facelet_witness :
  match ReadCubeColors 0 studio, ReadCubeColors 0 used_studio with
  | Done r1 s1', Done r2 s2' => r1 = r2 /\ s1' = s2'
  | Raise e1 s1', Raise e2 s2' => e1 = e2 /\ lib s1' = lib s2'
  | Blocked, Blocked => True
  | _, _ => False
  end.
Proof.
  apply (ReadCubeColors_rereads_every_facelet 0 studio used_studio).
  - reflexivity.
  - apply shaped_replicate. reflexivity.
  - apply shaped_replicate. reflexivity.
Defined.

Lemma spin_settles_witness :
  exists self', spin 20 (-180) 22 bench_robot = Done tt self'
    /\ TurnTableTarget self' = TurnTableTarget bench_robot - -180
    /\ TurnTablePinion self' <> 0
    /\ huge (inject_Z (TurnTableTarget self' * TurnTableGear self')
             / inject_Z (TurnTablePinion self')) = false
    /\ exists s0 k, (k <= 20)%nat
         /\ self'
            = polled PORT_A
                (double
                   (inject_Z (TurnTableTarget self' * TurnTableGear self')
                    / inject_Z (TurnTablePinion self'))) s0 k
         /\ settled
              (reading PORT_A
                 (double
                    (inject_Z (TurnTableTarget self' * TurnTableGear self')
                     / inject_Z (TurnTablePinion self'))) s0 k)
              (Float
                 (double
                    (inject_Z (TurnTableTarget self' * TurnTableGear self')
                     / inject_Z (TurnTablePinion self')))) 3
         /\ ((Qabs (inject_Z (TurnTableTarget self' * TurnTableGear self')
                    / inject_Z (TurnTablePinion self'))
              <= inject_Z (2 ^ 52))%Q ->
             within
               (reading PORT_A
                  (double
                     (inject_Z (TurnTableTarget self' * TurnTableGear self')
                      / inject_Z (TurnTablePinion self'))) s0 k)
               (inject_Z (TurnTableTarget self' * TurnTableGear self')
                / inject_Z (TurnTablePinion self'))%Q 4).
Proof.
  eexists. split; [vm_compute; reflexivity |].
  apply (spin_settles 20 (-180) 22 bench_robot).
  vm_compute. reflexivity.
Defined.

Lemma studio_entries_tidy : Forall tidy_entry studio_entries.
Proof. repeat constructor. Qed.

Lemma studio_numerals : numerals_of studio_entries studio_colours.
Proof. repeat constructor. Qed.

Lemma studio_tracker_answers (face : string) :
  tracker_answers (W := Ideal) face.
Proof.
  intros w.
  exists "Analyzing /tmp/BricKuber_face.jpg", studio_entries, "",
    studio_colours.
  split; [reflexivity |]. split; [reflexivity |]. split; [reflexivity |].
  split; [exact studio_entries_tidy | exact studio_numerals].
Qed.

Lemma CameraReadFaceColors_stores_witness :
  exists s',
    CameraReadFaceColors "right" studio = Done tt s'
    /\ shaped (rgb_values s')
    /\ forall c m row,
         [36; 35; 34; 33; 32; 31; 30; 29; 28] !! c = Some m ->
         studio_colours !! c = Some row ->
         rgb_values s' !! Z.to_nat (m - 1) = Some row.
Proof.
  apply (CameraReadFaceColors_stores "right"
           [36; 35; 34; 33; 32; 31; 30; 29; 28]
           "Analyzing /tmp/BricKuber_face.jpg" "" studio_entries
           studio_colours studio eq_refl).
  - apply shaped_replicate. reflexivity.
  - reflexivity.
  - reflexivity.
  - reflexivity.
  - exact studio_entries_tidy.
  - exact studio_numerals.
Defined.


